(** * qopen.site: alignment of site responses

    A shallow embedding of [src/qopen/site.py] and the properties of its
    alignment engine.

    Modelling conventions.
    - Python floats are modelled by real numbers: [W[i]] and [Rsta[i]] hold
      [None], a NaN or a number ([value]); [np.log] and [np.exp] are [ln] and
      [exp]; rounding, overflow and infinities are not modelled.
    - Dictionaries whose iteration order the code relies on
      ([results['events']], [eres['R']], [areas], [norm_row_A]) are
      association lists in insertion order; dictionaries that are only looked
      up and counted ([Nstations[i]], [first], [last]) are [gmap]s; Python
      sets of station names are [gset string].
    - Exceptions are values of [exn]; a function that may raise returns a
      [result]. Functions that mutate the result dictionary in place return
      the dictionary as it stands when they return or raise, next to the
      outcome.
    - Library routines ([scipy.sparse.linalg.lsmr], [scipy.linalg.lstsq],
      [scipy.spatial.ConvexHull], [calculate_source_properties]) are
      parameters. *)

From Stdlib Require Import Reals Lra Lia.
From Equations Require Import Equations.
From stdpp Require Import gmap strings list fin_maps.

(** ** Exceptions and results *)

Inductive exn :=
| TypeError | IndexError | KeyError | ValueError | AssertionError
| ZeroDivisionError | NotImplementedError | QhullError | LinAlgError.

Inductive result (A : Type) :=
| Ok (a : A)
| Raise (e : exn).
Arguments Ok {A} a.
Arguments Raise {A} e.

#[global] Instance result_ret : MRet result := fun A a => Ok a.
#[global] Instance result_bind : MBind result :=
  fun A B f m => match m with Ok a => f a | Raise e => Raise e end.

Definition of_option {A} (e : exn) (o : option A) : result A :=
  match o with Some a => Ok a | None => Raise e end.

(** [l[i]] on a Python list. *)
Definition index {A} (l : list A) (i : nat) : result A := of_option IndexError (l !! i).

(** In-place update of the elements of a list, in order; the loop stops at
    the first element whose update raises, and the elements after it keep
    their old value. *)
Fixpoint update_each {A} (step : nat -> A -> A * result unit) (k : nat) (l : list A)
  : list A * result unit :=
  match l with
  | [] => ([], Ok tt)
  | a :: rest =>
      match step k a with
      | (a', Ok _) => let (rest', o) := update_each step (S k) rest in (a' :: rest', o)
      | (a', Raise e) => (a' :: rest, Raise e)
      end
  end.

(** [for i in range(...)] over a mutable state, with the same early exit. *)
Fixpoint for_range {S} (body : nat -> S -> S * result unit) (range : list nat) (s : S)
  : S * result unit :=
  match range with
  | [] => (s, Ok tt)
  | i :: rest =>
      match body i s with
      | (s', Ok _) => for_range body rest s'
      | (s', Raise e) => (s', Raise e)
      end
  end.

(** A loop that threads an accumulator through a list and may raise. *)
Fixpoint foldM {A S} (step : S -> A -> result S) (s : S) (l : list A) : result S :=
  match l with
  | [] => Ok s
  | a :: rest => s' ← step s a; foldM step s' rest
  end.

(** ** Dictionaries in insertion order *)

(** [d[k] = v]: an existing key keeps its position. *)
Fixpoint dict_set {K V} `{EqDecision K} (d : list (K * V)) (k : K) (v : V) : list (K * V) :=
  match d with
  | [] => [(k, v)]
  | (k', v') :: rest =>
      if decide (k' = k) then (k, v) :: rest else (k', v') :: dict_set rest k v
  end.

Fixpoint dict_get {K V} `{EqDecision K} (d : list (K * V)) (k : K) : option V :=
  match d with
  | [] => None
  | (k', v') :: rest => if decide (k' = k) then Some v' else dict_get rest k
  end.

(** ** The result dictionary *)

(** An entry of [W] or of a station's site response. *)
Inductive value :=
| PyNone
| NaN
| Num (x : R).

(** [v is None or np.isnan(v)] *)
Definition missing (v : value) : bool :=
  match v with Num _ => false | _ => true end.

(** [v /= f] and [v *= f] on an entry that is not missing. *)
Definition vdiv (v : value) (f : R) : value :=
  match v with Num x => Num (x / f) | _ => v end.
Definition vmul (v : value) (f : R) : value :=
  match v with Num x => Num (x * f) | _ => v end.

(** Result of one event: [eres['W']] and [eres['R']]. *)
Record eres := { res_W : list value; res_R : list (string * list value) }.

(** [results['events']]: event id to event result, or to [None]. *)
Record results := { events : list (string * option eres) }.

(** [eres['W']], [eres['R']]: subscripting [None] is a [TypeError]. *)
Definition get_W (e : option eres) : result (list value) := of_option TypeError (res_W <$> e).
Definition get_R (e : option eres) : result (list (string * list value)) :=
  of_option TypeError (res_R <$> e).

(** [range(Nf)]: [Nf] is [None] when there is no event. *)
Definition py_range (Nf : option nat) : result (list nat) :=
  of_option TypeError (seq 0 <$> Nf).

Fixpoint number_of_freqs_loop (Nf : option nat) (evs : list (string * option eres))
  : result (option nat) :=
  match evs with
  | [] => Ok Nf
  | (evid, e) :: rest =>
      W ← get_W e;
      let Nf2 := length W in
      match Nf with
      | Some n => if decide (n = Nf2) then number_of_freqs_loop (Some Nf2) rest
                  else Raise AssertionError
      | None => number_of_freqs_loop (Some Nf2) rest
      end
  end.

Definition _get_number_of_freqs (rs : results) : result (option nat) :=
  number_of_freqs_loop None (events rs).

(** ** Rescaler *)

(** [factors[k, i]] *)
Definition factor_at (factors : list (list R)) (k i : nat) : result R :=
  row ← index factors k; index row i.

(** Lines 69-72 for one station. *)
Definition rescale_station (i : nat) (f : R) (item : string * list value)
  : (string * list value) * result unit :=
  let (sta, Rsta) := item in
  match Rsta !! i with
  | None => (item, Raise IndexError)
  | Some v => if missing v then (item, Ok tt) else ((sta, <[i := vmul v f]> Rsta), Ok tt)
  end.

(** Lines 63-72 for event number [k]. *)
Definition rescale_event (factors : list (list R)) (i k : nat) (item : string * option eres)
  : (string * option eres) * result unit :=
  let (evid, e) := item in
  match e with
  | None => (item, Raise TypeError)
  | Some er =>
      match res_W er !! i with
      | None => (item, Raise IndexError)
      | Some w =>
          if missing w then (item, Ok tt) else
          match factor_at factors k i with
          | Raise e => (item, Raise e)
          | Ok f =>
              let W' := <[i := vdiv w f]> (res_W er) in
              let (R', o) := update_each (fun _ => rescale_station i f) 0 (res_R er) in
              ((evid, Some {| res_W := W'; res_R := R' |}), o)
          end
      end
  end.

Definition rescale_band (factors : list (list R)) (i : nat) (evs : list (string * option eres))
  : list (string * option eres) * result unit :=
  update_each (rescale_event factors i) 0 evs.

Definition _rescale_results (rs : results) (factors : list (list R)) : results * result unit :=
  match Nf ← _get_number_of_freqs rs; py_range Nf with
  | Raise e => (rs, Raise e)
  | Ok range =>
      let (evs, o) := for_range (rescale_band factors) range (events rs) in
      ({| events := evs |}, o)
  end.

(** ** Connectivity analyzer *)

(** The inner [for eachset in newsets] of [_merge_sets]: the first set that
    is not disjoint from [aset] is updated with it ([Some]); [None] is the
    loop's [else] branch. *)
Fixpoint merge_into (aset : gset string) (newsets : list (gset string))
  : option (list (gset string)) :=
  match newsets with
  | [] => None
  | eachset :: rest =>
      if decide (aset ## eachset)
      then cons eachset <$> merge_into aset rest
      else Some ((eachset ∪ aset) :: rest)
  end.

Definition merge_step (newsets : list (gset string)) (aset : gset string)
  : list (gset string) :=
  match merge_into aset newsets with
  | Some updated => updated
  | None => newsets ++ [aset]
  end.

(** One run of [for aset in sets], starting from [newsets = []]. *)
Definition merge_pass (sets : list (gset string)) : list (gset string) :=
  foldl merge_step [] sets.

(** The [while len(sets) != len(newsets)] loop. A pass never lengthens
    the list, so the loop ends. *)
Equations? merge_loop (sets newsets : list (gset string)) : list (gset string)
  by wf (2 * length newsets + (if Nat.eqb (length sets) (length newsets) then 0 else 1)) lt :=
  merge_loop sets newsets with decide (length sets = length newsets) => {
    | left _ := newsets
    | right _ := merge_loop newsets (merge_pass newsets) }.
Proof.
  assert (forall l acc, length (foldl merge_step acc l) <= length acc + length l) as Hpass.
  { induction l as [|a l IH]; intros acc; simpl; [lia|].
    etrans; [apply IH|]. unfold merge_step.
    assert (forall l', merge_into a acc = Some l' -> length l' = length acc) as Hinto.
    { induction acc as [|x acc IHacc]; intros l'; simpl; [done|].
      case_decide; [|by intros [= <-]].
      destruct (merge_into a acc); simpl; [|done].
      intros [= <-]. simpl. f_equal. by apply IHacc. }
    destruct (merge_into a acc) as [l'|]; [rewrite (Hinto l' eq_refl)|rewrite length_app; simpl]; lia. }
  specialize (Hpass newsets []). fold (merge_pass newsets) in Hpass. simpl in Hpass.
  repeat match goal with |- context [Nat.eqb ?a ?b] => destruct (Nat.eqb_spec a b) end; lia.
Qed.

Definition _merge_sets (sets : list (gset string)) : list (gset string) :=
  merge_loop [] sets.

(** The set comprehension of lines 98-99. *)
Fixpoint valid_stations (freqi : nat) (Rs : list (string * list value))
  : result (gset string) :=
  match Rs with
  | [] => Ok ∅
  | (sta, Rsta) :: rest =>
      v ← index Rsta freqi;
      area ← valid_stations freqi rest;
      Ok (if missing v then area else {[sta]} ∪ area)
  end.

Fixpoint event_areas (freqi : nat) (evs : list (string * option eres))
  : result (list (gset string)) :=
  match evs with
  | [] => Ok []
  | (evid, e) :: rest =>
      Rs ← get_R e;
      area ← valid_stations freqi Rs;
      areas ← event_areas freqi rest;
      Ok (if decide (0 < size area) then area :: areas else areas)
  end.

(** [list(a)[0]]. The iteration order of a Python set is not specified;
    the model takes the first element of [elements a], and the theorems use
    only that it is a member of [a]. *)
Definition set_first (a : gset string) : result string :=
  of_option IndexError (head (elements a)).

(** [{list(a)[0]: a for a in areas}] *)
Definition name_areas (areas : list (gset string)) : result (list (string * gset string)) :=
  foldM (fun d a => name ← set_first a; Ok (dict_set d name a)) [] areas.

Definition _find_unconnected_areas (rs : results) (freqi : nat)
  : result (list (string * gset string)) :=
  areas ← event_areas freqi (events rs);
  name_areas (_merge_sets areas).

(** ** Area bridger: station coordinates and hull reduction *)

#[global] Instance R_eq_dec : EqDecision R := Req_dec_T.

(** Truth value of a Python float. *)
Definition nonzero (x : R) : bool := if decide (x = 0%R) then false else true.

Record channel := { cha_latitude : R; cha_longitude : R }.
Record station_meta :=
  { sta_code : string; sta_latitude : R; sta_longitude : R; channels : list channel }.
Record network := { net_code : string; stations : list station_meta }.
Record inventory := { networks : list network }.

Definition station_coordinates (net : network) (coords : list (string * (R * R)))
  (sta : station_meta) : result (list (string * (R * R))) :=
  cha ← index (channels sta) 0;
  let lat := if nonzero (cha_latitude cha) then cha_latitude cha else sta_latitude sta in
  let lon := if nonzero (cha_longitude cha) then cha_longitude cha else sta_longitude sta in
  let key := (net_code net +:+ "." +:+ sta_code sta)%string in
  Ok (dict_set coords key (lat, lon)).

Definition _collect_station_coordinates (inv : inventory) : result (list (string * (R * R))) :=
  foldM (fun coords net => foldM (station_coordinates net) coords (stations net))
        [] (networks inv).

(** [{c: sta for sta, c in coordinates.items()}] *)
Definition invert_coordinates (coordinates : list (string * (R * R)))
  : list ((R * R) * string) :=
  foldl (fun d item => dict_set d item.2 item.1) [] coordinates.

Section Bridger.

(** [scipy.spatial.ConvexHull(points).vertices], or the error it raises. *)
Variable ConvexHull : list (R * R) -> result (list nat).

(** Lines 124-164 of [_join_unconnected_areas]: the distances between the
    hulls and the greedy joining, which run once every hull is there. *)
Variable join_by_distance :
  list (string * gset string) -> list (string * gset string) -> R ->
  list (string * (R * R)) ->
  result (list (string * gset string) * list (string * string)).

(** Lines 120-123 for one area. *)
Definition area_hull (coordinates : list (string * (R * R)))
  (station_by_coordinate : list ((R * R) * string)) (stas : gset string)
  : result (gset string) :=
  points ← mapM (fun sta => of_option KeyError (dict_get coordinates sta)) (elements stas);
  vertices ← ConvexHull points;
  hull_points ← mapM (index points) vertices;
  names ← mapM (fun p => of_option KeyError (dict_get station_by_coordinate p)) hull_points;
  Ok (list_to_set names).

(** Lines 118-123: the loop that fills [hulls]. *)
Definition hull_reduction (coordinates : list (string * (R * R)))
  (areas : list (string * gset string)) : result (list (string * gset string)) :=
  foldM (fun hulls area =>
           hull ← area_hull coordinates (invert_coordinates coordinates) area.2;
           Ok (dict_set hulls area.1 hull))
        [] areas.

Definition _join_unconnected_areas (areas : list (string * gset string))
  (max_distance : R) (inv : inventory)
  : result (list (string * gset string) * list (string * string)) :=
  coordinates ← _collect_station_coordinates inv;
  hulls ← hull_reduction coordinates areas;
  join_by_distance areas hulls max_distance coordinates.

End Bridger.

(** ** System builder *)

(** [Arepr]: coordinate lists [[data, [rows, cols]]] for the sparse solver,
    a list of rows for the dense one. *)
Inductive matrix_repr :=
| SparseRepr (data : list R) (rows cols : list nat)
| DenseRepr (Arows : list (list R)).

(** The nonlocal lists of [construct_ols]: [b], [row[0]] and [Arepr]. *)
Record ols := { ols_b : list R; ols_row : nat; ols_Arepr : matrix_repr }.

(** [Arow[col] = data] for each pair of [coldata], on [Arow = np.zeros(Ne)]. *)
Definition dense_row (Ne : nat) (coldata : list (nat * R)) : result (list R) :=
  foldM (fun Arow cd => if decide (cd.1 < length Arow) then Ok (<[cd.1 := cd.2]> Arow)
                        else Raise IndexError)
        (replicate Ne 0%R) coldata.

(** [Arepr] always has the shape that [use_sparse] asks for: both come from
    the same flag. The mixed cases cannot occur. *)
Definition construct_ols (use_sparse : bool) (Ne : nat) (coldata : list (nat * R))
  (b_val : R) (s : ols) : result ols :=
  let b := ols_b s ++ [b_val] in
  match use_sparse, ols_Arepr s with
  | true, SparseRepr data rows cols =>
      Ok {| ols_b := b; ols_row := S (ols_row s);
            ols_Arepr := SparseRepr (data ++ (snd <$> coldata))
                                    (rows ++ ((fun _ => ols_row s) <$> coldata))
                                    (cols ++ (fst <$> coldata)) |}
  | false, DenseRepr Arows =>
      Arow ← dense_row Ne coldata;
      Ok {| ols_b := b; ols_row := S (ols_row s); ols_Arepr := DenseRepr (Arows ++ [Arow]) |}
  | _, _ => Raise TypeError
  end.

(** Lines 233-238. *)
Definition ols_init (use_sparse : bool) : ols :=
  {| ols_b := []; ols_row := 0;
     ols_Arepr := if use_sparse then SparseRepr [] [] [] else DenseRepr [] |}.

(** [norm_row_A[k] += fac] on a [defaultdict(float)]. *)
Definition dict_add (d : list (nat * R)) (k : nat) (fac : R) : list (nat * R) :=
  dict_set d k (default 0%R (dict_get d k) + fac)%R.

(** The state of the loop of lines 244-279. *)
Record build_state :=
  { bs_ols : ols;
    norm_row_A : list (nat * R);
    norm_row_b : R;
    bs_first : gmap string (nat * R);
    bs_last : gmap string (nat * R) }.

Definition build_init (use_sparse : bool) : build_state :=
  {| bs_ols := ols_init use_sparse; norm_row_A := []; norm_row_b := 0%R;
     bs_first := ∅; bs_last := ∅ |}.

(** Lines 195-202 for one frequency band: the number of events with a
    valid site response, per station. *)
Fixpoint count_stations (i : nat) (N : gmap string nat) (Rs : list (string * list value))
  : result (gmap string nat) :=
  match Rs with
  | [] => Ok N
  | (sta, Rsta) :: rest =>
      v ← index Rsta i;
      count_stations i (if missing v then N else <[sta := S (default 0 (N !! sta))]> N) rest
  end.

Section Builder.

Variable use_sparse : bool.
Variable Ne : nat.
Variable station : option string.
Variable response : R.
(** [Nstations[i]] and [largest_area] of the band. *)
Variable Nstations_i : gmap string nat.
Variable largest_area : gset string.

(** Lines 252-257. Reading a station that [Nstations[i]] lacks leaves a
    zero there, and the division raises. *)
Definition normalize (k : nat) (sta : string) (x : R) (s : build_state)
  : result build_state :=
  match station with
  | Some _ => Ok s
  | None =>
      match default 0 (Nstations_i !! sta) with
      | 0 => Raise ZeroDivisionError
      | S n =>
          let fac := (1 / INR (S n) / INR (size Nstations_i))%R in
          Ok {| bs_ols := bs_ols s;
                norm_row_A := dict_add (norm_row_A s) k fac;
                norm_row_b := (norm_row_b s - ln x * fac)%R;
                bs_first := bs_first s; bs_last := bs_last s |}
      end
  end.

(** Lines 258-279; [join_unconnected] is [None] there, which leaves the
    branch of lines 269-277 out. *)
Definition add_pair (k : nat) (sta : string) (x : R) (s : build_state)
  : result build_state :=
  if decide (Some sta = station) then
    o ← construct_ols use_sparse Ne [(k, 1%R)] (ln response - ln x)%R (bs_ols s);
    Ok {| bs_ols := o; norm_row_A := norm_row_A s; norm_row_b := norm_row_b s;
          bs_first := bs_first s; bs_last := bs_last s |}
  else
    match bs_last s !! sta with
    | Some (kl, Rstal) =>
        o ← construct_ols use_sparse Ne [(k, 1%R); (kl, (-1)%R)] (ln Rstal - ln x)%R (bs_ols s);
        Ok {| bs_ols := o; norm_row_A := norm_row_A s; norm_row_b := norm_row_b s;
              bs_first := bs_first s; bs_last := <[sta := (k, x)]> (bs_last s) |}
    | None =>
        Ok {| bs_ols := bs_ols s; norm_row_A := norm_row_A s; norm_row_b := norm_row_b s;
              bs_first := <[sta := (k, x)]> (bs_first s);
              bs_last := <[sta := (k, x)]> (bs_last s) |}
    end.

(** Lines 247-279 for one station of event number [k]. *)
Definition observe (i k : nat) (s : build_state) (item : string * list value)
  : result build_state :=
  v ← index item.2 i;
  match v with
  | Num x =>
      if decide (item.1 ∈ largest_area) then
        s' ← normalize k item.1 x s; add_pair k item.1 x s'
      else Ok s
  | _ => Ok s
  end.

Fixpoint observe_events (i k : nat) (s : build_state) (evs : list (string * option eres))
  : result build_state :=
  match evs with
  | [] => Ok s
  | (evid, e) :: rest =>
      Rs ← get_R e;
      s' ← foldM (observe i k) s Rs;
      observe_events i (S k) s' rest
  end.

(** Lines 280-283. *)
Definition normalization_row (s : build_state) : result ols :=
  match station with
  | Some _ => Ok (bs_ols s)
  | None =>
      construct_ols use_sparse Ne (norm_row_A s) (norm_row_b s + ln response)%R (bs_ols s)
  end.

(** Lines 233-283: the system of frequency band [i]. *)
Definition build_system (i : nat) (evs : list (string * option eres)) : result ols :=
  s ← observe_events i 0 (build_init use_sparse) evs;
  normalization_row s.

End Builder.

(** ** Alignment *)

(** Lines 196-202 for one event: every band of [Nstations] is updated. *)
Definition count_event (Nf : nat) (Nstations : list (gmap string nat))
  (item : string * option eres) : result (list (gmap string nat)) :=
  foldM (fun Nst i =>
           Rs ← get_R item.2;
           N ← index Nst i;
           N' ← count_stations i N Rs;
           Ok (<[i := N']> Nst))
        Nstations (seq 0 Nf).

Definition count_events (Nf : nat) (evs : list (string * option eres))
  : result (list (gmap string nat)) :=
  foldM (count_event Nf) (replicate Nf ∅) evs.

(** [max(areas, key=lambda k: len(areas[k]))]: the first of the largest. *)
Fixpoint max_by_size (best : string * gset string) (areas : list (string * gset string))
  : string * gset string :=
  match areas with
  | [] => best
  | a :: rest => max_by_size (if decide (size best.2 < size a.2) then a else best) rest
  end.

Definition largest (areas : list (string * gset string)) : result (gset string) :=
  match areas with
  | [] => Raise ValueError
  | a :: rest => Ok (max_by_size a rest).2
  end.

(** [factors[:, i] = col]; a column of length one is broadcast. *)
Definition set_column (factors : list (list R)) (i : nat) (col : list R)
  : result (list (list R)) :=
  if decide (length col = length factors) then
    Ok (zip_with (fun row c => <[i := c]> row) factors col)
  else
    match col with
    | [c] => Ok ((fun row => <[i := c]> row) <$> factors)
    | _ => Raise ValueError
    end.

(** Lines 224-231: the largest of the unconnected areas of band [i]. *)
Definition selected_area (rs : results) (i : nat) : result (gset string) :=
  areas ← _find_unconnected_areas rs i;
  largest areas.

(** Lines 222-283: the areas and the system of band [i]. *)
Definition band_system (rs : results) (station : option string) (response : R)
  (use_sparse : bool) (Ne : nat) (Nstations : list (gmap string nat)) (i : nat)
  : result ols :=
  largest_area ← selected_area rs i;
  Nstations_i ← index Nstations i;
  build_system use_sparse Ne station response Nstations_i largest_area i (events rs).

(** Line 184: the joining of unconnected areas is switched off. *)
Definition join_unconnected : option R := None.

Definition truthy (d : option R) : bool :=
  match d with Some x => nonzero x | None => false end.

Section Align.

(** [scipy.sparse.linalg.lsmr(A, b)[0]] for the matrix with the given
    coordinate lists and shape, and [scipy.linalg.lstsq(A, b)[0]]. *)
Variable lsmr : list R -> list nat -> list nat -> nat * nat -> list R -> result (list R).
Variable lstsq : list (list R) -> list R -> result (list R).
(** [qopen.source.calculate_source_properties], which works on the
    result dictionary in place. *)
Variable calculate_source_properties : results -> results.

(** Lines 287-297. *)
Definition solve (use_sparse : bool) (Ne : nat) (s : ols) : result (list R) :=
  match use_sparse, ols_Arepr s with
  | true, SparseRepr data rows cols => lsmr data rows cols (ols_row s, Ne) (ols_b s)
  | false, DenseRepr Arows => lstsq Arows (ols_b s)
  | _, _ => Raise TypeError
  end.

(** Lines 222-298: one frequency band. *)
Definition align_band (rs : results) (station : option string) (response : R)
  (use_sparse : bool) (Ne : nat) (Nstations : list (gmap string nat))
  (factors : list (list R)) (i : nat) : result (list (list R)) :=
  s ← band_system rs station response use_sparse Ne Nstations i;
  res ← solve use_sparse Ne s;
  set_column factors i (exp <$> res).

(** Lines 189-298. *)
Definition compute_factors (rs : results) (station : option string) (response : R)
  (use_sparse : bool) : result (list (list R)) :=
  let Ne := length (events rs) in
  let use_sparse := if decide (Ne = 1) then false else use_sparse in
  Nf ← _get_number_of_freqs rs;
  range ← py_range Nf;
  Nstations ← count_events (length range) (events rs);
  foldM (align_band rs station response use_sparse Ne Nstations)
        (replicate Ne (replicate (length range) 0%R)) range.

Definition align_site_responses (rs : results) (station : option string)
  (response : R) (use_sparse : bool) : results * result unit :=
  let rs := {| events := filter (fun item => is_Some item.2) (events rs) |} in
  if truthy join_unconnected then (rs, Raise NotImplementedError) else
  match compute_factors rs station response use_sparse with
  | Raise e => (rs, Raise e)
  | Ok factors =>
      match _rescale_results rs factors with
      | (rs', Raise e) => (rs', Raise e)
      | (rs', Ok _) => (calculate_source_properties rs', Ok tt)
      end
  end.

(** A call [align_site_responses(results, ...)] with keyword arguments:
    the keywords of the signature of line 167 are bound, with their
    defaults; any other keyword is a [TypeError] and the body does not
    run. *)
Record call :=
  { call_results : results;
    call_station : option (option string);
    call_response : option R;
    call_use_sparse : option bool;
    call_other_keywords : list string }.

Definition passed_on : list string :=
  ["seismic_moment_method"; "seismic_moment_options"]%string.

Definition call_align_site_responses (c : call) : results * result unit :=
  if decide (Forall (fun kw => kw ∈ passed_on) (call_other_keywords c)) then
    align_site_responses (call_results c)
      (default None (call_station c))
      (default 1%R (call_response c))
      (default true (call_use_sparse c))
  else (call_results c, Raise TypeError).

End Align.

(** * Vocabulary of the statements *)

(** ** Accessors used in the statements *)

(** [results['events'][k]['W'][i]] for the event numbered [k] by
    [enumerate]. *)
Definition energy (rs : results) (k i : nat) : option value :=
  item ← events rs !! k; er ← item.2; res_W er !! i.

(** [results['events'][k]['R'][sta][i]] *)
Definition amplification (rs : results) (k : nat) (sta : string) (i : nat) : option value :=
  item ← events rs !! k; er ← item.2; Rsta ← dict_get (res_R er) sta; Rsta !! i.

(** *** One station, one event, one band *)

Definition rescaled_station (i : nat) (f : R) (Rsta : list value) : list value :=
  match Rsta !! i with
  | Some v => if missing v then Rsta else <[i := vmul v f]> Rsta
  | None => Rsta
  end.

(** What lines 63-72 do to an event that they leave without raising. *)
Definition band_on_event (factors : list (list R)) (i k : nat) (e : eres) : eres :=
  match res_W e !! i, factor_at factors k i with
  | Some (Num w), Ok f =>
      {| res_W := <[i := Num (w / f)]> (res_W e);
         res_R := (fun item => (item.1, rescaled_station i f item.2)) <$> res_R e |}
  | _, _ => e
  end.

(** The cell of event [k], station [sta] and band [i0]. *)
Definition cell (k : nat) (sta : string) (i0 : nat) (evs : list (string * option eres))
  : option value * option value :=
  (energy {| events := evs |} k i0, amplification {| events := evs |} k sta i0).

Definition rescaled_cell (factors : list (list R)) (k i0 : nat)
  (c : option value * option value) : option value * option value :=
  match c.1, factor_at factors k i0 with
  | Some (Num w), Ok f => (Some (Num (w / f)), (fun v => vmul v f) <$> c.2)
  | _, _ => c
  end.

(** *** Well-formed inputs: the rescaler returns *)

(** The invariant of the data model: no event is [None], and every event
    has [Nf] entries in [W] and in each station's list. *)
Definition well_formed_event (Nf : nat) (item : string * option eres) : Prop :=
  exists e, item.2 = Some e /\ length (res_W e) = Nf /\
            Forall (fun st => length st.2 = Nf) (res_R e).

Definition well_formed (rs : results) (Nf : nat) : Prop :=
  events rs <> [] /\ Forall (well_formed_event Nf) (events rs).

(** [factors] is an [Ne] by [Nf] array. *)
Definition has_shape (factors : list (list R)) (Ne Nf : nat) : Prop :=
  length factors = Ne /\ Forall (fun row => length row = Nf) factors.

Definition all_positive (factors : list (list R)) : Prop :=
  Forall (Forall (fun f => 0 < f)%R) factors.

Definition one_event (W : list value) (Rs : list (string * list value)) : results :=
  {| events := [("ev1"%string, Some {| res_W := W; res_R := Rs |})] |}.

(** ** Lists of sets *)

(** Some member of [l] includes [s]. *)
Definition covered (s : gset string) (l : list (gset string)) : Prop :=
  exists m, m ∈ l /\ s ⊆ m.

(** Members at different places of [l] have no element in common. *)
Definition pairwise_disjoint (l : list (gset string)) : Prop :=
  forall i j x y, i < j -> l !! i = Some x -> l !! j = Some y -> x ## y.

(** [x] and [y] are members of one set of [sets]; [linked] chains such
    steps. *)
Definition shares (sets : list (gset string)) (x y : string) : Prop :=
  exists s, s ∈ sets /\ x ∈ s /\ y ∈ s.

Definition linked (sets : list (gset string)) : relation string := rtc (shares sets).

(** Any two stations of [m] are linked through the sets of [sets]. *)
Definition held_together (sets : list (gset string)) (m : gset string) : Prop :=
  forall x y, x ∈ m -> y ∈ m -> linked sets x y.

(** ** Observations *)

(** Station [sta] has a site response that is a number in band [freqi] of
    the event. *)
Definition has_valid (freqi : nat) (e : eres) (sta : string) : Prop :=
  exists Rsta x, (sta, Rsta) ∈ res_R e /\ Rsta !! freqi = Some (Num x).

(** Some event has such a site response for both stations. *)
Definition co_observed (rs : results) (freqi : nat) (s t : string) : Prop :=
  exists evid e, (evid, Some e) ∈ events rs /\ has_valid freqi e s /\ has_valid freqi e t.

Definition observed (rs : results) (freqi : nat) (s : string) : Prop :=
  co_observed rs freqi s s.

(** A group of stations that common events hold together: any two of its
    stations are joined by a chain of stations, each observed in one event
    with the next. *)
Definition connected_group (rs : results) (freqi : nat) (G : gset string) : Prop :=
  forall s t, s ∈ G -> t ∈ G -> rtc (co_observed rs freqi) s t.

(** Two events: the first observes stations A and B, the second station C. *)
Definition two_groups_example : results :=
  {| events :=
       [("ev1", Some {| res_W := [Num 1]; res_R := [("A", [Num 1]); ("B", [Num 1])] |});
        ("ev2", Some {| res_W := [Num 1]; res_R := [("C", [Num 1])] |})]%string |}.

(** ** Frame conditions and contracts of the library routines *)

(** [calculate_source_properties] recomputes quantities derived from the
    source energies; it leaves the events, their [W] and their [R] as they
    are. *)
Definition keeps_events (calculate_source_properties : results -> results) : Prop :=
  forall rs, events (calculate_source_properties rs) = events rs.

(** Qhull needs three different points for a hull in the plane: with fewer,
    [scipy.spatial.ConvexHull] raises [QhullError]. *)
Definition qhull_contract (ConvexHull : list (R * R) -> result (list nat)) : Prop :=
  forall points, length (remove_dups points) < 3 -> ConvexHull points = Raise QhullError.

(** The stations of the area have fewer than three different coordinates
    among them. *)
Definition degenerate (coordinates : list (string * (R * R))) (stas : gset string) : Prop :=
  forall points,
    mapM (fun sta => of_option KeyError (dict_get coordinates sta)) (elements stas) = Ok points ->
    length (remove_dups points) < 3.

(** The event results that are not [None]. *)
Definition existing (rs : results) : results :=
  {| events := filter (fun item => is_Some item.2) (events rs) |}.

(** Solvers that always fail, for the examples in which no solver runs. *)
Definition no_lsmr (data : list R) (rows cols : list nat) (shape : nat * nat) (b : list R)
  : result (list R) := Raise LinAlgError.
Definition no_lstsq (A : list (list R)) (b : list R) : result (list R) := Raise LinAlgError.

(** A call that asks for the joining of areas within 50 km. *)
Definition bridging_call : call :=
  {| call_results := {| events := [] |};
     call_station := None; call_response := None; call_use_sparse := None;
     call_other_keywords := ["bridging_max_distance"%string] |}.

(** One event without result, one with. *)
Definition with_missing_event : results :=
  {| events := [("ev0", None);
                ("ev1", Some {| res_W := [Num 1]; res_R := [("A", [Num 1])] |})]%string |}.

(** An area of two stations, with their coordinates. *)
Definition two_station_area : list (string * gset string) := [("A", {["A"; "B"]})]%string.
Definition two_station_coordinates : list (string * (R * R)) :=
  [("A", (0, 0)); ("B", (1, 1))]%string%R.

(** Same event id, and a result if there was one. *)
Definition same_event (a b : string * option eres) : Prop :=
  a.1 = b.1 /\ (is_Some a.2 -> is_Some b.2).

(** A hull routine for the examples: it raises for fewer than three
    different points and returns every index otherwise. *)
Definition all_points_hull (points : list (R * R)) : result (list nat) :=
  if decide (length (remove_dups points) < 3) then Raise QhullError
  else Ok (seq 0 (length points)).

(** ** Linear systems *)

(** [x[k]], zero outside the vector. *)
Definition at_ (x : list R) (k : nat) : R := default 0%R (x !! k).

(** The sum of the coefficients of [coldata], each times [g] of its
    column. *)
Definition lin (coldata : list (nat * R)) (g : nat -> R) : R :=
  foldr (fun cd acc => cd.2 * g cd.1 + acc)%R 0%R coldata.

(** The row with the coefficients [coldata], applied to [x]. *)
Definition row_sum (coldata : list (nat * R)) (x : list R) : R := lin coldata (at_ x).

Definition dot (Arow x : list R) : R :=
  foldr Rplus 0%R (zip_with Rmult Arow x).

(** The entries of row [j] of a matrix in coordinate format, applied to
    [x]; entries at the same place add up, as in [csr_matrix]. *)
Definition sparse_row_value (entries : list (R * (nat * nat))) (j : nat) (x : list R) : R :=
  foldr (fun en acc => if decide (en.2.1 = j) then en.1 * at_ x en.2.2 + acc else acc)%R
        0%R entries.

(** Row [j] of the matrix, applied to [x]. *)
Definition row_value (A : matrix_repr) (j : nat) (x : list R) : R :=
  match A with
  | SparseRepr data rows cols => sparse_row_value (zip data (zip rows cols)) j x
  | DenseRepr Arows => dot (default [] (Arows !! j)) x
  end.

(** [x] satisfies every equation of the system. *)
Definition solves (s : ols) (x : list R) : Prop :=
  forall j bj, ols_b s !! j = Some bj -> row_value (ols_Arepr s) j x = bj.

(** The sum of the squared residuals, and the least-squares solutions among
    the vectors of the same length. *)
Definition residual (s : ols) (x : list R) : R :=
  foldr Rplus 0%R
    (imap (fun j bj => (row_value (ols_Arepr s) j x - bj) * (row_value (ols_Arepr s) j x - bj))%R
          (ols_b s)).

Definition least_squares (s : ols) (x : list R) : Prop :=
  forall y, length y = length x -> (residual s x <= residual s y)%R.

(** The system has the equation [coldata . x = b_val]. *)
Definition has_row (s : ols) (coldata : list (nat * R)) (b_val : R) : Prop :=
  exists j, ols_b s !! j = Some b_val /\
            forall x, row_value (ols_Arepr s) j x = row_sum coldata x.

(** [b], [row[0]] and [Arepr] agree on the number of rows. *)
Definition ols_wf (s : ols) : Prop :=
  length (ols_b s) = ols_row s /\
  match ols_Arepr s with
  | SparseRepr data rows cols =>
      length rows = length data /\ length cols = length data /\
      Forall (fun r => r < ols_row s) rows
  | DenseRepr Arows => length Arows = ols_row s
  end.

(** ** Observations of a frequency band *)

(** A site response that is a number: the number of its event, its station
    and its value. *)
Record observation := { obs_event : nat; obs_station : string; obs_value : R }.

Fixpoint station_observations (i k : nat) (Rs : list (string * list value))
  : list observation :=
  match Rs with
  | [] => []
  | (sta, Rsta) :: rest =>
      match Rsta !! i with
      | Some (Num x) =>
          {| obs_event := k; obs_station := sta; obs_value := x |}
            :: station_observations i k rest
      | _ => station_observations i k rest
      end
  end.

Fixpoint event_observations (i k : nat) (evs : list (string * option eres))
  : list observation :=
  match evs with
  | [] => []
  | item :: rest =>
      station_observations i k (default [] (res_R <$> item.2))
        ++ event_observations i (S k) rest
  end.

(** The observations of band [i], in the order in which the loops of lines
    244-246 meet them, and those of the stations of [area]. *)
Definition valid_observations (i : nat) (rs : results) : list observation :=
  event_observations i 0 (events rs).

Definition observations (i : nat) (area : gset string) (rs : results) : list observation :=
  filter (fun o => obs_station o ∈ area) (valid_observations i rs).

(** Lines 252-279 for one observation. *)
Definition observe_one (use_sparse : bool) (Ne : nat) (station : option string)
  (response : R) (Nstations_i : gmap string nat) (s : build_state) (o : observation)
  : result build_state :=
  s' ← normalize station Nstations_i (obs_event o) (obs_station o) (obs_value o) s;
  add_pair use_sparse Ne station response (obs_event o) (obs_station o) (obs_value o) s'.

(** The weight of an observation of station [sta] in the normalization
    row (line 255). *)
Definition weight (Nstations_i : gmap string nat) (sta : string) : R :=
  (1 / INR (default 0%nat (Nstations_i !! sta)) / INR (size Nstations_i))%R.

(** The sum of [f] over a list. *)
Definition rsum {A} (f : A -> R) (l : list A) : R :=
  foldr (fun a acc => f a + acc)%R 0%R l.

(** [N[sta] += 1] for each station of the list. *)
Definition tally (stas : list string) (N : gmap string nat) : gmap string nat :=
  foldl (fun N sta => <[sta := S (default 0 (N !! sta))]> N) N stas.

(** ** Exact solutions *)

(** Whenever a solver returns a vector for the system of a band of this
    run, the vector has one entry per event and satisfies every equation of
    the system. This is what a least-squares solver returns when the system
    has a solution. *)
Definition exact_on
  (lsmr : list R -> list nat -> list nat -> nat * nat -> list R -> result (list R))
  (lstsq : list (list R) -> list R -> result (list R))
  (rs : results) (station : option string) (response : R) (use_sparse : bool) : Prop :=
  let Ne := length (events rs) in
  let use_sparse := if decide (Ne = 1) then false else use_sparse in
  forall Nf Nstations i s x,
    _get_number_of_freqs rs = Ok (Some Nf) ->
    count_events Nf (events rs) = Ok Nstations ->
    band_system rs station response use_sparse Ne Nstations i = Ok s ->
    solve lsmr lstsq use_sparse Ne s = Ok x ->
    solves s x /\ length x = Ne.

(** ** Examples for the alignment *)

(** A dense solver for the examples: it answers the right-hand side, which
    solves the systems whose matrix is the identity. *)
Definition rhs_lstsq (A : list (list R)) (b : list R) : result (list R) := Ok b.

(** One event with a source energy, in which station S has the site
    response 2; and the same event without source energy. *)
Definition pinned_example : results := one_event [Num 4] [("S"%string, [Num 2])].
Definition no_energy_example : results := one_event [PyNone] [("S"%string, [Num 2])].

(** The site response of station [sta] in event [k] and band [i], when it
    is a number. *)
Definition amp_value (rs : results) (k : nat) (sta : string) (i : nat) : R :=
  match amplification rs k sta i with Some (Num a) => a | _ => 0%R end.

(** The stations of an event are the keys of a dictionary: none occurs
    twice. *)
Definition unique_stations (rs : results) : Prop :=
  Forall (fun item => forall e, item.2 = Some e -> NoDup (res_R e).*1) (events rs).

(** The number of observations of station [sta] in a list. *)
Definition times_observed (sta : string) (obs : list observation) : nat :=
  length (filter (fun o => obs_station o = sta) obs).

(** The counts of the example with two groups: one observation of each of
    its three stations. *)
Definition two_groups_counts : gmap string nat :=
  {["A" := 1; "B" := 1; "C" := 1]}%string.

(** ** Vocabulary of the further properties *)

(** The layout of a result dictionary: the event ids, the station names
    in their order, and for each entry of [W] and of a site response
    whether it is missing ([None] or NaN). *)
Definition layout_eres (e : eres) : list bool * list (string * list bool) :=
  (missing <$> res_W e,
   (fun st : string * list value => (st.1, missing <$> st.2)) <$> res_R e).

Definition layout (rs : results)
  : list (string * option (list bool * list (string * list bool))) :=
  (fun item : string * option eres => (item.1, layout_eres <$> item.2)) <$> events rs.

(** The array of the entrywise products of two arrays of factors. *)
Definition factor_products (F G : list (list R)) : list (list R) :=
  zip_with (zip_with Rmult) F G.

(** An array of nonzero factors. *)
Definition all_nonzero (factors : list (list R)) : Prop :=
  Forall (Forall (fun f => f <> 0%R)) factors.

(** Two events whose [W] differ in length. *)
Definition mismatched_example : results :=
  {| events :=
       [("ev1", Some {| res_W := [Num 1]; res_R := [] |});
        ("ev2", Some {| res_W := [Num 1; Num 1]; res_R := [] |})]%string |}.

(** The entrywise inverses of an array of factors. *)
Definition factor_inverses (F : list (list R)) : list (list R) :=
  (fun row : list R => Rinv <$> row) <$> F.

(** One event, two bands, two stations; the second station has no site
    response in the second band. *)
Definition two_band_example : results :=
  one_event [Num 4; Num 9] [("A", [Num 2; Num 3]); ("B", [Num 5; NaN])]%string.

(** Three areas; the second and the third are the largest. *)
Definition three_areas_example : list (string * gset string) :=
  [("A", {["A"]}); ("B", {["B"; "C"]}); ("D", {["D"; "E"]})]%string.

(** ** Inventories *)

(** The stations of an inventory with their networks, in the order of the
    loops of lines 38-39. *)
Definition inventory_stations (inv : inventory) : list (network * station_meta) :=
  net ← networks inv; (fun sta => (net, sta)) <$> stations net.

(** ['%s.%s' % (net.code, sta.code)] *)
Definition station_key (net : network) (sta : station_meta) : string :=
  (net_code net +:+ "." +:+ sta_code sta)%string.

(** [c or s] on floats. *)
Definition preferred (c s : R) : R := if nonzero c then c else s.

(** A network with two stations: the channel of the first has coordinates
    of its own, the channel of the second has the latitude 0. *)
Definition inventory_example : inventory :=
  {| networks :=
       [ {| net_code := "XX";
            stations :=
              [ {| sta_code := "A"; sta_latitude := 1; sta_longitude := 2;
                   channels := [ {| cha_latitude := 3; cha_longitude := 4 |} ] |};
                {| sta_code := "B"; sta_latitude := 5; sta_longitude := 6;
                   channels := [ {| cha_latitude := 0; cha_longitude := 7 |} ] |} ] |} ] |}%R.

(** A hull routine for the examples that answers every point. *)
Definition every_point (points : list (R * R)) : result (list nat) :=
  Ok (seq 0 (length points)).

(** The joining of lines 124-164 left out, for the examples that do not
    reach it. *)
Definition no_join (areas hulls : list (string * gset string)) (max_distance : R)
  (coordinates : list (string * (R * R)))
  : result (list (string * gset string) * list (string * string)) :=
  Ok (areas, []).

(** Coordinates for station A only. *)
Definition one_station_coordinates : list (string * (R * R)) := [("A", (0, 0))]%string%R.

(** A result dictionary whose only event has no result. *)
Definition no_result_example : results := {| events := [("ev0"%string, None)] |}.

(** One event whose only station has no site response in the only band. *)
Definition no_observation_example : results :=
  one_event [Num 4] [("S"%string, [PyNone])].

(** ** Pairs of observations of a station *)

(** A later observation of the same station belongs to a later event. *)
Definition before (o o' : observation) : Prop :=
  obs_station o = obs_station o' -> obs_event o < obs_event o'.

Fixpoint ordered_observations (obs : list observation) : Prop :=
  match obs with
  | [] => True
  | o :: rest => Forall (before o) rest /\ ordered_observations rest
  end.

(** The state of the loop of lines 244-279 after the observations [seen]:
    [last] holds an observation that was seen, and every solution of the
    equations built so far gives all the seen observations of a station that
    is not pinned the same value of [ln Rsta + x[k]], the one of [last]. *)
Definition chained (station : option string) (s : build_state) (seen : list observation)
  : Prop :=
  ols_wf (bs_ols s) /\
  (forall sta kl xl, bs_last s !! sta = Some (kl, xl) ->
     exists o, o ∈ seen /\ obs_station o = sta /\ obs_event o = kl /\ obs_value o = xl) /\
  (forall x, solves (bs_ols s) x ->
     forall o, o ∈ seen -> Some (obs_station o) <> station ->
       exists kl xl, bs_last s !! obs_station o = Some (kl, xl) /\
         (at_ x (obs_event o) + ln (obs_value o) = at_ x kl + ln xl)%R).

(** Two events that both observe station A, with different site
    responses, and a dense solver that answers the solution of their
    system of two equations. *)
Definition shared_station_example : results :=
  {| events :=
       [("ev1", Some {| res_W := [Num 1]; res_R := [("A", [Num 2])] |});
        ("ev2", Some {| res_W := [Num 1]; res_R := [("A", [Num 8])] |})]%string |}.

Definition shared_station_lstsq (A : list (list R)) (b : list R) : result (list R) :=
  Ok [(- ln 2); (- ln 8)]%R.

(** ** The two representations of a system *)

(** Two systems with the same right-hand sides and the same rows. *)
Definition same_system (o1 o2 : ols) : Prop :=
  ols_wf o1 /\ ols_wf o2 /\ ols_b o1 = ols_b o2 /\ ols_row o1 = ols_row o2 /\
  forall j x, j < ols_row o1 -> row_value (ols_Arepr o1) j x = row_value (ols_Arepr o2) j x.

(** Two states of the loop of lines 244-279 that differ in the
    representation of the system only. *)
Definition same_state (s1 s2 : build_state) : Prop :=
  same_system (bs_ols s1) (bs_ols s2) /\
  norm_row_A s1 = norm_row_A s2 /\ norm_row_b s1 = norm_row_b s2 /\
  bs_first s1 = bs_first s2 /\ bs_last s1 = bs_last s2.

(** The counts of the example with a shared station: station A is
    observed twice. *)
Definition shared_station_counts : gmap string nat := {["A"%string := 2]}.

(** ** Area bridger: distances and joining (lines 124-164) *)

(** [del d[k]]: the entry of the key is removed. *)
Fixpoint dict_del {K V} `{EqDecision K} (d : list (K * V)) (k : K) : list (K * V) :=
  match d with
  | [] => []
  | (k', v') :: rest => if decide (k' = k) then rest else (k', v') :: dict_del rest k
  end.

(** [x < y] on floats. *)
Definition Rltb (x y : R) : bool := if Rlt_dec x y then true else false.

(** [<] on the values of [distance]: tuples [(dist, (sta1, sta2))] are
    compared entry by entry, strings by their characters. *)
Definition names_ltb (p q : string * string) : bool :=
  if decide (p.1 = q.1) then String.ltb p.2 q.2 else String.ltb p.1 q.1.

Definition entry_ltb (x y : R * (string * string)) : bool :=
  if decide (x.1 = y.1) then names_ltb x.2 y.2 else Rltb x.1 y.1.

(** [min(d, key=d.get)]: the first key of the dictionary whose value is
    not above any other; a [ValueError] on an empty dictionary. *)
Fixpoint min_by {K V} (ltb : V -> V -> bool) (best : K * V) (d : list (K * V)) : K * V :=
  match d with
  | [] => best
  | kv :: rest => min_by ltb (if ltb kv.2 best.2 then kv else best) rest
  end.

Definition py_min {K V} (ltb : V -> V -> bool) (d : list (K * V)) : result (K * V) :=
  match d with
  | [] => Raise ValueError
  | kv :: rest => Ok (min_by ltb kv rest)
  end.

(** [frozenset((a1, a2))] *)
Definition pair_name (a1 a2 : string) : gset string := {[a1; a2]}.

(** The dictionaries of the joining: [areas], [hulls], [distance] and
    [near_stations]. *)
Record join_state :=
  { js_areas : list (string * gset string);
    js_hulls : list (string * gset string);
    js_distance : list (gset string * (R * (string * string)));
    js_near : list (string * string) }.

Definition inspect {A} (a : A) : {b | a = b} := exist _ a eq_refl.

Section Joiner.

(** [obspy.geodetics.gps2dist_azimuth(lat1, lon1, lat2, lon2)[0]]: the
    distance in metres, or the error that the routine raises. *)
Variable gps2dist_azimuth : R -> R -> R -> R -> result R.

(** Lines 134-135. *)
Definition station_distance (coordinates : list (string * (R * R))) (sta1 sta2 : string)
  : result R :=
  c1 ← of_option KeyError (dict_get coordinates sta1);
  c2 ← of_option KeyError (dict_get coordinates sta2);
  gps2dist_azimuth c1.1 c1.2 c2.1 c2.2.

(** Lines 131-136: the distances between the stations of the hull [h1]
    and those of the hull of [a2], which is looked up once for each station
    of [h1]. The sets are gone through in the order of [elements]. *)
Definition hull_distances (coordinates : list (string * (R * R)))
  (hulls : list (string * gset string)) (h1 : gset string) (a2 : string)
  : result (list ((string * string) * R)) :=
  foldM (fun dists sta1 =>
           h2 ← of_option KeyError (dict_get hulls a2);
           foldM (fun dists sta2 =>
                    dist ← station_distance coordinates sta1 sta2;
                    Ok (dict_set dists (sta1, sta2) dist))
                 dists (elements h2))
        [] (elements h1).

(** Lines 128-138 for the areas [a1] and [a2]. *)
Definition area_distance (coordinates : list (string * (R * R)))
  (hulls : list (string * gset string))
  (distance : list (gset string * (R * (string * string)))) (a1 a2 : string)
  : result (list (gset string * (R * (string * string)))) :=
  let name := pair_name a1 a2 in
  if decide (is_Some (dict_get distance name) \/ a1 = a2) then Ok distance else
  h1 ← of_option KeyError (dict_get hulls a1);
  dists ← hull_distances coordinates hulls h1 a2;
  mink ← py_min Rltb dists;
  Ok (dict_set distance name ((mink.2 / 1000)%R, mink.1)).

(** Lines 125-138. *)
Definition distances (coordinates : list (string * (R * R)))
  (areas hulls : list (string * gset string))
  : result (list (gset string * (R * (string * string)))) :=
  foldM (fun distance a1 => foldM (fun distance a2 => area_distance coordinates hulls distance a1 a2)
                                  distance areas.*1)
        [] areas.*1.

End Joiner.

(** Lines 155-163 for the area [a3]. *)
Definition rejoin (a1 a2 : string)
  (distance : list (gset string * (R * (string * string)))) (a3 : string)
  : result (list (gset string * (R * (string * string)))) :=
  if decide (a3 = a1 \/ a3 = a2) then Ok distance else
  dist1 ← of_option KeyError (dict_get distance (pair_name a1 a3));
  dist2 ← of_option KeyError (dict_get distance (pair_name a2 a3));
  let distance := dict_del distance (pair_name a2 a3) in
  Ok (if Rltb dist2.1 dist1.1 then dict_set distance (pair_name a1 a3) dist2 else distance).

(** [d[a1] |= d.pop(a2)] on a dictionary of sets. *)
Definition absorb (d : list (string * gset string)) (a1 a2 : string)
  : result (list (string * gset string)) :=
  v1 ← of_option KeyError (dict_get d a1);
  v2 ← of_option KeyError (dict_get d a2);
  Ok (dict_set (dict_del d a2) a1 (v1 ∪ v2)).

(** One round of the [while] loop of lines 141-163: [None] when the loop
    ends, at an empty [distance] or at the [break]. The two names of the
    nearest pair come in the order of [elements]. *)
Definition join_step (max_distance : R) (st : join_state) : result (option join_state) :=
  match js_distance st with
  | [] => Ok None
  | first :: rest =>
      let nearest_pair := min_by entry_ltb first rest in
      let dist := nearest_pair.2.1 in
      if Rltb max_distance dist then Ok None else
      let s1 := nearest_pair.2.2.1 in
      let s2 := nearest_pair.2.2.2 in
      let near_stations := dict_set (dict_set (js_near st) s1 s2) s2 s1 in
      match elements nearest_pair.1 with
      | [a1; a2] =>
          let distance := dict_del (js_distance st) nearest_pair.1 in
          areas ← absorb (js_areas st) a1 a2;
          hulls ← absorb (js_hulls st) a1 a2;
          distance ← foldM (rejoin a1 a2) distance areas.*1;
          Ok (Some {| js_areas := areas; js_hulls := hulls; js_distance := distance;
                      js_near := near_stations |})
      | _ => Raise ValueError
      end
  end.

(** A round of the loop leaves fewer entries in [distance]. *)
Lemma dict_del_length {K V} `{EqDecision K} (d : list (K * V)) k :
  length (dict_del d k) <= length d /\
  (is_Some (dict_get d k) -> S (length (dict_del d k)) = length d).
Proof.
  induction d as [|[k' v'] d IH]; simpl.
  { split; [lia|]. by intros [? ?]. }
  case_decide; simpl; [lia|]. destruct IH as [IH1 IH2]. split; [lia|].
  intros Hsome. specialize (IH2 Hsome). lia.
Qed.

Lemma dict_set_length {K V} `{EqDecision K} (d : list (K * V)) k v :
  length (dict_set d k v) <= S (length d) /\
  (is_Some (dict_get d k) -> length (dict_set d k v) = length d).
Proof.
  induction d as [|[k' v'] d IH]; simpl.
  { split; [lia|]. by intros [? ?]. }
  case_decide; simpl; [lia|]. destruct IH as [IH1 IH2]. split; [lia|].
  intros Hsome. specialize (IH2 Hsome). lia.
Qed.

Lemma dict_get_dict_del_ne {K V} `{EqDecision K} (d : list (K * V)) k k' :
  k <> k' -> dict_get (dict_del d k) k' = dict_get d k'.
Proof.
  intros Hne. induction d as [|[k0 v0] d IH]; simpl; [done|].
  destruct (decide (k0 = k)) as [->|Hk]; simpl.
  - by rewrite decide_False.
  - case_decide; [done|apply IH].
Qed.

Lemma rejoin_length a1 a2 distance a3 distance' :
  rejoin a1 a2 distance a3 = Ok distance' -> length distance' <= length distance.
Proof.
  unfold rejoin. case_decide; [by intros [= <-]|].
  destruct (dict_get distance (pair_name a1 a3)) as [dist1|] eqn:H1; simpl; [|done].
  destruct (dict_get distance (pair_name a2 a3)) as [dist2|] eqn:H2; simpl; [|done].
  intros [= <-].
  destruct (dict_del_length distance (pair_name a2 a3)) as [Hle Hdel].
  specialize (Hdel (ex_intro _ _ H2)).
  destruct (Rltb dist2.1 dist1.1); [|lia].
  destruct (dict_set_length (dict_del distance (pair_name a2 a3)) (pair_name a1 a3) dist2)
    as [Hset _]. lia.
Qed.

Lemma min_by_elem {K V} (ltb : V -> V -> bool) (best : K * V) d :
  min_by ltb best d ∈ best :: d.
Proof.
  revert best; induction d as [|kv d IH]; intros best; simpl; [by left|].
  specialize (IH (if ltb kv.2 best.2 then kv else best)).
  apply elem_of_cons in IH as [->|?].
  - destruct (ltb kv.2 best.2); [right; by left|by left].
  - right. by right.
Qed.

Lemma dict_get_elem_is_Some {K V} `{EqDecision K} (d : list (K * V)) kv :
  kv ∈ d -> is_Some (dict_get d kv.1).
Proof.
  induction d as [|[k0 v0] d IH]; simpl; [by intros ?%elem_of_nil|].
  intros [->|Hin]%elem_of_cons; simpl.
  - rewrite decide_True by done. by eexists.
  - case_decide; [by eexists|by apply IH].
Qed.

Lemma join_step_shrinks max_distance st st' :
  join_step max_distance st = Ok (Some st') ->
  length (js_distance st') < length (js_distance st).
Proof.
  unfold join_step. destruct (js_distance st) as [|first rest] eqn:Hd; [done|].
  destruct (Rltb _ _); [done|].
  destruct (elements _) as [|a1 [|a2 [|]]]; try done.
  destruct (absorb (js_areas st) a1 a2) as [areas|]; simpl; [|done].
  destruct (absorb (js_hulls st) a1 a2) as [hulls|]; simpl; [|done].
  destruct (foldM _ _ _) as [distance|] eqn:Hfold; simpl; [|done].
  intros [= <-]. simpl.
  assert (forall l d0 d1, foldM (rejoin a1 a2) d0 l = Ok d1 -> length d1 <= length d0) as Hle.
  { induction l as [|a3 l IH]; intros d0 d1; simpl; [by intros [= <-]|].
    destruct (rejoin a1 a2 d0 a3) as [d2|] eqn:Hr; simpl; [|done].
    intros H. apply IH in H. apply rejoin_length in Hr. lia. }
  apply Hle in Hfold.
  destruct (dict_del_length (first :: rest) (min_by entry_ltb first rest).1) as [_ Hdel].
  specialize (Hdel (dict_get_elem_is_Some _ _ (min_by_elem entry_ltb first rest))).
  simpl in *. lia.
Qed.

(** The [while] loop of lines 141-163. *)
Equations? join_loop (max_distance : R) (st : join_state)
  : result join_state by wf (length (js_distance st)) lt :=
  join_loop max_distance st with inspect (join_step max_distance st) => {
    | exist _ (Raise e) _ := Raise e
    | exist _ (Ok None) _ := Ok st
    | exist _ (Ok (Some st')) H := join_loop max_distance st' }.
Proof. by eapply join_step_shrinks. Qed.

(** Lines 124-164: the distances between the areas and their joining. *)
Definition join_by_distance (gps2dist_azimuth : R -> R -> R -> R -> result R)
  (areas hulls : list (string * gset string)) (max_distance : R)
  (coordinates : list (string * (R * R)))
  : result (list (string * gset string) * list (string * string)) :=
  distance ← distances gps2dist_azimuth coordinates areas hulls;
  st ← join_loop max_distance
         {| js_areas := areas; js_hulls := hulls; js_distance := distance; js_near := [] |};
  Ok (js_areas st, js_near st).

(** Two areas of one station each, which are their own hulls, and a
    distance routine that answers 500 m for every pair of points. *)
Definition single_station_areas : list (string * gset string) :=
  [("A", {["A"]}); ("B", {["B"]})]%string.

Definition half_kilometre (lat1 lon1 lat2 lon2 : R) : result R := Ok 500%R.

(** Coordinates for three stations, and an area with the three. *)
Definition three_station_coordinates : list (string * (R * R)) :=
  [("N.A", (1, 1)); ("N.B", (2, 1)); ("N.C", (1, 2))]%string%R.

Definition three_station_inventory : inventory :=
  {| networks :=
       [ {| net_code := "N";
            stations :=
              [ {| sta_code := "A"; sta_latitude := 1; sta_longitude := 1;
                   channels := [ {| cha_latitude := 1; cha_longitude := 1 |} ] |};
                {| sta_code := "B"; sta_latitude := 2; sta_longitude := 1;
                   channels := [ {| cha_latitude := 2; cha_longitude := 1 |} ] |};
                {| sta_code := "C"; sta_latitude := 1; sta_longitude := 2;
                   channels := [ {| cha_latitude := 1; cha_longitude := 2 |} ] |} ] |} ] |}%R.

Definition three_station_area : list (string * gset string) :=
  [("N.A", {["N.A"; "N.B"; "N.C"]})]%string.

(** ** When the alignment returns *)

(** The representation of the system is the one of the flag. *)
Definition repr_matches (use_sparse : bool) (o : ols) : Prop :=
  match use_sparse, ols_Arepr o with
  | true, SparseRepr _ _ _ => True
  | false, DenseRepr _ => True
  | _, _ => False
  end.

(** A state of the loop of lines 244-279 from which no step fails: the
    events that [last] and [norm_row_A] name are among the [Ne] events. *)
Definition builder_ready (use_sparse : bool) (Ne : nat) (s : build_state) : Prop :=
  repr_matches use_sparse (bs_ols s) /\
  (forall sta kl xl, bs_last s !! sta = Some (kl, xl) -> kl < Ne) /\
  Forall (fun cd => cd.1 < Ne) (norm_row_A s).

(** A sparse solver for the examples that answers the zero vector. *)
Definition zero_lsmr (data : list R) (rows cols : list nat) (shape : nat * nat) (b : list R)
  : result (list R) := Ok (replicate shape.2 0%R).

(** * The rescaler *)

Lemma update_each_lookup {A} (step : nat -> A -> A * result unit) k l l' n a :
  update_each step k l = (l', Ok tt) -> l !! n = Some a ->
  exists a', l' !! n = Some a' /\ step (k + n) a = (a', Ok tt).
Proof.
  revert k l' n; induction l as [|x l IH]; intros k l' n; simpl; [done|].
  destruct (step k x) as [x' [[]|e]] eqn:Hx; [|done].
  destruct (update_each step (S k) l) as [rest' o] eqn:Hrest.
  intros [= <- ->] Hn. destruct n as [|n]; simpl in *.
  - injection Hn as ->. exists x'. by rewrite Nat.add_0_r.
  - destruct (IH _ _ _ Hrest Hn) as (a' & ? & ?). exists a'.
    by rewrite Nat.add_succ_r.
Qed.

Lemma update_each_length {A} (step : nat -> A -> A * result unit) k l l' o :
  update_each step k l = (l', o) -> length l' = length l.
Proof.
  revert k l' o; induction l as [|x l IH]; intros k l' o; simpl; [by intros [= <- _]|].
  destruct (step k x) as [x' [[]|e]] eqn:Hx.
  - destruct (update_each step (S k) l) as [rest' o'] eqn:Hrest.
    intros [= <- _]. simpl. f_equal. eauto.
  - by intros [= <- _].
Qed.

Lemma rescale_stations_get i f Rs Rs' sta :
  update_each (fun _ => rescale_station i f) 0 Rs = (Rs', Ok tt) ->
  dict_get Rs' sta = rescaled_station i f <$> dict_get Rs sta.
Proof.
  generalize 0. revert Rs'; induction Rs as [|[s l] Rs IH]; intros Rs' k; simpl.
  { by intros [= <-]. }
  unfold rescaled_station at 1.
  destruct (l !! i) as [v|] eqn:Hv; [|done].
  destruct (update_each _ (S k) Rs) as [rest' o] eqn:Hrest.
  destruct (missing v) eqn:Hm; intros [= <- ->]; simpl;
    case_decide; simpl; eauto; unfold rescaled_station; by rewrite Hv, Hm.
Qed.

Lemma rescaled_station_lookup i f Rsta j :
  rescaled_station i f Rsta !! j =
  if decide (i = j) then (fun v => vmul v f) <$> Rsta !! j else Rsta !! j.
Proof.
  unfold rescaled_station. case_decide as Hij.
  - subst j. destruct (Rsta !! i) as [v|] eqn:Hv; [|by rewrite Hv].
    destruct (missing v) eqn:Hm.
    + rewrite Hv. simpl. by destruct v.
    + rewrite list_lookup_insert_eq; [done|]. by eapply lookup_lt_Some.
  - destruct (Rsta !! i) as [v|]; [|done].
    destruct (missing v); [done|]. by rewrite list_lookup_insert_ne.
Qed.

Lemma rescale_stations_fmap i f Rs Rs' :
  update_each (fun _ => rescale_station i f) 0 Rs = (Rs', Ok tt) ->
  Rs' = (fun item => (item.1, rescaled_station i f item.2)) <$> Rs.
Proof.
  generalize 0. revert Rs'; induction Rs as [|[s l] Rs IH]; intros Rs' k; simpl.
  { by intros [= <-]. }
  unfold rescaled_station at 1.
  destruct (l !! i) as [v|] eqn:Hv; [|done].
  destruct (update_each _ (S k) Rs) as [rest' o] eqn:Hrest.
  destruct (missing v) eqn:Hm; intros [= <- ->]; simpl;
    rewrite (IH _ _ Hrest); reflexivity.
Qed.

Lemma rescale_event_Ok factors i k item item' :
  rescale_event factors i k item = (item', Ok tt) ->
  exists e, item.2 = Some e /\ item' = (item.1, Some (band_on_event factors i k e)).
Proof.
  destruct item as [evid [e|]]; simpl; [|done].
  intros H. exists e. split; [done|]. revert H. unfold band_on_event.
  destruct (res_W e !! i) as [w|] eqn:Hw; [|done].
  destruct w as [| |x]; simpl; try by intros [= <-].
  destruct (factor_at factors k i) as [f|]; [|done].
  destruct (update_each _ 0 (res_R e)) as [R' o] eqn:HR.
  intros [= <- ->]. by rewrite (rescale_stations_fmap _ _ _ _ HR).
Qed.

Lemma dict_get_fmap {K V} `{EqDecision K} (g : V -> V) (d : list (K * V)) k :
  dict_get ((fun item => (item.1, g item.2)) <$> d) k = g <$> dict_get d k.
Proof.
  induction d as [|[k' v] d IH]; simpl; [done|]. case_decide; [done|apply IH].
Qed.

Lemma band_on_event_cell factors i k e i0 sta :
  (res_W (band_on_event factors i k e) !! i0,
   dict_get (res_R (band_on_event factors i k e)) sta ≫= (.!! i0)) =
  if decide (i = i0)
  then rescaled_cell factors k i0 (res_W e !! i0, dict_get (res_R e) sta ≫= (.!! i0))
  else (res_W e !! i0, dict_get (res_R e) sta ≫= (.!! i0)).
Proof.
  unfold band_on_event, rescaled_cell. simpl.
  destruct (res_W e !! i) as [w|] eqn:Hw; [|by case_decide; subst; rewrite ?Hw].
  destruct (factor_at factors k i) as [f|] eqn:Hf;
    [|by destruct w; case_decide; subst; rewrite ?Hw, ?Hf].
  destruct w as [| |w]; try (by case_decide; subst; rewrite ?Hw, ?Hf).
  simpl. rewrite dict_get_fmap.
  case_decide as Hi.
  - subst i0. rewrite Hw, Hf.
    rewrite list_lookup_insert_eq by (by eapply lookup_lt_Some).
    f_equal. destruct (dict_get (res_R e) sta) as [l|]; simpl; [|done].
    rewrite rescaled_station_lookup. by rewrite decide_True.
  - rewrite list_lookup_insert_ne by done. f_equal.
    destruct (dict_get (res_R e) sta) as [l|]; simpl; [|done].
    rewrite rescaled_station_lookup. by rewrite decide_False.
Qed.

Lemma rescale_band_cell factors i evs evs' k sta i0 :
  rescale_band factors i evs = (evs', Ok tt) ->
  cell k sta i0 evs' =
  if decide (i = i0) then rescaled_cell factors k i0 (cell k sta i0 evs)
  else cell k sta i0 evs.
Proof.
  intros H. unfold cell, energy, amplification; simpl.
  destruct (evs !! k) as [item|] eqn:Hk.
  - destruct (update_each_lookup _ _ _ _ _ _ H Hk) as (item' & Hk' & Hstep).
    rewrite Hk'. simpl in *.
    apply rescale_event_Ok in Hstep as (e & He & ->). simpl. rewrite He. simpl.
    apply (band_on_event_cell factors i k e i0 sta).
  - assert (evs' !! k = None) as ->.
    { apply lookup_ge_None. apply lookup_ge_None in Hk.
      by rewrite (update_each_length _ _ _ _ _ H). }
    simpl. by case_decide.
Qed.

Lemma for_range_cell factors range evs evs' k sta i0 :
  NoDup range ->
  for_range (rescale_band factors) range evs = (evs', Ok tt) ->
  cell k sta i0 evs' =
  if decide (i0 ∈ range) then rescaled_cell factors k i0 (cell k sta i0 evs)
  else cell k sta i0 evs.
Proof.
  revert evs. induction range as [|i range IH]; intros evs Hnd.
  { intros [= <-]. case_decide; [set_solver|done]. }
  simpl. destruct (rescale_band factors i evs) as [evs1 [[]|e]] eqn:Hb; [|done].
  intros H. apply NoDup_cons in Hnd as [Hi Hnd].
  rewrite (IH _ Hnd H), (rescale_band_cell _ _ _ _ k sta i0 Hb).
  repeat case_decide; subst; try done; set_solver.
Qed.

Lemma update_each_total {A} (step : nat -> A -> A * result unit) k l :
  (forall n a, l !! n = Some a -> exists a', step (k + n) a = (a', Ok tt)) ->
  exists l', update_each step k l = (l', Ok tt).
Proof.
  revert k; induction l as [|x l IH]; intros k Hstep; simpl; [by eexists|].
  destruct (Hstep 0 x eq_refl) as [x' Hx]. rewrite Nat.add_0_r in Hx. rewrite Hx.
  destruct (IH (S k)) as [l' Hl'].
  { intros n a Hn. destruct (Hstep (S n) a Hn) as [a' Ha].
    exists a'. by rewrite Nat.add_succ_r in Ha. }
  rewrite Hl'. by eexists.
Qed.

Lemma factor_at_shape factors Ne Nf k i :
  has_shape factors Ne Nf -> k < Ne -> i < Nf -> exists f, factor_at factors k i = Ok f.
Proof.
  intros [Hlen Hrows] Hk Hi. unfold factor_at, index.
  destruct (lookup_lt_is_Some_2 factors k) as [row Hrow]; [lia|].
  rewrite Hrow. simpl.
  assert (length row = Nf) as Hr.
  { rewrite Forall_forall in Hrows. apply Hrows. by eapply list_elem_of_lookup_2. }
  destruct (lookup_lt_is_Some_2 row i) as [f Hf]; [lia|].
  rewrite Hf. by exists f.
Qed.

Lemma rescale_station_total i f Nf st :
  length st.2 = Nf -> i < Nf -> exists st', rescale_station i f st = (st', Ok tt).
Proof.
  destruct st as [sta Rsta]; simpl. intros Hlen Hi.
  destruct (lookup_lt_is_Some_2 Rsta i) as [v Hv]; [lia|]. rewrite Hv.
  destruct (missing v); by eexists.
Qed.

Lemma rescale_event_total factors Ne Nf i k item :
  has_shape factors Ne Nf -> well_formed_event Nf item -> k < Ne -> i < Nf ->
  exists item', rescale_event factors i k item = (item', Ok tt).
Proof.
  intros Hshape (e & He & HW & HR) Hk Hi. destruct item as [evid o]; simpl in *. subst o.
  destruct (lookup_lt_is_Some_2 (res_W e) i) as [w Hw]; [lia|]. rewrite Hw.
  destruct (missing w); [by eexists|].
  destruct (factor_at_shape _ _ _ k i Hshape Hk Hi) as [f ->].
  destruct (update_each_total (fun _ => rescale_station i f) 0 (res_R e)) as [R' ->].
  { intros n st Hn. eapply rescale_station_total; [|done].
    rewrite Forall_forall in HR. apply HR. by eapply list_elem_of_lookup_2. }
  by eexists.
Qed.

Lemma rescaled_station_length i f Rsta : length (rescaled_station i f Rsta) = length Rsta.
Proof.
  unfold rescaled_station. destruct (Rsta !! i) as [v|]; [|done].
  destruct (missing v); [done|]. by rewrite length_insert.
Qed.

Lemma band_on_event_well_formed factors Nf i k evid e :
  well_formed_event Nf (evid, Some e) ->
  well_formed_event Nf (evid, Some (band_on_event factors i k e)).
Proof.
  intros (e0 & [= <-] & HW & HR). eexists; split; [done|].
  unfold band_on_event.
  destruct (res_W e !! i) as [[| |w]|]; try done.
  destruct (factor_at factors k i) as [f|]; [|done]. simpl.
  split; [by rewrite length_insert|].
  apply Forall_fmap. eapply Forall_impl; [exact HR|].
  intros [s l]; simpl. by rewrite rescaled_station_length.
Qed.

Lemma rescale_band_well_formed factors Nf i evs evs' :
  Forall (well_formed_event Nf) evs ->
  rescale_band factors i evs = (evs', Ok tt) ->
  Forall (well_formed_event Nf) evs'.
Proof.
  intros Hwf H. apply Forall_lookup. intros k item' Hk'.
  destruct (evs !! k) as [item|] eqn:Hk.
  - destruct (update_each_lookup _ _ _ _ _ _ H Hk) as (item'' & Hk'' & Hstep).
    rewrite Hk' in Hk''. injection Hk'' as <-.
    apply rescale_event_Ok in Hstep as (e & He & ->).
    rewrite Forall_lookup in Hwf. specialize (Hwf _ _ Hk).
    destruct item as [evid o]; simpl in *; subst o.
    by apply band_on_event_well_formed.
  - apply lookup_ge_None in Hk. apply lookup_lt_Some in Hk'.
    rewrite (update_each_length _ _ _ _ _ H) in Hk'. lia.
Qed.

Lemma rescale_band_total factors Nf i evs :
  has_shape factors (length evs) Nf -> Forall (well_formed_event Nf) evs -> i < Nf ->
  exists evs', rescale_band factors i evs = (evs', Ok tt).
Proof.
  intros Hshape Hwf Hi. apply update_each_total. intros n item Hn.
  eapply rescale_event_total; eauto.
  - rewrite Forall_lookup in Hwf. eauto.
  - simpl. by eapply lookup_lt_Some.
Qed.

Lemma for_range_total factors Nf range evs :
  has_shape factors (length evs) Nf -> Forall (well_formed_event Nf) evs ->
  Forall (fun i => i < Nf) range ->
  exists evs', for_range (rescale_band factors) range evs = (evs', Ok tt).
Proof.
  revert evs; induction range as [|i range IH]; intros evs Hshape Hwf Hr; simpl.
  { by eexists. }
  apply Forall_cons in Hr as [Hi Hr].
  destruct (rescale_band_total _ _ i _ Hshape Hwf Hi) as [evs1 H1]. rewrite H1.
  apply IH; [|by eapply rescale_band_well_formed|done].
  by rewrite (update_each_length _ _ _ _ _ H1).
Qed.

Lemma number_of_freqs_loop_well_formed Nf evs o :
  Forall (well_formed_event Nf) evs -> (o = None \/ o = Some Nf) ->
  number_of_freqs_loop o evs = Ok (if evs is [] then o else Some Nf).
Proof.
  revert o; induction evs as [|[evid e] evs IH]; intros o Hwf Ho; simpl; [done|].
  apply Forall_cons in Hwf as [(e0 & He & HW & _) Hwf]. simpl in He. subst e. simpl.
  rewrite HW. assert (number_of_freqs_loop (Some Nf) evs = Ok (Some Nf)) as Hrest.
  { rewrite IH by auto. by destruct evs. }
  destruct Ho as [->| ->]; [done|]. by rewrite decide_True.
Qed.

Lemma get_number_of_freqs_well_formed rs Nf :
  well_formed rs Nf -> _get_number_of_freqs rs = Ok (Some Nf).
Proof.
  intros [Hne Hwf]. unfold _get_number_of_freqs.
  rewrite (number_of_freqs_loop_well_formed Nf) by auto. by destruct (events rs).
Qed.

Lemma number_of_freqs_loop_length Nf evs o k item e :
  number_of_freqs_loop o evs = Ok (Some Nf) -> evs !! k = Some item -> item.2 = Some e ->
  length (res_W e) = Nf.
Proof.
  revert o k; induction evs as [|[evid e0] evs IH]; intros o k; simpl; [done|].
  destruct e0 as [e0|]; simpl; [|done].
  intros H Hk He.
  assert (number_of_freqs_loop (Some (length (res_W e0))) evs = Ok (Some Nf)) as Hrest.
  { destruct o as [n|]; [|done]. by case_decide. }
  destruct k as [|k]; simpl in Hk.
  - injection Hk as <-. simpl in He. injection He as <-.
    clear -Hrest. destruct evs as [|[? [e1|]] evs]; simpl in *; [congruence| |done].
    case_decide; [|done].
    assert (forall n l, number_of_freqs_loop (Some n) l = Ok (Some Nf) -> n = Nf) as Hfix.
    { clear. intros n l; revert n; induction l as [|[? [e|]] l IH]; intros n; simpl;
        [congruence| |done]. case_decide; [|done]. intros ?%IH. congruence. }
    apply Hfix in Hrest. congruence.
  - eauto.
Qed.

Lemma rescale_results_cell rs factors rs' k sta i w :
  _rescale_results rs factors = (rs', Ok tt) ->
  energy rs k i = Some w ->
  cell k sta i (events rs') = rescaled_cell factors k i (cell k sta i (events rs)).
Proof.
  unfold _rescale_results. intros H Hw.
  destruct (_get_number_of_freqs rs) as [[Nf|]|] eqn:HNf; simpl in H; try done.
  destruct (for_range _ _ _) as [evs o] eqn:Hfor. injection H as <- ->. simpl.
  rewrite (for_range_cell _ _ _ _ k sta i (NoDup_seq 0 Nf) Hfor).
  rewrite decide_True; [done|].
  apply elem_of_seq. split; [lia|]. simpl.
  unfold energy in Hw. destruct (events rs !! k) as [item|] eqn:Hk; [|done].
  simpl in Hw. destruct (item.2) as [e|] eqn:He; [|done]. simpl in Hw.
  rewrite <- (number_of_freqs_loop_length _ _ _ _ _ _ HNf Hk He).
  by eapply lookup_lt_Some.
Qed.

Lemma rescale_results_total rs factors Nf :
  well_formed rs Nf -> has_shape factors (length (events rs)) Nf ->
  exists rs', _rescale_results rs factors = (rs', Ok tt).
Proof.
  intros Hwf Hshape. unfold _rescale_results.
  rewrite (get_number_of_freqs_well_formed _ _ Hwf). simpl.
  destruct (for_range_total factors Nf (seq 0 Nf) (events rs)) as [evs Hevs];
    [done|apply Hwf| |].
  { apply Forall_forall. intros i ?%elem_of_seq. lia. }
  rewrite Hevs. by eexists.
Qed.

Lemma factor_at_positive factors k i f :
  all_positive factors -> factor_at factors k i = Ok f -> (0 < f)%R.
Proof.
  unfold factor_at, index, all_positive. intros Hpos.
  destruct (factors !! k) as [row|] eqn:Hrow; simpl; [|done].
  destruct (row !! i) as [f'|] eqn:Hf; simpl; [|done]. intros [= <-].
  rewrite Forall_forall in Hpos. specialize (Hpos row (list_elem_of_lookup_2 _ _ _ Hrow)).
  rewrite Forall_forall in Hpos. apply Hpos. by eapply list_elem_of_lookup_2.
Qed.

Lemma energy_factor rs factors Nf k i w :
  well_formed rs Nf -> has_shape factors (length (events rs)) Nf ->
  energy rs k i = Some w -> exists f, factor_at factors k i = Ok f.
Proof.
  intros [_ Hwf] Hshape Hw. unfold energy in Hw.
  destruct (events rs !! k) as [item|] eqn:Hk; [|done]. simpl in Hw.
  destruct (item.2) as [e|] eqn:He; [|done]. simpl in Hw.
  eapply factor_at_shape; [done|by eapply lookup_lt_Some|].
  rewrite Forall_lookup in Hwf. destruct (Hwf _ _ Hk) as (e' & He' & HW & _).
  rewrite He in He'. injection He' as <-. rewrite <- HW. by eapply lookup_lt_Some.
Qed.



(** C2, as stated, fails: an event whose source energy is [None] in a band
    keeps its site amplifications in that band, whatever its factor. Here
    station A has the amplification 2 and the factor is 3; the amplification
    is still 2 after the rescaling, not 6. *)
Lemma amplification_kept_without_energy :
  let rs := one_event [PyNone] [("A"%string, [Num 2])] in
  energy rs 0 0 = Some PyNone /\
  amplification rs 0 "A" 0 = Some (Num 2) /\
  factor_at [[3%R]] 0 0 = Ok 3%R /\
  exists rs', _rescale_results rs [[3%R]] = (rs', Ok tt) /\
              amplification rs' 0 "A" 0 = Some (Num 2) /\
              amplification rs' 0 "A" 0 <> Some (Num (2 * 3)).
Proof.
  simpl. repeat split. eexists. split; [reflexivity|]. split; [reflexivity|].
  cbn. intros [= H]. lra.
Qed.

(** C2, amended. On a well-formed result dictionary and an [Ne] by [Nf]
    array of factors the rescaler returns, and for every event [k], band [i]
    and station [sta]: a site amplification that is a number is multiplied by
    the factor of the event and band when the source energy of that event and
    band is a number, and is left as it is when that energy is [None] or NaN;
    an amplification that is [None] or NaN is left as it is. *)
Theorem amplification_rescaled_with_energy rs factors Nf :
  well_formed rs Nf -> has_shape factors (length (events rs)) Nf ->
  exists rs', _rescale_results rs factors = (rs', Ok tt) /\
    forall k sta i w v,
      energy rs k i = Some w -> amplification rs k sta i = Some v ->
      amplification rs' k sta i =
        Some (if missing w then v else
                match factor_at factors k i with Ok f => vmul v f | Raise _ => v end)
      /\ (missing w = false -> exists f, factor_at factors k i = Ok f).
Proof.
  intros Hwf Hshape.
  destruct (rescale_results_total _ _ _ Hwf Hshape) as [rs' Hrs'].
  exists rs'. split; [done|]. intros k sta i w v Hw Hv.
  pose proof (rescale_results_cell _ _ _ k sta i _ Hrs' Hw) as Hcell.
  destruct (energy_factor _ _ _ _ _ _ Hwf Hshape Hw) as [f Hf].
  unfold cell, rescaled_cell in Hcell. simpl in Hcell.
  destruct rs as [evs], rs' as [evs']. simpl in *.
  rewrite Hw, Hf, Hv in Hcell. split; [|by eauto].
  rewrite Hf. destruct w; simpl in *; by injection Hcell as _ ->.
Qed.

Lemma amplification_rescaled_with_energy_witness :
  exists rs', _rescale_results (one_event [Num 4] [("A"%string, [Num 3])]) [[2%R]] = (rs', Ok tt) /\
    forall k sta i w v,
      energy (one_event [Num 4] [("A"%string, [Num 3])]) k i = Some w ->
      amplification (one_event [Num 4] [("A"%string, [Num 3])]) k sta i = Some v ->
      amplification rs' k sta i =
        Some (if missing w then v else
                match factor_at [[2%R]] k i with Ok f => vmul v f | Raise _ => v end)
      /\ (missing w = false -> exists f, factor_at [[2%R]] k i = Ok f).
Proof.
  apply (amplification_rescaled_with_energy (one_event [Num 4] [("A"%string, [Num 3])]) [[2%R]] 1).
  - split; [done|]. repeat constructor. eexists; repeat split; simpl; auto.
  - split; [done|]. by repeat constructor.
Defined.

(** * The connectivity analyzer *)

Lemma merge_into_length aset newsets updated :
  merge_into aset newsets = Some updated -> length updated = length newsets.
Proof.
  revert updated; induction newsets as [|x l IH]; intros updated; simpl; [done|].
  case_decide.
  - destruct (merge_into aset l) eqn:E; simpl; [|done].
    intros [= <-]. simpl. f_equal. by apply IH.
  - by intros [= <-].
Qed.

Lemma merge_step_length newsets aset :
  length (merge_step newsets aset) <= S (length newsets).
Proof.
  unfold merge_step. destruct (merge_into aset newsets) eqn:E.
  - apply merge_into_length in E. lia.
  - rewrite length_app. simpl. lia.
Qed.

Lemma foldl_merge_step_length sets acc :
  length (foldl merge_step acc sets) <= length acc + length sets.
Proof.
  revert acc; induction sets as [|a sets IH]; intros acc; simpl; [lia|].
  etrans; [apply IH|]. pose proof (merge_step_length acc a). lia.
Qed.

Lemma merge_pass_length sets : length (merge_pass sets) <= length sets.
Proof. apply (foldl_merge_step_length sets []). Qed.

(** C9 (merge correctness). [_merge_sets] applied to the sets {A,B},
    {B,C} and {D,E} returns the two sets {A,B,C} and {D,E}. *)
Theorem merge_sets_example :
  _merge_sets [ {["A"; "B"]}; {["B"; "C"]}; {["D"; "E"]} ]%string
  = [ {["A"; "B"; "C"]}; {["D"; "E"]} ]%string.
Proof. vm_compute. reflexivity. Qed.

(** *** What a pass keeps *)

Lemma merge_into_None aset newsets :
  merge_into aset newsets = None <-> Forall (fun eachset => aset ## eachset) newsets.
Proof.
  induction newsets as [|x l IH]; simpl; [by split; [constructor|]|].
  case_decide as Hd.
  - destruct (merge_into aset l); simpl.
    + split; [done|]. intros [_ H]%Forall_cons. by apply IH in H.
    + split; [|done]. intros _. constructor; [done|]. by apply IH.
  - split; [done|]. by intros [? _]%Forall_cons.
Qed.

Lemma merge_into_Some aset newsets updated :
  merge_into aset newsets = Some updated ->
  exists before eachset after,
    newsets = before ++ eachset :: after /\
    updated = before ++ (eachset ∪ aset) :: after /\
    ¬ aset ## eachset.
Proof.
  revert updated; induction newsets as [|x l IH]; intros updated; simpl; [done|].
  case_decide as Hd.
  - destruct (merge_into aset l) as [l'|]; simpl; [|done]. intros [= <-].
    destruct (IH _ eq_refl) as (before & eachset & after & -> & -> & Hnd).
    by exists (x :: before), eachset, after.
  - intros [= <-]. by exists [], x, l.
Qed.

(** A property of lists of sets that merging two overlapping members and
    appending a member of the input keep. *)
Section Pass_invariant.

Variable P : gset string -> Prop.
Hypothesis P_union : forall a b, P a -> P b -> ¬ a ## b -> P (a ∪ b).

Lemma merge_step_Forall newsets aset :
  Forall P newsets -> P aset -> Forall P (merge_step newsets aset).
Proof.
  intros Hn Ha. unfold merge_step.
  destruct (merge_into aset newsets) as [updated|] eqn:E.
  - apply merge_into_Some in E as (before & eachset & after & -> & -> & Hnd).
    apply Forall_app in Hn as [Hb [He Haf]%Forall_cons].
    apply Forall_app. split; [done|]. constructor; [|done].
    apply P_union; [done..|]. by intros ?%symmetry.
  - apply Forall_app. split; [done|]. by constructor.
Qed.

Lemma foldl_merge_step_Forall sets acc :
  Forall P acc -> Forall P sets -> Forall P (foldl merge_step acc sets).
Proof.
  revert acc; induction sets as [|a sets IH]; intros acc Hacc Hs; simpl; [done|].
  apply Forall_cons in Hs as [Ha Hs]. apply IH; [|done]. by apply merge_step_Forall.
Qed.

Lemma merge_pass_Forall sets : Forall P sets -> Forall P (merge_pass sets).
Proof. intros. by apply foldl_merge_step_Forall. Qed.

Lemma merge_loop_Forall sets newsets :
  Forall P newsets -> Forall P (merge_loop sets newsets).
Proof.
  funelim (merge_loop sets newsets); intros Hn.
  - done.
  - match goal with IH : Forall P _ -> Forall P (merge_loop _ _) |- _ => apply IH end.
    by apply merge_pass_Forall.
Qed.

End Pass_invariant.

(** *** The union and the input sets are kept *)

Lemma merge_step_union newsets aset :
  ⋃ (merge_step newsets aset) = ⋃ newsets ∪ aset.
Proof.
  unfold merge_step. destruct (merge_into aset newsets) as [updated|] eqn:E.
  - apply merge_into_Some in E as (before & eachset & after & -> & -> & _).
    rewrite !union_list_app_L. simpl. set_solver.
  - rewrite union_list_app_L. simpl. set_solver.
Qed.

Lemma foldl_merge_step_union sets acc :
  ⋃ (foldl merge_step acc sets) = ⋃ acc ∪ ⋃ sets.
Proof.
  revert acc; induction sets as [|a sets IH]; intros acc; simpl; [set_solver|].
  rewrite IH, merge_step_union. set_solver.
Qed.

Lemma merge_pass_union sets : ⋃ (merge_pass sets) = ⋃ sets.
Proof. unfold merge_pass. rewrite foldl_merge_step_union. set_solver. Qed.

Lemma merge_loop_union sets newsets : ⋃ (merge_loop sets newsets) = ⋃ newsets.
Proof.
  funelim (merge_loop sets newsets); [done|].
  match goal with IH : ⋃ (merge_loop _ _) = _ |- _ => rewrite IH end.
  apply merge_pass_union.
Qed.

(** [covered s l]: some member of [l] includes [s]. *)
Lemma merge_step_covered newsets aset s :
  covered s (newsets ++ [aset]) -> covered s (merge_step newsets aset).
Proof.
  intros (m & Hm & Hs). unfold covered, merge_step.
  destruct (merge_into aset newsets) as [updated|] eqn:E.
  - apply merge_into_Some in E as (before & eachset & after & -> & -> & _).
    rewrite !elem_of_app, !elem_of_cons in Hm.
    destruct Hm as [[Hm|[->|Hm]]|[->|Hm]].
    + exists m. set_solver.
    + exists (eachset ∪ aset). set_solver.
    + exists m. set_solver.
    + exists (eachset ∪ aset). set_solver.
    + by apply elem_of_nil in Hm.
  - by exists m.
Qed.

Lemma foldl_merge_step_covered sets acc s :
  covered s (acc ++ sets) -> covered s (foldl merge_step acc sets).
Proof.
  revert acc; induction sets as [|a sets IH]; intros acc; simpl.
  { by rewrite app_nil_r. }
  intros (m & Hm & Hs). apply IH.
  rewrite elem_of_app, elem_of_cons in Hm.
  destruct Hm as [Hm|[->|Hm]].
  - destruct (merge_step_covered acc a s) as (m' & Hm' & Hs').
    { exists m. set_solver. }
    exists m'. set_solver.
  - destruct (merge_step_covered acc a s) as (m' & Hm' & Hs').
    { exists a. set_solver. }
    exists m'. set_solver.
  - exists m. set_solver.
Qed.

Lemma merge_pass_covered sets s : covered s sets -> covered s (merge_pass sets).
Proof. intros. by apply foldl_merge_step_covered. Qed.

Lemma merge_loop_covered sets newsets s :
  covered s newsets -> covered s (merge_loop sets newsets).
Proof.
  funelim (merge_loop sets newsets); intros Hc; [done|].
  match goal with IH : forall s, covered _ _ -> covered _ (merge_loop _ _) |- _ => apply IH end.
  by apply merge_pass_covered.
Qed.

(** *** The sets are pairwise disjoint when the loop ends *)

Lemma pairwise_disjoint_snoc l a :
  pairwise_disjoint l -> Forall (fun m => a ## m) l -> pairwise_disjoint (l ++ [a]).
Proof.
  intros Hl Ha i j x y Hij Hi Hj.
  destruct (decide (j < length l)) as [Hlt|Hge].
  - rewrite lookup_app_l in Hi by lia. rewrite lookup_app_l in Hj by lia. eauto.
  - rewrite lookup_app_r in Hj by lia.
    destruct (j - length l) as [|n] eqn:Hn; simpl in Hj; [|by destruct n].
    injection Hj as <-. rewrite lookup_app_l in Hi by lia.
    rewrite Forall_forall in Ha. symmetry. apply Ha. by eapply list_elem_of_lookup_2.
Qed.

Lemma foldl_merge_step_fixed sets acc :
  pairwise_disjoint acc ->
  length (foldl merge_step acc sets) = length acc + length sets ->
  pairwise_disjoint (foldl merge_step acc sets).
Proof.
  revert acc; induction sets as [|a sets IH]; intros acc Hacc; simpl; [done|].
  intros Hlen. pose proof (foldl_merge_step_length sets (merge_step acc a)) as Hle.
  unfold merge_step in *. destruct (merge_into a acc) as [updated|] eqn:E.
  - apply merge_into_length in E. lia.
  - apply IH.
    + apply pairwise_disjoint_snoc; [done|]. by apply merge_into_None.
    + rewrite length_app. simpl. lia.
Qed.

Lemma merge_pass_fixed sets :
  length (merge_pass sets) = length sets -> pairwise_disjoint (merge_pass sets).
Proof.
  intros. apply foldl_merge_step_fixed; [|done]. intros i j x y _ Hi. done.
Qed.

Lemma merge_loop_disjoint sets newsets :
  (newsets = [] \/ newsets = merge_pass sets) ->
  pairwise_disjoint (merge_loop sets newsets).
Proof.
  funelim (merge_loop sets newsets); intros Hn.
  - destruct Hn as [->| ->].
    + intros i j x y _ Hi. done.
    + by apply merge_pass_fixed.
  - match goal with IH : _ -> pairwise_disjoint (merge_loop _ _) |- _ => apply IH end.
    by right.
Qed.

Lemma merge_sets_disjoint sets : pairwise_disjoint (_merge_sets sets).
Proof.
  unfold _merge_sets.
  destruct sets as [|a sets].
  - apply merge_loop_disjoint. by left.
  - simp merge_loop. simpl. apply merge_loop_disjoint. by right.
Qed.

(** *** The sets are held together by the input sets *)

Lemma shares_sym sets x y : shares sets x y -> shares sets y x.
Proof. intros (s & ? & ? & ?). by exists s. Qed.

Lemma linked_sym sets x y : linked sets x y -> linked sets y x.
Proof.
  induction 1 as [|x y z Hxy _ IH]; [constructor|].
  eapply rtc_r; [exact IH|]. by apply shares_sym.
Qed.

Lemma held_together_member sets s : s ∈ sets -> held_together sets s.
Proof. intros Hs x y Hx Hy. apply rtc_once. by exists s. Qed.

Lemma held_together_union sets a b :
  held_together sets a -> held_together sets b -> ¬ a ## b -> held_together sets (a ∪ b).
Proof.
  intros Ha Hb Hnd.
  assert (exists z, z ∈ a /\ z ∈ b) as (z & Hza & Hzb).
  { destruct (set_choose_L (a ∩ b)) as [z Hz]; [set_solver|]. exists z. set_solver. }
  intros x y [Hx|Hx]%elem_of_union [Hy|Hy]%elem_of_union.
  - by apply Ha.
  - etrans; [by apply (Ha x z)|by apply (Hb z y)].
  - etrans; [by apply (Hb x z)|by apply (Ha z y)].
  - by apply Hb.
Qed.

Lemma merge_sets_held_together sets :
  Forall (held_together sets) (_merge_sets sets).
Proof.
  apply merge_loop_Forall; [apply held_together_union|].
  apply Forall_forall. apply held_together_member.
Qed.

Lemma merge_sets_nonempty sets :
  Forall (fun s => s <> ∅) sets -> Forall (fun s => s <> ∅) (_merge_sets sets).
Proof.
  apply merge_loop_Forall. intros a b Ha _ _ Hab. apply Ha.
  by apply empty_union_L in Hab as [? _].
Qed.

Lemma merge_sets_union sets : ⋃ (_merge_sets sets) = ⋃ sets.
Proof. apply merge_loop_union. Qed.

Lemma merge_sets_covered sets s : s ∈ sets -> covered s (_merge_sets sets).
Proof. intros Hs. apply merge_loop_covered. by exists s. Qed.

(** Two members of a pairwise disjoint list with a common element are the
    same set. *)
Lemma pairwise_disjoint_same l m m' x :
  pairwise_disjoint l -> m ∈ l -> m' ∈ l -> x ∈ m -> x ∈ m' -> m = m'.
Proof.
  intros Hpd [i Hi]%list_elem_of_lookup [j Hj]%list_elem_of_lookup Hx Hx'.
  destruct (Nat.lt_trichotomy i j) as [Hij|[->|Hij]].
  - specialize (Hpd _ _ _ _ Hij Hi Hj). rewrite elem_of_disjoint in Hpd.
    exfalso. eauto.
  - congruence.
  - specialize (Hpd _ _ _ _ Hij Hj Hi). rewrite elem_of_disjoint in Hpd.
    exfalso. eauto.
Qed.

(** Linked stations are in the same merged set. *)
Lemma merge_sets_linked sets m x y :
  m ∈ _merge_sets sets -> x ∈ m -> linked sets x y -> y ∈ m.
Proof.
  intros Hm Hx Hxy. induction Hxy as [|x y z (s & Hs & Hxs & Hys) _ IH]; [done|].
  apply IH. destruct (merge_sets_covered sets s Hs) as (m' & Hm' & Hsm').
  rewrite (pairwise_disjoint_same _ m m' x (merge_sets_disjoint sets)); set_solver.
Qed.

(** Two groups, none of whose stations shares a set with a station of the
    other, each held together: the merged sets are the two groups. *)
Lemma merge_sets_two_groups sets G1 G2 :
  Forall (fun s => s <> ∅) sets ->
  G1 <> ∅ -> G2 <> ∅ -> G1 ## G2 -> ⋃ sets = G1 ∪ G2 ->
  (forall x y, x ∈ G1 -> y ∈ G2 -> ¬ shares sets x y) ->
  held_together sets G1 -> held_together sets G2 ->
  _merge_sets sets = [G1; G2] \/ _merge_sets sets = [G2; G1].
Proof.
  intros Hne H1 H2 Hd Hu Hno Hc1 Hc2.
  pose proof (merge_sets_disjoint sets) as Hpd.
  pose proof (merge_sets_nonempty sets Hne) as Hne'.
  pose proof (merge_sets_held_together sets) as Hht.
  pose proof (merge_sets_union sets) as Hu'. rewrite Hu in Hu'.
  (* linked stations are in the same group *)
  assert (forall x y, linked sets x y -> (x ∈ G1 <-> y ∈ G1)) as Hgroup.
  { intros x y Hxy. induction Hxy as [|x y z Hs _ IH]; [done|].
    rewrite <- IH. clear IH.
    assert (x ∈ G1 ∪ G2 /\ y ∈ G1 ∪ G2) as [Hx Hy].
    { rewrite <- Hu. destruct Hs as (s & Hs & ? & ?).
      split; apply elem_of_union_list; by exists s. }
    split; intros Hin.
    - destruct (decide (y ∈ G1)); [done|]. exfalso. apply (Hno x y); set_solver.
    - destruct (decide (x ∈ G1)); [done|]. exfalso.
      apply (Hno y x); [done|set_solver|by apply shares_sym]. }
  (* every merged set is one of the groups *)
  assert (forall m, m ∈ _merge_sets sets -> m = G1 \/ m = G2) as Hm.
  { intros m Hin. rewrite Forall_forall in Hne', Hht.
    destruct (set_choose_L m (Hne' m Hin)) as [x Hx].
    assert (x ∈ G1 ∪ G2) as [Hx1|Hx2]%elem_of_union.
    { rewrite <- Hu'. apply elem_of_union_list. by exists m. }
    - left. apply set_eq. intros y. split.
      + intros Hy. by apply (Hgroup x y (Hht m Hin x y Hx Hy)).
      + intros Hy. eapply merge_sets_linked; eauto.
    - right. apply set_eq. intros y. split.
      + intros Hy. pose proof (Hgroup x y (Hht m Hin x y Hx Hy)).
        assert (y ∈ G1 ∪ G2); [|set_solver].
        rewrite <- Hu'. apply elem_of_union_list. by exists m.
      + intros Hy. eapply merge_sets_linked; eauto. }
  (* both groups occur *)
  assert (forall G, G <> ∅ -> G ⊆ G1 ∪ G2 -> (G = G1 \/ G = G2) -> G ∈ _merge_sets sets) as Hocc.
  { intros G HG Hsub HG12. destruct (set_choose_L G HG) as [x Hx].
    assert (x ∈ ⋃ _merge_sets sets) as (m & Hin & Hxm)%elem_of_union_list.
    { rewrite Hu'. set_solver. }
    destruct (Hm m Hin) as [->| ->], HG12 as [->| ->]; set_solver. }
  pose proof (Hocc G1 H1 ltac:(set_solver) ltac:(by left)) as Hin1.
  pose proof (Hocc G2 H2 ltac:(set_solver) ltac:(by right)) as Hin2.
  assert (G1 <> G2) as Hne12 by set_solver.
  (* no set occurs twice *)
  assert (forall i j x, i < j -> _merge_sets sets !! i = Some x ->
                        _merge_sets sets !! j = Some x -> False) as Hnodup.
  { intros i j x Hij Hi Hj. specialize (Hpd _ _ _ _ Hij Hi Hj).
    rewrite Forall_forall in Hne'. apply (Hne' x); [by eapply list_elem_of_lookup_2|].
    set_solver. }
  destruct (_merge_sets sets) as [|a [|b [|c l]]].
  - by apply elem_of_nil in Hin1.
  - apply list_elem_of_singleton in Hin1, Hin2. congruence.
  - destruct (Hm a ltac:(set_solver)) as [->| ->], (Hm b ltac:(set_solver)) as [->| ->]; auto.
    + exfalso. apply (Hnodup 0 1 G1); [lia|done..].
    + exfalso. apply (Hnodup 0 1 G2); [lia|done..].
  - exfalso.
    destruct (Hm a ltac:(set_solver)) as [->| ->], (Hm b ltac:(set_solver)) as [->| ->],
             (Hm c ltac:(set_solver)) as [->| ->];
      first [by apply (Hnodup 0 1 G1); [lia|..] | by apply (Hnodup 0 1 G2); [lia|..]
            | by apply (Hnodup 0 2 G1); [lia|..] | by apply (Hnodup 0 2 G2); [lia|..]
            | by apply (Hnodup 1 2 G1); [lia|..] | by apply (Hnodup 1 2 G2); [lia|..]].
Qed.

(** *** From the events to the sets, and from the sets to the areas *)

Lemma valid_stations_spec freqi Rs :
  Forall (fun st => freqi < length st.2) Rs ->
  exists area, valid_stations freqi Rs = Ok area /\
    forall sta, sta ∈ area <->
      exists Rsta x, (sta, Rsta) ∈ Rs /\ Rsta !! freqi = Some (Num x).
Proof.
  induction Rs as [|[s l] Rs IH]; intros Hlen; simpl.
  { exists ∅. split; [done|]. intros sta. split; [set_solver|].
    intros (? & ? & []%elem_of_nil & _). }
  apply Forall_cons in Hlen as [Hl Hlen]. simpl in Hl.
  destruct (IH Hlen) as (area & -> & Harea).
  destruct (lookup_lt_is_Some_2 l freqi Hl) as [v Hv].
  unfold index. rewrite Hv. simpl. eexists. split; [done|].
  intros sta. destruct v as [| |x]; simpl.
  - rewrite Harea. split; intros (Rsta & x & Hin & Hx); exists Rsta, x.
    + split; [by right|done].
    + apply elem_of_cons in Hin as [[= -> ->]|Hin]; [congruence|done].
  - rewrite Harea. split; intros (Rsta & x & Hin & Hx); exists Rsta, x.
    + split; [by right|done].
    + apply elem_of_cons in Hin as [[= -> ->]|Hin]; [congruence|done].
  - rewrite elem_of_union, elem_of_singleton, Harea. split.
    + intros [->|(Rsta & y & Hin & Hy)].
      * exists l, x. split; [by left|done].
      * exists Rsta, y. split; [by right|done].
    + intros (Rsta & y & Hin & Hy).
      apply elem_of_cons in Hin as [[= -> ->]|Hin]; [by left|]. right. by exists Rsta, y.
Qed.

Lemma event_areas_spec Nf freqi evs :
  Forall (well_formed_event Nf) evs -> freqi < Nf ->
  exists sets, event_areas freqi evs = Ok sets /\
    forall s, s ∈ sets <->
      s <> ∅ /\ exists evid e, (evid, Some e) ∈ evs /\
                               forall sta, sta ∈ s <-> has_valid freqi e sta.
Proof.
  intros Hwf Hi. induction evs as [|[evid o] evs IH]; simpl.
  { exists []. split; [done|]. intros s. split; [by intros []%elem_of_nil|].
    intros (_ & ? & ? & []%elem_of_nil & _). }
  apply Forall_cons in Hwf as [(e & He & _ & HR) Hwf]. simpl in He. subst o. simpl.
  destruct (valid_stations_spec freqi (res_R e)) as (area & -> & Harea).
  { eapply Forall_impl; [exact HR|]. simpl. intros ? ->. done. }
  destruct (IH Hwf) as (sets & -> & Hsets). simpl. eexists. split; [done|].
  intros s. case_decide as Hsize.
  - rewrite elem_of_cons, Hsets. split.
    + intros [->|(Hne & evid' & e' & Hin & Hs)].
      * split; [by intros ->; rewrite size_empty in Hsize; lia|].
        exists evid, e. split; [by left|]. apply Harea.
      * split; [done|]. exists evid', e'. split; [by right|done].
    + intros (Hne & evid' & e' & Hin & Hs).
      apply elem_of_cons in Hin as [[= -> ->]|Hin].
      * left. apply set_eq. intros sta. by rewrite Hs, Harea.
      * right. split; [done|]. by exists evid', e'.
  - rewrite Hsets. split.
    + intros (Hne & evid' & e' & Hin & Hs). split; [done|].
      exists evid', e'. split; [by right|done].
    + intros (Hne & evid' & e' & Hin & Hs). split; [done|].
      apply elem_of_cons in Hin as [[= -> ->]|Hin]; [|by exists evid', e'].
      exfalso. apply Hne. assert (s = area) as -> by (apply set_eq; intros sta; by rewrite Hs, Harea).
      apply leibniz_equiv, size_empty_iff. lia.
Qed.

Lemma set_first_elem a : a <> ∅ -> exists x, set_first a = Ok x /\ x ∈ a.
Proof.
  intros Ha. unfold set_first. destruct (elements a) as [|x l] eqn:E.
  - by apply elements_empty_inv, leibniz_equiv in E.
  - exists x. split; [done|]. apply elem_of_elements. rewrite E. by left.
Qed.

Lemma name_areas_two a1 a2 :
  a1 <> ∅ -> a2 <> ∅ -> a1 ## a2 ->
  exists n1 n2, name_areas [a1; a2] = Ok [(n1, a1); (n2, a2)] /\ n1 ∈ a1 /\ n2 ∈ a2.
Proof.
  intros H1 H2 Hd.
  destruct (set_first_elem a1 H1) as (n1 & Hn1 & Hin1).
  destruct (set_first_elem a2 H2) as (n2 & Hn2 & Hin2).
  exists n1, n2. unfold name_areas. simpl. rewrite Hn1. simpl. rewrite Hn2. simpl.
  rewrite decide_False; [done|]. intros ->. rewrite elem_of_disjoint in Hd. eauto.
Qed.

(** C8 (connectivity correctness). Let the stations with a valid site
    response in band [freqi] split into two non-empty groups [G1] and [G2],
    such that no event observes a station of [G1] together with a station of
    [G2], and each group is held together by common events (so that there
    are exactly two groups). Then [_find_unconnected_areas] returns exactly
    two areas, whose station sets are the two groups: they are disjoint and
    their union is the set of observed stations; each area is named after
    one of its stations. *)
Theorem two_groups_two_areas rs Nf freqi G1 G2 :
  well_formed rs Nf -> freqi < Nf ->
  G1 <> ∅ -> G2 <> ∅ -> G1 ## G2 ->
  (forall s, s ∈ G1 ∪ G2 <-> observed rs freqi s) ->
  (forall s t, s ∈ G1 -> t ∈ G2 -> ¬ co_observed rs freqi s t) ->
  connected_group rs freqi G1 -> connected_group rs freqi G2 ->
  exists n1 a1 n2 a2,
    _find_unconnected_areas rs freqi = Ok [(n1, a1); (n2, a2)] /\
    n1 ∈ a1 /\ n2 ∈ a2 /\ a1 ## a2 /\
    (forall s, s ∈ a1 ∪ a2 <-> observed rs freqi s) /\
    ((a1 = G1 /\ a2 = G2) \/ (a1 = G2 /\ a2 = G1)).
Proof.
  intros [_ Hwf] Hi H1 H2 Hd Hobs Hno Hc1 Hc2.
  destruct (event_areas_spec Nf freqi (events rs) Hwf Hi) as (sets & Hsets & Hs).
  unfold _find_unconnected_areas. rewrite Hsets. simpl.
  assert (forall x y, shares sets x y <-> co_observed rs freqi x y) as Hshares.
  { intros x y. split.
    - intros (s & (_ & evid & e & Hin & Hse)%Hs & Hx & Hy).
      exists evid, e. split; [done|]. by rewrite <- !Hse.
    - intros (evid & e & Hin & Hx & Hy).
      destruct (valid_stations_spec freqi (res_R e)) as (area & _ & Harea).
      { rewrite Forall_forall in Hwf.
        destruct (Hwf _ Hin) as (e' & [= <-] & _ & HR).
        eapply Forall_impl; [exact HR|]. simpl. intros ? ->. done. }
      exists area. split; [|split; by apply Harea].
      apply Hs. split; [|by exists evid, e]. intros ->. by apply Harea in Hx. }
  assert (forall x y, linked sets x y <-> rtc (co_observed rs freqi) x y) as Hlinked.
  { intros x y. unfold linked. split; intros H; induction H; try done;
      (eapply rtc_l; [by apply Hshares|done]). }
  destruct (merge_sets_two_groups sets G1 G2) as [Hm|Hm]; try done.
  - apply Forall_forall. intros s Hin. by apply Hs in Hin as [? _].
  - apply set_eq. intros x. rewrite Hobs, elem_of_union_list. unfold observed.
    rewrite <- Hshares. split.
    + intros (s & ? & ?). by exists s.
    + intros (s & ? & ? & _). by exists s.
  - intros x y Hx Hy. rewrite Hshares. by apply Hno.
  - intros x y Hx Hy. apply Hlinked. by apply Hc1.
  - intros x y Hx Hy. apply Hlinked. by apply Hc2.
  - rewrite Hm. destruct (name_areas_two G1 G2) as (n1 & n2 & -> & ? & ?); try done.
    exists n1, G1, n2, G2. repeat split; try done; [by apply Hobs..|by left].
  - rewrite Hm. destruct (name_areas_two G2 G1) as (n1 & n2 & -> & ? & ?); try done.
    exists n1, G2, n2, G1. repeat split; try done.
    + intros Hin. apply Hobs. set_solver.
    + intros Hin%Hobs. set_solver.
    + by right.
Qed.

Lemma two_groups_example_co_observed s t :
  co_observed two_groups_example 0 s t <->
  ((s = "A" \/ s = "B") /\ (t = "A" \/ t = "B"))%string \/ (s = "C" /\ t = "C")%string.
Proof.
  unfold co_observed, two_groups_example, has_valid. simpl. split.
  - intros (evid & e & Hin & (l1 & x1 & H1 & _) & (l2 & x2 & H2 & _)).
    rewrite !elem_of_cons, elem_of_nil in Hin.
    destruct Hin as [[= -> ->]|[[= -> ->]|[]]]; simpl in *;
      rewrite !elem_of_cons, elem_of_nil in H1, H2; naive_solver.
  - intros [[Hs Ht]|[-> ->]].
    + eexists _, _. split; [by left|]. simpl.
      split; [destruct Hs as [->| ->]|destruct Ht as [->| ->]];
        exists [Num 1], 1%R; (split; [|done]); rewrite !elem_of_cons; auto.
    + eexists _, _. split; [right; by left|]. simpl.
      split; exists [Num 1], 1%R; (split; [|done]); rewrite !elem_of_cons; auto.
Qed.

Lemma two_groups_two_areas_witness :
  exists n1 a1 n2 a2,
    _find_unconnected_areas two_groups_example 0 = Ok [(n1, a1); (n2, a2)] /\
    n1 ∈ a1 /\ n2 ∈ a2 /\ a1 ## a2 /\
    (forall s, s ∈ a1 ∪ a2 <-> observed two_groups_example 0 s) /\
    ((a1 = {["A"; "B"]}%string /\ a2 = {["C"]}%string) \/
     (a1 = {["C"]}%string /\ a2 = {["A"; "B"]}%string)).
Proof.
  apply (two_groups_two_areas two_groups_example 1 0 {["A"; "B"]}%string {["C"]}%string).
  - split; [done|]. repeat constructor; eexists; repeat split; simpl; repeat constructor.
  - lia.
  - set_solver.
  - set_solver.
  - set_solver.
  - intros s. unfold observed. rewrite two_groups_example_co_observed. set_solver.
  - intros s t Hs Ht. rewrite two_groups_example_co_observed. set_solver.
  - intros s t Hs Ht. apply rtc_once. rewrite two_groups_example_co_observed. set_solver.
  - intros s t Hs Ht. apply rtc_once. rewrite two_groups_example_co_observed. set_solver.
Defined.

(** * Alignment: the events, the bridging option, the hulls *)

(** *** The rescaler keeps the event ids *)

Lemma Forall2_refl_list {A} (Q : A -> A -> Prop) (l : list A) :
  (forall a, Q a a) -> Forall2 Q l l.
Proof. intros H. induction l; constructor; auto. Qed.

Lemma same_event_refl a : same_event a a.
Proof. by split. Qed.

Lemma update_each_Forall2 {A} (Q : A -> A -> Prop) (step : nat -> A -> A * result unit) k l l' o :
  (forall a, Q a a) ->
  (forall k a a' o, step k a = (a', o) -> Q a a') ->
  update_each step k l = (l', o) -> Forall2 Q l l'.
Proof.
  intros Hrefl Hstep. revert k l' o; induction l as [|x l IH]; intros k l' o; simpl.
  { intros [= <- _]. constructor. }
  destruct (step k x) as [x' [[]|e]] eqn:Hx.
  - destruct (update_each step (S k) l) as [rest' o'] eqn:Hrest.
    intros [= <- _]. constructor; eauto.
  - intros [= <- _]. constructor; [eauto|]. by apply Forall2_refl_list.
Qed.

Lemma rescale_event_same factors i k item item' o :
  rescale_event factors i k item = (item', o) -> same_event item item'.
Proof.
  destruct item as [evid [e|]]; simpl; [|by intros [= <- _]].
  destruct (res_W e !! i) as [w|]; [|by intros [= <- _]].
  destruct (missing w); [by intros [= <- _]|].
  destruct (factor_at factors k i); [|by intros [= <- _]].
  destruct (update_each _ 0 (res_R e)). by intros [= <- _].
Qed.

Lemma Forall2_same_event_trans l1 l2 l3 :
  Forall2 same_event l1 l2 -> Forall2 same_event l2 l3 -> Forall2 same_event l1 l3.
Proof.
  intros H12. revert l3. induction H12 as [|a b l1 l2 [H1 H2] _ IH]; intros l3 H23.
  - by inversion H23.
  - inversion H23 as [|? c ? l3' [H3 H4]]; subst. constructor; [|by apply IH].
    split; [congruence|auto].
Qed.

Lemma for_range_same factors range evs evs' o :
  for_range (rescale_band factors) range evs = (evs', o) -> Forall2 same_event evs evs'.
Proof.
  revert evs; induction range as [|i range IH]; intros evs; simpl.
  { intros [= <- _]. apply Forall2_refl_list, same_event_refl. }
  destruct (rescale_band factors i evs) as [evs1 [[]|e]] eqn:Hb.
  - intros H. eapply Forall2_same_event_trans; [|by apply IH].
    eapply update_each_Forall2; [apply same_event_refl| |exact Hb]. intros. by eapply rescale_event_same.
  - intros [= <- _].
    eapply update_each_Forall2; [apply same_event_refl| |exact Hb]. intros. by eapply rescale_event_same.
Qed.

Lemma rescale_results_same rs factors rs' o :
  _rescale_results rs factors = (rs', o) -> Forall2 same_event (events rs) (events rs').
Proof.
  unfold _rescale_results.
  destruct (_ ← _get_number_of_freqs rs; _) as [range|e].
  - destruct (for_range _ range (events rs)) as [evs o'] eqn:Hfor.
    intros [= <- _]. simpl. by eapply for_range_same.
  - intros [= <- _]. apply Forall2_refl_list, same_event_refl.
Qed.

Lemma Forall2_same_event_ids l l' :
  Forall2 same_event l l' -> l'.*1 = l.*1.
Proof. induction 1 as [|a b l l' [H _] _ IH]; simpl; [done|]. by f_equal. Qed.

Lemma Forall2_same_event_Some l l' :
  Forall2 same_event l l' -> Forall (fun item => is_Some item.2) l ->
  Forall (fun item => is_Some item.2) l'.
Proof.
  induction 1 as [|a b l l' [_ H] _ IH]; [done|].
  intros [Ha Hl]%Forall_cons. constructor; auto.
Qed.

Lemma existing_idemp rs : existing (existing rs) = existing rs.
Proof.
  unfold existing. cbn [events]. f_equal.
  induction (events rs) as [|item l IH]; [done|].
  rewrite (filter_cons _ item l). case_decide; [|done].
  rewrite filter_cons_True by done. by f_equal.
Qed.

Section Events.

Variable lsmr : list R -> list nat -> list nat -> nat * nat -> list R -> result (list R).
Variable lstsq : list (list R) -> list R -> result (list R).
Variable calculate_source_properties : results -> results.
Hypothesis csp_frame : keeps_events calculate_source_properties.

Lemma align_site_responses_same rs station response use_sparse :
  Forall2 same_event (events (existing rs))
    (events (align_site_responses lsmr lstsq calculate_source_properties
               rs station response use_sparse).1).
Proof.
  unfold align_site_responses. fold (existing rs). simpl.
  destruct (compute_factors lsmr lstsq (existing rs) station response use_sparse) as [factors|e].
  - destruct (_rescale_results (existing rs) factors) as [rs' [[]|e]] eqn:Hrs; simpl.
    + rewrite csp_frame. exact (rescale_results_same _ _ _ _ Hrs).
    + exact (rescale_results_same _ _ _ _ Hrs).
  - simpl. apply Forall2_refl_list, same_event_refl.
Qed.

(** C10. [align_site_responses] first drops the events whose result is
    [None] from [results['events']]. Whether it returns or raises, the
    result dictionary afterwards holds the ids of the other events, in their
    order, each with a result and none without; and the call does what it
    does on the dictionary that holds only those events, so that the dropped
    events take no part in the counting, the systems or the rescaling. *)
Theorem missing_events_removed rs station response use_sparse :
  let after := align_site_responses lsmr lstsq calculate_source_properties
                 rs station response use_sparse in
  (events after.1).*1 = (filter (fun item => is_Some item.2) (events rs)).*1 /\
  Forall (fun item => is_Some item.2) (events after.1) /\
  after = align_site_responses lsmr lstsq calculate_source_properties
            (existing rs) station response use_sparse.
Proof.
  simpl. pose proof (align_site_responses_same rs station response use_sparse) as Hsame.
  split; [|split].
  - by apply Forall2_same_event_ids in Hsame.
  - eapply Forall2_same_event_Some; [exact Hsame|]. simpl.
    apply Forall_forall. intros item Hin. apply list_elem_of_filter in Hin. tauto.
  - unfold align_site_responses at 2. fold (existing (existing rs)).
    by rewrite existing_idemp.
Qed.

End Events.

Lemma missing_events_removed_witness :
  (events (align_site_responses no_lsmr no_lstsq (fun rs => rs)
             with_missing_event None 1 true).1).*1
  = (filter (fun item => is_Some item.2) (events with_missing_event)).*1 /\
  Forall (fun item => is_Some item.2)
    (events (align_site_responses no_lsmr no_lstsq (fun rs => rs)
               with_missing_event None 1 true).1) /\
  align_site_responses no_lsmr no_lstsq (fun rs => rs) with_missing_event None 1 true
  = align_site_responses no_lsmr no_lstsq (fun rs => rs) (existing with_missing_event) None 1 true.
Proof.
  apply (missing_events_removed no_lsmr no_lstsq (fun rs => rs)).
  intros rs. reflexivity.
Defined.

(** *** The bridging option *)




(** *** Hull reduction *)

Lemma remove_dups_length_le {A} `{EqDecision A} (l : list A) :
  length (remove_dups l) <= length l.
Proof. induction l as [|x l IH]; simpl; [done|]. case_decide; simpl; lia. Qed.

Section Hulls.

Variable ConvexHull : list (R * R) -> result (list nat).
Hypothesis qhull : qhull_contract ConvexHull.

Lemma area_hull_degenerate coordinates station_by_coordinate stas :
  degenerate coordinates stas ->
  exists e, area_hull ConvexHull coordinates station_by_coordinate stas = Raise e.
Proof.
  intros Hdeg. unfold area_hull.
  destruct (mapM _ (elements stas)) as [points|e] eqn:Hpoints; simpl; [|by eexists].
  rewrite (qhull points (Hdeg points Hpoints)). by eexists.
Qed.

Lemma hull_reduction_foldM coordinates (areas hulls : list (string * gset string)) name stas :
  (name, stas) ∈ areas -> degenerate coordinates stas ->
  exists e,
    foldM (fun (hulls : list (string * gset string)) (area : string * gset string) =>
             hull ← area_hull ConvexHull coordinates (invert_coordinates coordinates) area.2;
             Ok (dict_set hulls area.1 hull))
          hulls areas = Raise e.
Proof.
  intros Hin Hdeg. revert hulls. induction areas as [|area areas IH]; intros hulls.
  { by apply elem_of_nil in Hin. }
  simpl. apply elem_of_cons in Hin as [<-|Hin].
  - simpl. destruct (area_hull_degenerate coordinates (invert_coordinates coordinates) stas Hdeg)
      as [e ->]. by eexists.
  - destruct (area_hull _ _ _ area.2) as [hull|e]; simpl; [by apply IH|by eexists].
Qed.

(** C6, amended. [scipy.spatial.ConvexHull] raises for fewer than three
    different points, and [_join_unconnected_areas] does not catch it: when
    some area has fewer than three different coordinate points, the hull
    reduction raises an error, and so does [_join_unconnected_areas]; no
    hull set is produced for that area. *)
Theorem hull_reduction_raises coordinates areas name stas :
  (name, stas) ∈ areas -> degenerate coordinates stas ->
  exists e, hull_reduction ConvexHull coordinates areas = Raise e /\
    forall join_by_distance max_distance inv,
      _collect_station_coordinates inv = Ok coordinates ->
      _join_unconnected_areas ConvexHull join_by_distance areas max_distance inv = Raise e.
Proof.
  intros Hin Hdeg.
  destruct (hull_reduction_foldM coordinates areas [] name stas Hin Hdeg) as [e He].
  exists e. split; [exact He|]. intros join_by_distance max_distance inv Hinv.
  unfold _join_unconnected_areas. rewrite Hinv. simpl.
  unfold hull_reduction. by rewrite He.
Qed.

End Hulls.

Lemma two_station_area_points :
  mapM (fun sta => of_option KeyError (dict_get two_station_coordinates sta))
       (elements ({["A"; "B"]}%string : gset string))
  = Ok [(0, 0); (1, 1)]%R.
Proof.
  assert (elements ({["A"; "B"]}%string : gset string) = ["A"; "B"]%string) as ->
    by (vm_compute; reflexivity).
  reflexivity.
Qed.

Lemma two_station_area_degenerate :
  degenerate two_station_coordinates {["A"; "B"]}%string.
Proof.
  intros points. rewrite two_station_area_points. intros [= <-].
  pose proof (remove_dups_length_le [(0, 0); (1, 1)]%R). simpl in *. lia.
Qed.

(** C6, as stated, fails: for an area of two stations the error of
    [ConvexHull] is the outcome of the hull reduction; the two stations are
    not taken as the hull. *)
Lemma hull_reduction_two_stations :
  degenerate two_station_coordinates {["A"; "B"]}%string /\
  forall ConvexHull, qhull_contract ConvexHull ->
    hull_reduction ConvexHull two_station_coordinates two_station_area = Raise QhullError.
Proof.
  split; [apply two_station_area_degenerate|]. intros ConvexHull Hq.
  assert (forall sbc, area_hull ConvexHull two_station_coordinates sbc {["A"; "B"]}%string
                      = Raise QhullError) as Hhull.
  { intros sbc. unfold area_hull. rewrite two_station_area_points.
    cbn [mbind result_bind]. rewrite Hq; [done|].
    pose proof (remove_dups_length_le [(0, 0); (1, 1)]%R). simpl in *. lia. }
  unfold hull_reduction, two_station_area. cbn [foldM snd fst mbind result_bind].
  by rewrite Hhull.
Qed.

(** A hull routine that keeps the contract: it raises for fewer than three
    different points and returns every index otherwise. *)
Lemma all_points_hull_contract : qhull_contract all_points_hull.
Proof. intros points H. unfold all_points_hull. by rewrite decide_True. Qed.

Lemma hull_reduction_raises_witness :
  exists e, hull_reduction all_points_hull two_station_coordinates two_station_area = Raise e /\
    forall join_by_distance max_distance inv,
      _collect_station_coordinates inv = Ok two_station_coordinates ->
      _join_unconnected_areas all_points_hull join_by_distance two_station_area max_distance inv
      = Raise e.
Proof.
  apply (hull_reduction_raises all_points_hull all_points_hull_contract
           two_station_coordinates two_station_area "A"%string {["A"; "B"]}%string).
  - by left.
  - apply two_station_area_degenerate.
Defined.

(** * The system builder *)

(** *** Rows *)

Lemma at_lookup x k v : x !! k = Some v -> at_ x k = v.
Proof. unfold at_. by intros ->. Qed.

Lemma dot_nil_l x : dot [] x = 0%R.
Proof. done. Qed.

Lemma dot_cons a A x :
  dot (a :: A) x = match x with [] => 0%R | v :: x' => (a * v + dot A x')%R end.
Proof. by destruct x. Qed.

Lemma dot_singleton a c : dot [a] [c] = (a * c)%R.
Proof. cbv [dot zip_with foldr]. lra. Qed.

Lemma dot_insert A x c d a :
  A !! c = Some a -> dot (<[c := d]> A) x = (dot A x + (d - a) * at_ x c)%R.
Proof.
  revert x c; induction A as [|a0 A IH]; intros x c; [done|].
  destruct c as [|c]; simpl.
  - intros [= ->]. rewrite !dot_cons. destruct x as [|v x]; unfold at_; simpl; lra.
  - intros Hc. rewrite !dot_cons. destruct x as [|v x].
    + unfold at_. simpl. lra.
    + rewrite (IH x c Hc). unfold at_. simpl. lra.
Qed.

Lemma dot_zeros n x : dot (replicate n 0%R) x = 0%R.
Proof.
  revert x; induction n as [|n IH]; intros x; simpl; [done|].
  rewrite dot_cons. destruct x as [|v x]; [done|]. rewrite IH. lra.
Qed.

Lemma dense_row_fold coldata Arow0 Arow x :
  NoDup coldata.*1 ->
  (forall c, c ∈ coldata.*1 -> Arow0 !! c = Some 0%R) ->
  foldM (fun Arow cd => if decide (cd.1 < length Arow) then Ok (<[cd.1 := cd.2]> Arow)
                        else Raise IndexError) Arow0 coldata = Ok Arow ->
  dot Arow x = (dot Arow0 x + row_sum coldata x)%R.
Proof.
  unfold row_sum, lin.
  revert Arow0; induction coldata as [|[c d] coldata IH]; intros Arow0 Hnd Hz; simpl.
  { intros [= ->]. lra. }
  apply NoDup_cons in Hnd as [Hc Hnd].
  case_decide as Hlt; simpl; [|done]. intros H.
  assert (forall c', c' ∈ coldata.*1 -> <[c := d]> Arow0 !! c' = Some 0%R) as Hz'.
  { intros c' Hc'. rewrite list_lookup_insert_ne; [apply Hz; by right|].
    intros ->. done. }
  rewrite (IH _ Hnd Hz' H).
  rewrite (dot_insert Arow0 x c d 0%R) by (apply Hz; by left). lra.
Qed.

Lemma dense_row_spec Ne coldata Arow x :
  NoDup coldata.*1 -> dense_row Ne coldata = Ok Arow -> dot Arow x = row_sum coldata x.
Proof.
  intros Hnd H. unfold dense_row in H.
  assert (forall c, c ∈ coldata.*1 -> replicate Ne 0%R !! c = Some 0%R) as Hz.
  { intros c Hc. apply lookup_replicate_2.
    clear Hnd. revert H Hc. generalize (length_replicate Ne 0%R).
    generalize (replicate Ne 0%R). intros A0 HA0. revert A0 HA0.
    induction coldata as [|[c' d] coldata IH]; intros A0 HA0; simpl; [by intros _ []%elem_of_nil|].
    case_decide as Hlt; simpl; [|done]. intros H [->|Hc]%elem_of_cons; [lia|].
    eapply (IH (<[c' := d]> A0)); [by rewrite length_insert|done..]. }
  rewrite (dense_row_fold coldata _ Arow x Hnd Hz H), dot_zeros. lra.
Qed.

Lemma sparse_row_value_app e1 e2 j x :
  sparse_row_value (e1 ++ e2) j x = (sparse_row_value e1 j x + sparse_row_value e2 j x)%R.
Proof.
  induction e1 as [|en e1 IH]; simpl; [lra|]. case_decide; rewrite IH; lra.
Qed.

Lemma sparse_row_value_other entries j x :
  Forall (fun en => en.2.1 <> j) entries -> sparse_row_value entries j x = 0%R.
Proof.
  induction 1 as [|en entries Hen _ IH]; simpl; [done|]. by rewrite decide_False.
Qed.

Lemma sparse_row_value_new (coldata : list (nat * R)) j x :
  sparse_row_value (zip (coldata.*2) (zip ((fun _ => j) <$> coldata) (coldata.*1))) j x
  = row_sum coldata x.
Proof.
  unfold sparse_row_value, row_sum, lin.
  induction coldata as [|[c d] coldata IH]; simpl; [done|].
  rewrite decide_True by done. f_equal. exact IH.
Qed.

Lemma zip_app_same {A B} (l1 l2 : list A) (k1 k2 : list B) :
  length l1 = length k1 -> zip (l1 ++ l2) (k1 ++ k2) = zip l1 k1 ++ zip l2 k2.
Proof.
  revert k1; induction l1 as [|a l1 IH]; intros [|b k1]; simpl; try done.
  intros [= H]. by rewrite IH.
Qed.

(** What [construct_ols] does to the system: the rows that were there stay,
    and the new row is the last one. *)
Lemma construct_ols_spec use_sparse Ne coldata b_val s s' :
  ols_wf s -> construct_ols use_sparse Ne coldata b_val s = Ok s' ->
  ols_wf s' /\
  (forall cd b, has_row s cd b -> has_row s' cd b) /\
  (NoDup coldata.*1 -> has_row s' coldata b_val).
Proof.
  intros [Hb Hwf]. unfold construct_ols.
  destruct use_sparse, (ols_Arepr s) as [data rows cols|Arows] eqn:HA; simpl; try done.
  - intros [= <-]. destruct Hwf as (Hr & Hc & Hlt).
    assert (zip (data ++ coldata.*2) (zip (rows ++ ((fun _ => ols_row s) <$> coldata))
                                          (cols ++ coldata.*1))
            = zip data (zip rows cols)
              ++ zip (coldata.*2) (zip ((fun _ => ols_row s) <$> coldata) (coldata.*1))) as Hzip.
    { rewrite (zip_app_same rows) by lia. rewrite zip_app_same; [done|].
      rewrite length_zip_with. lia. }
    assert (forall j, j < ols_row s -> forall x,
              sparse_row_value (zip (coldata.*2) (zip ((fun _ => ols_row s) <$> coldata)
                                                      (coldata.*1))) j x = 0%R) as Hold.
    { intros j Hj x. apply sparse_row_value_other. clear -Hj.
      induction coldata as [|[c d] coldata IH]; simpl; constructor; simpl; [lia|done]. }
    repeat split; simpl.
    + rewrite length_app. simpl. lia.
    + rewrite !length_app, !length_fmap. lia.
    + rewrite !length_app, !length_fmap. lia.
    + apply Forall_app. split.
      * eapply Forall_impl; [exact Hlt|]. simpl. lia.
      * apply Forall_fmap, Forall_forall. intros ? _. simpl. lia.
    + intros cd b (j & Hj & Hrow). exists j. simpl. split.
      * by apply lookup_app_l_Some.
      * intros x. rewrite <- Hrow, HA. simpl.
        rewrite Hzip, sparse_row_value_app, Hold; [lra|].
        apply lookup_lt_Some in Hj. lia.
    + intros _. exists (ols_row s). simpl. split.
      * rewrite lookup_app_r by lia. by rewrite Hb, Nat.sub_diag.
      * intros x. rewrite Hzip, sparse_row_value_app, sparse_row_value_new.
        rewrite sparse_row_value_other; [lra|].
        clear -Hr Hc Hlt. revert rows cols Hr Hc Hlt.
        induction data as [|d data IH]; intros [|r rows] [|c cols]; simpl; try done.
        intros [= Hr] [= Hc] [Hlt1 Hlt]%Forall_cons. constructor; simpl; [lia|eauto].
  - destruct (dense_row Ne coldata) as [Arow|] eqn:Hrow; simpl; [|done].
    intros [= <-]. repeat split; simpl.
    + rewrite length_app. simpl. lia.
    + rewrite length_app. simpl. lia.
    + intros cd b (j & Hj & Hval). exists j. simpl. split.
      * by apply lookup_app_l_Some.
      * intros x. rewrite <- Hval, HA. simpl.
        rewrite lookup_app_l; [done|]. apply lookup_lt_Some in Hj. lia.
    + intros Hnd. exists (ols_row s). simpl. split.
      * rewrite lookup_app_r by lia. by rewrite Hb, Nat.sub_diag.
      * intros x. rewrite lookup_app_r by lia. rewrite Hwf, Nat.sub_diag. simpl.
        by apply (dense_row_spec Ne).
Qed.

Lemma ols_init_wf use_sparse : ols_wf (ols_init use_sparse).
Proof. destruct use_sparse; repeat split; simpl; auto. Qed.

(** *** The loop over the events is a loop over the observations *)

Lemma foldM_app {A S} (step : S -> A -> result S) s l1 l2 :
  foldM step s (l1 ++ l2) = (s' ← foldM step s l1; foldM step s' l2).
Proof.
  revert s; induction l1 as [|a l1 IH]; intros s; simpl; [done|].
  destruct (step s a); simpl; [apply IH|done].
Qed.

Section Observations.

Variable use_sparse : bool.
Variable Ne : nat.
Variable station : option string.
Variable response : R.
Variable Nstations_i : gmap string nat.
Variable largest_area : gset string.

Notation observe_one' := (observe_one use_sparse Ne station response Nstations_i).
Notation in_area := (fun o => obs_station o ∈ largest_area).

Lemma observe_eq i k s sta Rsta :
  observe use_sparse Ne station response Nstations_i largest_area i k s (sta, Rsta)
  = match Rsta !! i with
    | None => Raise IndexError
    | Some (Num x) =>
        if decide (sta ∈ largest_area)
        then observe_one' s {| obs_event := k; obs_station := sta; obs_value := x |}
        else Ok s
    | Some _ => Ok s
    end.
Proof.
  unfold observe, observe_one, index. simpl.
  destruct (Rsta !! i) as [[| |x]|]; simpl; try done.
Qed.

Lemma observe_stations i k Rs s s' :
  foldM (observe use_sparse Ne station response Nstations_i largest_area i k) s Rs = Ok s' ->
  foldM observe_one' s (filter in_area (station_observations i k Rs)) = Ok s'.
Proof.
  revert s; induction Rs as [|[sta Rsta] Rs IH]; intros s; [done|].
  cbn [foldM station_observations]. rewrite observe_eq.
  destruct (Rsta !! i) as [[| |x]|]; simpl; try done; try apply IH.
  rewrite filter_cons. simpl. case_decide; [|apply IH]. simpl.
  destruct (observe_one' s _) as [s1|]; simpl; [apply IH|done].
Qed.

Lemma observe_events_flat i k evs s s' :
  observe_events use_sparse Ne station response Nstations_i largest_area i k s evs = Ok s' ->
  foldM observe_one' s (filter in_area (event_observations i k evs)) = Ok s'.
Proof.
  revert k s; induction evs as [|[evid e] evs IH]; intros k s; simpl; [done|].
  destruct e as [e|]; simpl; [|done].
  destruct (foldM _ s (res_R e)) as [s1|] eqn:H1; simpl; [|done].
  intros H. rewrite filter_app, foldM_app.
  rewrite (observe_stations _ _ _ _ _ H1). simpl. by apply IH.
Qed.

(** *** What the loop keeps *)

Lemma normalize_ols k sta x s s' :
  normalize station Nstations_i k sta x s = Ok s' -> bs_ols s' = bs_ols s.
Proof.
  unfold normalize. destruct station; [by intros [= <-]|].
  destruct (default 0 (Nstations_i !! sta)); [done|]. by intros [= <-].
Qed.

Lemma add_pair_rows k sta x s s' :
  add_pair use_sparse Ne station response k sta x s = Ok s' ->
  ols_wf (bs_ols s) ->
  ols_wf (bs_ols s') /\
  (forall cd b, has_row (bs_ols s) cd b -> has_row (bs_ols s') cd b) /\
  (Some sta = station -> has_row (bs_ols s') [(k, 1%R)] (ln response - ln x)%R).
Proof.
  unfold add_pair. intros H Hwf. case_decide as Hst.
  - destruct (construct_ols _ _ _ _ _) as [o|] eqn:Ho; simpl in H; [|done].
    injection H as <-. simpl.
    destruct (construct_ols_spec _ _ _ _ _ _ Hwf Ho) as (? & ? & Hnew).
    split; [done|split; [done|]]. intros _. apply Hnew. simpl. apply NoDup_singleton.
  - destruct (bs_last s !! sta) as [[kl Rstal]|].
    + destruct (construct_ols _ _ _ _ _) as [o|] eqn:Ho; simpl in H; [|done].
      injection H as <-. simpl.
      destruct (construct_ols_spec _ _ _ _ _ _ Hwf Ho) as (? & ? & _).
      split; [done|split; [done|]]. by intros ?.
    + injection H as <-. simpl. split; [done|split; [done|]]. by intros ?.
Qed.

Lemma observe_one_rows s o s' :
  observe_one' s o = Ok s' -> ols_wf (bs_ols s) ->
  ols_wf (bs_ols s') /\
  (forall cd b, has_row (bs_ols s) cd b -> has_row (bs_ols s') cd b) /\
  (Some (obs_station o) = station ->
   has_row (bs_ols s') [(obs_event o, 1%R)] (ln response - ln (obs_value o))%R).
Proof.
  unfold observe_one. intros H Hwf.
  destruct (normalize _ _ _ _ _ s) as [s1|] eqn:Hn; simpl in H; [|done].
  apply normalize_ols in Hn. rewrite <- Hn in Hwf |- *.
  by apply add_pair_rows.
Qed.

Lemma observations_rows obs s s' :
  foldM observe_one' s obs = Ok s' -> ols_wf (bs_ols s) ->
  ols_wf (bs_ols s') /\
  (forall cd b, has_row (bs_ols s) cd b -> has_row (bs_ols s') cd b) /\
  (forall o, o ∈ obs -> Some (obs_station o) = station ->
     has_row (bs_ols s') [(obs_event o, 1%R)] (ln response - ln (obs_value o))%R).
Proof.
  revert s; induction obs as [|o obs IH]; intros s; simpl.
  { intros [= <-] Hwf. split; [done|split; [done|]]. by intros o []%elem_of_nil. }
  destruct (observe_one' s o) as [s1|] eqn:H1; simpl; [|done].
  intros H Hwf.
  destruct (observe_one_rows _ _ _ H1 Hwf) as (Hwf1 & Hkeep1 & Hnew1).
  destruct (IH _ H Hwf1) as (Hwf' & Hkeep & Hnew).
  split; [done|split; [auto|]].
  intros o' [->|Hin]%elem_of_cons Hst; auto.
Qed.

(** *** The normalization row *)

Lemma lin_dict_add d k fac g :
  lin (dict_add d k fac) g = (lin d g + fac * g k)%R.
Proof.
  unfold dict_add, lin. induction d as [|[k' c] d IH]; simpl.
  { lra. }
  case_decide as Hk; simpl.
  - subst k'. lra.
  - assert (default 0%R (dict_get d k) = default 0%R (if decide (k' = k) then Some c else dict_get d k))
      as Hget by (by rewrite decide_False).
    rewrite IH. lra.
Qed.

Lemma dict_set_keys {V} (d : list (nat * V)) k v :
  NoDup d.*1 -> NoDup (dict_set d k v).*1 /\
  forall k', k' ∈ (dict_set d k v).*1 <-> k' = k \/ k' ∈ d.*1.
Proof.
  induction d as [|[k0 v0] d IH]; simpl.
  { intros _. split; [apply NoDup_singleton|]. intros k'. set_solver. }
  intros [Hk0 Hnd]%NoDup_cons. destruct (IH Hnd) as [IH1 IH2].
  case_decide as Hk; simpl.
  - subst k0. split; [by apply NoDup_cons|]. intros k'. set_solver.
  - split.
    + apply NoDup_cons. split; [|done]. rewrite IH2. intros [->|?]; done.
    + intros k'. rewrite !elem_of_cons, IH2. tauto.
Qed.

Lemma normalize_norm k sta x s s' :
  station = None ->
  normalize station Nstations_i k sta x s = Ok s' ->
  NoDup (norm_row_A s).*1 ->
  NoDup (norm_row_A s').*1 /\
  (forall g, lin (norm_row_A s') g = lin (norm_row_A s) g + weight Nstations_i sta * g k)%R /\
  norm_row_b s' = (norm_row_b s - weight Nstations_i sta * ln x)%R.
Proof.
  intros Hst. unfold normalize, weight. rewrite Hst.
  destruct (default 0 (Nstations_i !! sta)) as [|n]; [done|].
  intros [= <-] Hnd. simpl. split; [|split].
  - unfold dict_add. by apply dict_set_keys.
  - intros g. apply lin_dict_add.
  - lra.
Qed.

Lemma add_pair_norm k sta x s s' :
  add_pair use_sparse Ne station response k sta x s = Ok s' ->
  norm_row_A s' = norm_row_A s /\ norm_row_b s' = norm_row_b s.
Proof.
  unfold add_pair. case_decide.
  - destruct (construct_ols _ _ _ _ _); simpl; [|done]. by intros [= <-].
  - destruct (bs_last s !! sta) as [[kl Rstal]|].
    + destruct (construct_ols _ _ _ _ _); simpl; [|done]. by intros [= <-].
    + by intros [= <-].
Qed.

Lemma observations_norm obs s s' :
  station = None ->
  foldM observe_one' s obs = Ok s' ->
  NoDup (norm_row_A s).*1 ->
  NoDup (norm_row_A s').*1 /\
  (forall g, lin (norm_row_A s') g
             = lin (norm_row_A s) g
               + rsum (fun o => weight Nstations_i (obs_station o) * g (obs_event o)) obs)%R /\
  norm_row_b s'
  = (norm_row_b s
     - rsum (fun o => weight Nstations_i (obs_station o) * ln (obs_value o)) obs)%R.
Proof.
  intros Hst. revert s; induction obs as [|o obs IH]; intros s.
  { simpl. intros [= <-] Hnd. split; [done|split; [intros; lra|lra]]. }
  cbn [foldM rsum foldr].
  destruct (observe_one' s o) as [s2|] eqn:Hone; [|by simpl]. cbn [mbind result_bind].
  unfold observe_one in Hone.
  destruct (normalize station Nstations_i (obs_event o) (obs_station o) (obs_value o) s)
    as [s1|] eqn:Hn; [|by simpl in Hone]. cbn [mbind result_bind] in Hone.
  rename Hone into Ha.
  intros H Hnd.
  destruct (normalize_norm _ _ _ _ _ Hst Hn Hnd) as (Hnd1 & Hlin1 & Hb1).
  destruct (add_pair_norm _ _ _ _ _ Ha) as [HA2 Hb2].
  rewrite <- HA2 in Hnd1.
  destruct (IH _ H Hnd1) as (Hnd' & Hlin & Hb).
  split; [done|]. split.
  - intros g. rewrite Hlin, HA2, Hlin1. unfold rsum. lra.
  - rewrite Hb, Hb2, Hb1. unfold rsum. lra.
Qed.

(** *** The system of a band *)

Lemma build_system_rows i evs s :
  build_system use_sparse Ne station response Nstations_i largest_area i evs = Ok s ->
  let obs := filter in_area (event_observations i 0 evs) in
  (forall o, o ∈ obs -> Some (obs_station o) = station ->
     has_row s [(obs_event o, 1%R)] (ln response - ln (obs_value o))%R) /\
  (station = None ->
   exists A,
     has_row s A
       (ln response
        - rsum (fun o => weight Nstations_i (obs_station o) * ln (obs_value o)) obs)%R /\
     forall g, lin A g
               = rsum (fun o => weight Nstations_i (obs_station o) * g (obs_event o))%R obs).
Proof.
  unfold build_system.
  destruct (observe_events _ _ _ _ _ _ _ _ _ _) as [s1|] eqn:Hobs; simpl; [|done].
  apply observe_events_flat in Hobs. intros Hnorm.
  destruct (observations_rows _ _ _ Hobs (ols_init_wf use_sparse)) as (Hwf & _ & Hpin).
  split.
  - intros o Hin Hst. specialize (Hpin o Hin Hst).
    unfold normalization_row in Hnorm. rewrite <- Hst in Hnorm. by injection Hnorm as <-.
  - intros Hst. unfold normalization_row in Hnorm. rewrite Hst in Hnorm.
    destruct (observations_norm _ _ _ Hst Hobs) as (Hnd & Hlin & Hb); [constructor|].
    destruct (construct_ols_spec _ _ _ _ _ _ Hwf Hnorm) as (_ & _ & Hnew).
    exists (norm_row_A s1). split.
    + specialize (Hnew Hnd). simpl in Hb. rewrite Hb in Hnew.
      replace (ln response - _)%R with (0 - rsum
        (fun o => weight Nstations_i (obs_station o) * ln (obs_value o))
        (filter in_area (event_observations i 0 evs)) + ln response)%R by lra.
      exact Hnew.
    + intros g. rewrite Hlin. simpl. unfold lin. simpl. lra.
Qed.

End Observations.

(** * The factors *)

Lemma set_column_length F j col F' : set_column F j col = Ok F' -> length F' = length F.
Proof.
  unfold set_column. case_decide as Hlen.
  - intros [= <-]. rewrite length_zip_with. lia.
  - destruct col as [|c [|]]; try done. intros [= <-]. by rewrite length_fmap.
Qed.

Lemma set_column_rows F j col F' n :
  set_column F j col = Ok F' -> Forall (fun row => length row = n) F ->
  Forall (fun row => length row = n) F'.
Proof.
  unfold set_column. intros H HF. case_decide as Hlen.
  - injection H as <-. apply Forall_lookup. intros k row' Hk.
    rewrite lookup_zip_with in Hk.
    destruct (F !! k) as [row|] eqn:Hrow; simpl in Hk; [|done].
    destruct (col !! k) as [c|]; simpl in Hk; [|done]. injection Hk as <-.
    rewrite length_insert. rewrite Forall_lookup in HF. eauto.
  - destruct col as [|c [|]]; try done. injection H as <-.
    apply Forall_fmap. eapply Forall_impl; [exact HF|]. simpl. intros row <-.
    by rewrite length_insert.
Qed.

Lemma set_column_other F j col F' k i :
  set_column F j col = Ok F' -> i <> j -> factor_at F' k i = factor_at F k i.
Proof.
  unfold set_column, factor_at, index. intros H Hij. case_decide as Hlen.
  - injection H as <-. rewrite lookup_zip_with.
    destruct (F !! k) as [row|] eqn:Hrow; simpl; [|done].
    destruct (col !! k) as [c|] eqn:Hc; simpl.
    + by rewrite list_lookup_insert_ne.
    + apply lookup_ge_None in Hc. apply lookup_lt_Some in Hrow. lia.
  - destruct col as [|c [|]]; try done. injection H as <-.
    rewrite list_lookup_fmap. destruct (F !! k) as [row|]; simpl; [|done].
    by rewrite list_lookup_insert_ne.
Qed.

Lemma set_column_same F j col F' k f :
  set_column F j col = Ok F' -> length col = length F ->
  factor_at F' k j = Ok f -> col !! k = Some f.
Proof.
  unfold set_column, factor_at, index. intros H Hlen. rewrite decide_True in H by done.
  injection H as <-. rewrite lookup_zip_with.
  destruct (F !! k) as [row|] eqn:Hrow; simpl; [|done].
  destruct (col !! k) as [c|] eqn:Hc; simpl; [|done].
  destruct (decide (j < length row)) as [Hj|Hj].
  - rewrite list_lookup_insert_eq by done. simpl. by intros [= <-].
  - rewrite list_insert_ge by lia. rewrite lookup_ge_None_2 by lia. done.
Qed.

Section Factors.

Variable lsmr : list R -> list nat -> list nat -> nat * nat -> list R -> result (list R).
Variable lstsq : list (list R) -> list R -> result (list R).

Lemma align_band_Ok rs station response use_sparse Ne Nstations F0 i F1 :
  align_band lsmr lstsq rs station response use_sparse Ne Nstations F0 i = Ok F1 ->
  exists s x,
    band_system rs station response use_sparse Ne Nstations i = Ok s /\
    solve lsmr lstsq use_sparse Ne s = Ok x /\
    set_column F0 i (exp <$> x) = Ok F1.
Proof.
  unfold align_band.
  destruct (band_system _ _ _ _ _ _ _) as [s|] eqn:Hs; simpl; [|done].
  destruct (solve _ _ _ _ _) as [x|] eqn:Hx; simpl; [|done].
  intros H. by exists s, x.
Qed.

Lemma align_bands_shape rs station response use_sparse Ne Nstations range F0 F n :
  foldM (align_band lsmr lstsq rs station response use_sparse Ne Nstations) F0 range = Ok F ->
  has_shape F0 Ne n -> has_shape F Ne n.
Proof.
  revert F0; induction range as [|i range IH]; intros F0; cbn [foldM].
  { by intros [= <-]. }
  destruct (align_band _ _ _ _ _ _ _ _ F0 i) as [F1|] eqn:H1; [|by simpl].
  cbn [mbind result_bind].
  apply align_band_Ok in H1 as (s & x & _ & _ & Hset).
  intros H [Hlen Hrows]. apply (IH _ H). split.
  - by rewrite (set_column_length _ _ _ _ Hset).
  - by eapply set_column_rows.
Qed.

(** The column of band [i] holds the exponentials of the solution of the
    system of band [i]. *)
Lemma align_bands_column rs station response use_sparse Ne Nstations range F0 F i :
  foldM (align_band lsmr lstsq rs station response use_sparse Ne Nstations) F0 range = Ok F ->
  NoDup range -> i ∈ range -> length F0 = Ne ->
  exists s x,
    band_system rs station response use_sparse Ne Nstations i = Ok s /\
    solve lsmr lstsq use_sparse Ne s = Ok x /\
    (length x = Ne -> forall k f, factor_at F k i = Ok f -> x !! k <> None /\ f = exp (at_ x k)).
Proof.
  revert F0; induction range as [|j range IH]; intros F0; cbn [foldM].
  { by intros _ _ []%elem_of_nil. }
  destruct (align_band _ _ _ _ _ _ _ _ F0 j) as [F1|] eqn:H1; [|by simpl].
  cbn [mbind result_bind].
  apply align_band_Ok in H1 as (s & x & Hs & Hx & Hset).
  intros H [Hj Hnd]%NoDup_cons [->|Hi]%elem_of_cons HF0.
  - exists s, x. split; [done|]. split; [done|]. intros Hlen k f Hf.
    assert (forall F1 F, foldM (align_band lsmr lstsq rs station response use_sparse Ne Nstations)
                           F1 range = Ok F -> factor_at F k j = factor_at F1 k j) as Hrest.
    { clear -Hj. induction range as [|j' range IH]; intros F1 F; cbn [foldM].
      { by intros [= <-]. }
      destruct (align_band _ _ _ _ _ _ _ _ F1 j') as [F2|] eqn:H1; [|by simpl].
      cbn [mbind result_bind].
      apply align_band_Ok in H1 as (s' & x' & _ & _ & Hset).
      apply not_elem_of_cons in Hj as [Hne Hj].
      intros H. rewrite (IH Hj _ _ H).
      by apply (set_column_other _ _ _ _ _ _ Hset). }
    rewrite (Hrest _ _ H) in Hf.
    apply (set_column_same _ _ _ _ _ _ Hset) in Hf; [|rewrite length_fmap; lia].
    rewrite list_lookup_fmap in Hf.
    destruct (x !! k) as [v|] eqn:Hv; simpl in Hf; [|done].
    injection Hf as <-. split; [done|]. by rewrite (at_lookup _ _ _ Hv).
  - apply (IH _ H Hnd Hi). by rewrite (set_column_length _ _ _ _ Hset).
Qed.

Lemma compute_factors_spec rs station response use_sparse F :
  compute_factors lsmr lstsq rs station response use_sparse = Ok F ->
  let Ne := length (events rs) in
  let us := if decide (Ne = 1) then false else use_sparse in
  exists Nf Nstations,
    _get_number_of_freqs rs = Ok (Some Nf) /\
    count_events Nf (events rs) = Ok Nstations /\
    has_shape F Ne Nf /\
    forall i, i < Nf ->
      exists s x,
        band_system rs station response us Ne Nstations i = Ok s /\
        solve lsmr lstsq us Ne s = Ok x /\
        (length x = Ne ->
         forall k f, factor_at F k i = Ok f -> x !! k <> None /\ f = exp (at_ x k)).
Proof.
  unfold compute_factors. cbn zeta.
  destruct (_get_number_of_freqs rs) as [[Nf|]|] eqn:HNf; try (by simpl).
  cbn [mbind result_bind py_range of_option fmap option_fmap option_map].
  rewrite length_seq.
  destruct (count_events Nf (events rs)) as [Nstations|] eqn:HN; [|by simpl].
  cbn [mbind result_bind].
  intros H. exists Nf, Nstations. split; [done|]. split; [done|]. split.
  - eapply align_bands_shape; [exact H|]. split.
    + by rewrite length_replicate.
    + apply Forall_forall. intros row Hrow. apply elem_of_replicate in Hrow as [-> _].
      by rewrite length_replicate.
  - intros i Hi. eapply align_bands_column; [exact H|apply NoDup_seq| |].
    + apply elem_of_seq. lia.
    + by rewrite length_replicate.
Qed.

End Factors.

(** *** Observations and the result dictionary *)

Lemma station_observations_get i k Rs sta Rsta a :
  dict_get Rs sta = Some Rsta -> Rsta !! i = Some (Num a) ->
  {| obs_event := k; obs_station := sta; obs_value := a |} ∈ station_observations i k Rs.
Proof.
  induction Rs as [|[s l] Rs IH]; simpl; [done|].
  case_decide as Hs.
  - intros [= ->] Ha. subst s. rewrite Ha. by left.
  - intros Hget Ha. specialize (IH Hget Ha).
    destruct (l !! i) as [[| |x]|]; try done. by right.
Qed.

Lemma event_observations_lookup i k0 evs n item o :
  evs !! n = Some item ->
  o ∈ station_observations i (k0 + n) (default [] (res_R <$> item.2)) ->
  o ∈ event_observations i k0 evs.
Proof.
  revert k0 n; induction evs as [|it evs IH]; intros k0 n; [done|].
  destruct n as [|n]; simpl.
  - intros [= ->]. rewrite Nat.add_0_r. intros Ho. apply elem_of_app. by left.
  - intros Hn Ho. apply elem_of_app. right. apply (IH (S k0) n); [done|].
    by rewrite Nat.add_succ_comm.
Qed.

Lemma amplification_observation rs k sta i a :
  amplification rs k sta i = Some (Num a) ->
  {| obs_event := k; obs_station := sta; obs_value := a |} ∈ valid_observations i rs.
Proof.
  unfold amplification, valid_observations.
  destruct (events rs !! k) as [item|] eqn:Hk; simpl; [|done].
  destruct (item.2) as [e|] eqn:He; simpl; [|done].
  destruct (dict_get (res_R e) sta) as [Rsta|] eqn:Hget; simpl; [|done].
  intros Ha. eapply (event_observations_lookup i 0); [exact Hk|].
  rewrite He. simpl. by eapply station_observations_get.
Qed.

Lemma energy_lt rs Nf k i w :
  _get_number_of_freqs rs = Ok (Some Nf) -> energy rs k i = Some w ->
  k < length (events rs) /\ i < Nf.
Proof.
  intros HNf. unfold energy.
  destruct (events rs !! k) as [item|] eqn:Hk; simpl; [|done].
  destruct (item.2) as [e|] eqn:He; simpl; [|done].
  intros Hw. split; [by eapply lookup_lt_Some|].
  rewrite <- (number_of_freqs_loop_length _ _ _ _ _ _ HNf Hk He).
  by eapply lookup_lt_Some.
Qed.

Lemma exp_ln_diff r a : (0 < r)%R -> (0 < a)%R -> (a * exp (ln r - ln a) = r)%R.
Proof.
  intros Hr Ha. unfold Rminus. rewrite exp_plus, exp_Ropp, !exp_ln by done.
  field. lra.
Qed.

Section Pinned.

Variable lsmr : list R -> list nat -> list nat -> nat * nat -> list R -> result (list R).
Variable lstsq : list (list R) -> list R -> result (list R).
Variable calculate_source_properties : results -> results.
Hypothesis csp_frame : keeps_events calculate_source_properties.

(** What a successful call is made of. *)
Lemma align_site_responses_Ok rs station response use_sparse rs' :
  align_site_responses lsmr lstsq calculate_source_properties rs station response use_sparse
  = (rs', Ok tt) ->
  exists F rs2,
    compute_factors lsmr lstsq (existing rs) station response use_sparse = Ok F /\
    _rescale_results (existing rs) F = (rs2, Ok tt) /\
    events rs' = events rs2.
Proof.
  unfold align_site_responses. fold (existing rs). simpl.
  destruct (compute_factors _ _ _ _ _ _) as [F|]; [|done].
  destruct (_rescale_results (existing rs) F) as [rs2 [[]|]] eqn:Hrs; [|done].
  intros [= <-]. exists F, rs2. by rewrite csp_frame.
Qed.

Lemma cell_eq rs k sta i :
  cell k sta i (events rs) = (energy rs k i, amplification rs k sta i).
Proof. by destruct rs. Qed.

Lemma amplification_events rs rs' k sta i :
  events rs' = events rs -> amplification rs' k sta i = amplification rs k sta i.
Proof. unfold amplification. by intros ->. Qed.


End Pinned.

(** *** Examples *)

Ltac eval_decide_in H :=
  repeat (cbn in H;
          first [ rewrite decide_True in H by (done || set_solver)
                | rewrite decide_False in H by (done || set_solver) ]);
  cbn in H.

Lemma pinned_example_existing : existing pinned_example = pinned_example.
Proof. vm_compute. reflexivity. Qed.

Lemma pinned_example_exact :
  exact_on no_lsmr rhs_lstsq (existing pinned_example) (Some "S"%string) 1 true.
Proof.
  rewrite pinned_example_existing. unfold exact_on. intros Nf Nstations i s x _ _ Hs Hx.
  unfold band_system in Hs.
  destruct i as [|i]; [|by vm_compute in Hs].
  assert (selected_area pinned_example 0 = Ok {["S"%string]}) as Hsel
    by (vm_compute; reflexivity).
  rewrite Hsel in Hs. cbn [mbind result_bind] in Hs.
  destruct (index Nstations 0) as [N|]; [|done]. cbn [mbind result_bind] in Hs.
  eval_decide_in Hs. injection Hs as <-.
  eval_decide_in Hx. injection Hx as <-.
  split; [|done]. intros j bj Hj. destruct j as [|j]; [|done].
  injection Hj as <-. simpl. rewrite dot_singleton. lra.
Qed.



(** * The normalization row *)

(** *** Counting the observations *)

Lemma tally_app l1 l2 N : tally (l1 ++ l2) N = tally l2 (tally l1 N).
Proof. unfold tally. by rewrite foldl_app. Qed.

Lemma tally_lookup l N sta :
  default 0 (tally l N !! sta) = default 0 (N !! sta) + length (filter (fun s => s = sta) l).
Proof.
  revert N; induction l as [|s l IH]; intros N; simpl; [lia|].
  unfold tally in *. simpl. rewrite IH. rewrite filter_cons.
  destruct (decide (s = sta)) as [->|Hne]; simpl.
  - rewrite lookup_insert_eq. simpl. lia.
  - by rewrite lookup_insert_ne.
Qed.

Lemma tally_dom l N : dom (tally l N) = dom N ∪ list_to_set l.
Proof.
  revert N; induction l as [|s l IH]; intros N; simpl; [set_solver|].
  unfold tally in *. simpl. rewrite IH, dom_insert_L. set_solver.
Qed.

Lemma tally_positive l sta n : tally l ∅ !! sta = Some n -> 0 < n.
Proof.
  intros Hn. pose proof (tally_lookup l ∅ sta) as Hc. rewrite Hn, lookup_empty in Hc.
  simpl in Hc. assert (sta ∈ dom (tally l ∅)) as Hd by (apply elem_of_dom; eauto).
  rewrite tally_dom, dom_empty_L in Hd.
  assert (sta ∈ l) as Hin by set_solver.
  assert (sta ∈ filter (fun s => s = sta) l) as Hf by (by apply list_elem_of_filter).
  destruct (filter (fun s => s = sta) l); [by apply elem_of_nil in Hf|]. simpl in Hc. lia.
Qed.

Lemma station_observations_stations i k k' Rs :
  obs_station <$> station_observations i k Rs = obs_station <$> station_observations i k' Rs.
Proof.
  induction Rs as [|[sta Rsta] Rs IH]; simpl; [done|].
  destruct (Rsta !! i) as [[| |x]|]; simpl; try done. by f_equal.
Qed.

Lemma event_observations_stations i k k' evs :
  obs_station <$> event_observations i k evs = obs_station <$> event_observations i k' evs.
Proof.
  revert k k'; induction evs as [|item evs IH]; intros k k'; simpl; [done|].
  rewrite !fmap_app. f_equal; [apply station_observations_stations|apply IH].
Qed.

Lemma count_stations_tally i k N Rs N' :
  count_stations i N Rs = Ok N' ->
  N' = tally (obs_station <$> station_observations i k Rs) N.
Proof.
  revert N; induction Rs as [|[sta Rsta] Rs IH]; intros N; simpl.
  { by intros [= <-]. }
  unfold index. destruct (Rsta !! i) as [v|]; simpl; [|done].
  destruct v as [| |x]; simpl; intros H; by rewrite (IH _ H).
Qed.

Lemma count_event_bands (item : string * option eres) range Nst Nst' :
  foldM (fun (Nst : list (gmap string nat)) i =>
           Rs ← get_R item.2;
           N ← index Nst i;
           N' ← count_stations i N Rs;
           Ok (<[i := N']> Nst)) Nst range = Ok Nst' ->
  NoDup range ->
  length Nst' = length Nst /\
  forall i N, Nst !! i = Some N ->
    Nst' !! i = Some (if decide (i ∈ range)
                      then tally (obs_station <$> station_observations i 0
                                    (default [] (res_R <$> item.2))) N
                      else N).
Proof.
  set (step := fun (Nst : list (gmap string nat)) (i : nat) => _).
  revert Nst; induction range as [|j range IH]; intros Nst.
  { cbn [foldM]. intros [= <-] _. split; [done|]. intros i N HN.
    case_decide as Hin; [by apply elem_of_nil in Hin|done]. }
  cbn [foldM]. destruct (step Nst j) as [Nst1|] eqn:H1; [|by simpl].
  cbn [mbind result_bind]. unfold step in H1.
  destruct item as [evid [e|]]; simpl in H1; [|done].
  unfold index in H1. destruct (Nst !! j) as [Nj|] eqn:Hj; simpl in H1; [|done].
  destruct (count_stations j Nj (res_R e)) as [Nj'|] eqn:Hc; simpl in H1; [|done].
  injection H1 as <-.
  intros H [Hjr Hnd]%NoDup_cons.
  destruct (IH _ H Hnd) as [Hlen Hlook]. rewrite length_insert in Hlen.
  split; [done|]. intros i N HN. simpl.
  destruct (decide (i = j)) as [->|Hne].
  - rewrite (Hlook j Nj').
    + rewrite decide_False by done. rewrite decide_True by (by left).
      rewrite Hj in HN. injection HN as <-.
      by rewrite (count_stations_tally _ 0 _ _ _ Hc).
    + rewrite list_lookup_insert_eq; [done|]. by eapply lookup_lt_Some.
  - rewrite (Hlook i N) by (by rewrite list_lookup_insert_ne).
    destruct (decide (i ∈ range)).
    + by rewrite decide_True by (by right).
    + rewrite decide_False; [done|]. by intros [?|?]%elem_of_cons.
Qed.

Lemma count_event_spec Nf item Nst Nst' :
  count_event Nf Nst item = Ok Nst' -> length Nst = Nf ->
  length Nst' = Nf /\
  forall i N, Nst !! i = Some N ->
    Nst' !! i = Some (tally (obs_station <$> station_observations i 0
                               (default [] (res_R <$> item.2))) N).
Proof.
  unfold count_event. intros H Hlen.
  destruct (count_event_bands _ _ _ _ H (NoDup_seq 0 Nf)) as [Hlen' Hlook].
  split; [lia|]. intros i N HN. rewrite (Hlook i N HN).
  rewrite decide_True; [done|]. apply elem_of_seq. apply lookup_lt_Some in HN. lia.
Qed.

Lemma count_events_fold Nf evs Nst0 Nst k :
  foldM (count_event Nf) Nst0 evs = Ok Nst -> length Nst0 = Nf ->
  forall i N0, Nst0 !! i = Some N0 ->
    Nst !! i = Some (tally (obs_station <$> event_observations i k evs) N0).
Proof.
  revert Nst0 k; induction evs as [|item evs IH]; intros Nst0 k; cbn [foldM].
  { intros [= <-] _ i N0 HN. done. }
  destruct (count_event Nf Nst0 item) as [Nst1|] eqn:H1; [|by simpl].
  cbn [mbind result_bind]. intros H Hlen i N0 HN.
  destruct (count_event_spec _ _ _ _ H1 Hlen) as [Hlen1 Hlook].
  rewrite (IH _ (S k) H Hlen1 i _ (Hlook i N0 HN)).
  simpl. rewrite fmap_app, tally_app.
  by rewrite (station_observations_stations i k 0).
Qed.

(** The counts of lines 195-202: the entry of a station in [Nstations[i]]
    is the number of its valid observations in band [i], over all events. *)
Lemma count_events_spec Nf rs Nstations i :
  count_events Nf (events rs) = Ok Nstations -> i < Nf ->
  Nstations !! i = Some (tally (obs_station <$> valid_observations i rs) ∅).
Proof.
  unfold count_events, valid_observations. intros H Hi.
  apply (count_events_fold _ _ _ _ 0 H); [by rewrite length_replicate|].
  by apply lookup_replicate_2.
Qed.

Lemma times_observed_fmap sta obs :
  times_observed sta obs = length (filter (fun s => s = sta) (obs_station <$> obs)).
Proof.
  unfold times_observed. induction obs as [|o obs IH]; simpl; [done|].
  rewrite !filter_cons. simpl. case_decide; simpl; by rewrite IH.
Qed.

(** *** Sums *)

Lemma rsum_app {A} (f : A -> R) l1 l2 : rsum f (l1 ++ l2) = (rsum f l1 + rsum f l2)%R.
Proof. unfold rsum. induction l1 as [|a l1 IH]; simpl; [lra|]. rewrite IH. lra. Qed.

Lemma rsum_ext_in {A} (f g : A -> R) l :
  (forall a, a ∈ l -> f a = g a) -> rsum f l = rsum g l.
Proof.
  unfold rsum. induction l as [|a l IH]; intros H; simpl; [done|].
  rewrite (H a) by (by left). rewrite IH; [done|]. intros b Hb. apply H. by right.
Qed.

Lemma rsum_fmap {A B} (f : B -> R) (h : A -> B) l : rsum f (h <$> l) = rsum (fun a => f (h a)) l.
Proof. unfold rsum. induction l as [|a l IH]; simpl; [done|]. by f_equal. Qed.

Lemma rsum_plus {A} (f g : A -> R) l :
  rsum (fun a => f a + g a)%R l = (rsum f l + rsum g l)%R.
Proof. unfold rsum. induction l as [|a l IH]; simpl; [lra|]. rewrite IH. lra. Qed.

Lemma rsum_scal {A} (f : A -> R) c l : rsum (fun a => f a * c)%R l = (rsum f l * c)%R.
Proof. unfold rsum. induction l as [|a l IH]; simpl; [lra|]. rewrite IH. lra. Qed.

Lemma rsum_const {A} (c : R) (l : list A) : rsum (fun _ => c) l = (INR (length l) * c)%R.
Proof.
  unfold rsum. induction l as [|a l IH]; [simpl; lra|].
  cbn [foldr length]. rewrite IH, S_INR. lra.
Qed.

Lemma rsum_filter_split {A} (f : A -> R) (P : A -> Prop) `{!forall a, Decision (P a)} l :
  rsum f l = (rsum f (filter P l) + rsum f (filter (fun a => ¬ P a) l))%R.
Proof.
  induction l as [|a l IH]; [unfold rsum; simpl; lra|].
  rewrite !filter_cons. change (rsum f (a :: l)) with (f a + rsum f l)%R.
  destruct (decide (P a)).
  - rewrite decide_False by tauto.
    change (rsum f (a :: filter P l)) with (f a + rsum f (filter P l))%R. lra.
  - rewrite decide_True by done.
    change (rsum f (a :: filter (fun a => ¬ P a) l))
      with (f a + rsum f (filter (fun a => ¬ P a) l))%R. lra.
Qed.

Lemma filter_filter_length (l : list string) (Q : string -> Prop)
    `{!forall a, Decision (Q a)} s :
  Q s -> length (filter (fun t => t = s) (filter Q l)) = length (filter (fun t => t = s) l).
Proof.
  intros HQ. induction l as [|a l IH]; [done|].
  rewrite (filter_cons Q). destruct (decide (Q a)).
  - rewrite !filter_cons. case_decide; simpl; by rewrite IH.
  - rewrite IH. rewrite filter_cons_False; [done|]. by intros ->.
Qed.

(** Each station weighs one over the number of its occurrences: the
    weights add up to the number of different stations. *)
Lemma sum_inverse_counts (l : list string) :
  rsum (fun s => / INR (length (filter (fun t => t = s) l)))%R l
  = INR (size (list_to_set l : gset string)).
Proof.
  remember (length l) as n eqn:Hn. revert l Hn.
  induction n as [n IH] using lt_wf_ind. intros l Hn.
  destruct l as [|s0 l'].
  { unfold rsum. cbn [foldr list_to_set]. by rewrite size_empty. }
  set (l := s0 :: l') in *.
  rewrite (rsum_filter_split _ (fun s => s = s0)).
  assert (s0 ∈ filter (fun s => s = s0) l) as Hs0.
  { apply list_elem_of_filter. split; [done|]. by left. }
  (* the occurrences of s0 weigh one together *)
  rewrite (rsum_ext_in _ (fun _ => / INR (length (filter (fun t => t = s0) l)))%R
             (filter (fun s => s = s0) l)).
  2:{ intros s Hs. apply list_elem_of_filter in Hs as [-> _]. done. }
  rewrite rsum_const.
  assert (0 < length (filter (fun s => s = s0) l)) as Hpos.
  { destruct (filter (fun s => s = s0) l); [by apply elem_of_nil in Hs0|simpl; lia]. }
  rewrite Rinv_r by (apply not_0_INR; lia).
  (* the others are counted among themselves *)
  set (l'' := filter (fun s => ¬ s = s0) l).
  rewrite (rsum_ext_in _ (fun s => / INR (length (filter (fun t => t = s) l'')))%R l'').
  2:{ intros s Hs. apply list_elem_of_filter in Hs as [Hne _].
      unfold l''. by rewrite (filter_filter_length l (fun s => ¬ s = s0) s Hne). }
  assert (length l'' < n) as Hlt.
  { subst n. unfold l'', l. rewrite filter_cons_False by tauto.
    pose proof (length_filter (fun s => ¬ s = s0) l'). simpl. lia. }
  rewrite (IH _ Hlt l'' eq_refl).
  assert ((list_to_set l : gset string) = {[s0]} ∪ list_to_set l'') as ->.
  { apply set_eq. intros s. rewrite elem_of_union, elem_of_singleton, !elem_of_list_to_set.
    unfold l''. rewrite list_elem_of_filter. unfold l. rewrite elem_of_cons.
    destruct (decide (s = s0)); tauto. }
  rewrite size_union.
  2:{ apply disjoint_singleton_l. rewrite elem_of_list_to_set. unfold l''.
      rewrite list_elem_of_filter. tauto. }
  rewrite size_singleton, plus_INR. simpl. lra.
Qed.

(** *** The total weight of the normalization row *)

Lemma fmap_filter_station (area : gset string) (obs : list observation) :
  obs_station <$> filter (fun o => obs_station o ∈ area) obs
  = filter (fun s => s ∈ area) (obs_station <$> obs).
Proof.
  induction obs as [|o obs IH]; [done|].
  rewrite fmap_cons, !filter_cons. case_decide; [rewrite fmap_cons|]; by rewrite IH.
Qed.

Lemma weight_tally l sta :
  weight (tally l ∅) sta
  = (/ INR (length (filter (fun t => t = sta) l)) * / INR (size (list_to_set l : gset string)))%R.
Proof.
  unfold weight. rewrite tally_lookup, lookup_empty. simpl.
  rewrite <- (size_dom (tally l ∅)), tally_dom, dom_empty_L, (left_id_L ∅ (∪)).
  unfold Rdiv. lra.
Qed.

(** The weights of the observations within [area] add up to the share of
    the stations of [area] among the observed stations. *)
Lemma weights_total i area rs :
  let N := tally (obs_station <$> valid_observations i rs) ∅ in
  rsum (fun o => weight N (obs_station o)) (observations i area rs)
  = (INR (size (list_to_set (obs_station <$> observations i area rs) : gset string))
     / INR (size N))%R.
Proof.
  intros N. unfold N.
  rewrite <- (rsum_fmap (weight _) obs_station).
  unfold observations. rewrite fmap_filter_station.
  set (l := obs_station <$> valid_observations i rs).
  rewrite (rsum_ext_in _ (fun s => / INR (length (filter (fun t => t = s)
                                                  (filter (fun s => s ∈ area) l)))
                                   * / INR (size (list_to_set l : gset string)))%R).
  2:{ intros s Hs. apply list_elem_of_filter in Hs as [Hs _].
      rewrite weight_tally. f_equal. f_equal. f_equal.
      symmetry. apply (filter_filter_length l (fun s => s ∈ area) s Hs). }
  rewrite (rsum_scal (fun s => / INR (length (filter (fun t => t = s)
                                               (filter (fun s => s ∈ area) l))))%R).
  rewrite sum_inverse_counts.
  rewrite <- (size_dom (tally l ∅)), tally_dom, dom_empty_L, (left_id_L ∅ (∪)).
  unfold Rdiv. done.
Qed.

Lemma filter_all {A} (P : A -> Prop) `{!forall a, Decision (P a)} (l : list A) :
  (forall a, a ∈ l -> P a) -> filter P l = l.
Proof.
  induction l as [|a l IH]; intros Hall; [done|].
  rewrite filter_cons_True by (apply Hall; by left).
  f_equal. apply IH. intros b Hb. apply Hall. by right.
Qed.

Lemma weights_total_covering i area rs :
  (forall o, o ∈ valid_observations i rs -> obs_station o ∈ area) ->
  valid_observations i rs <> [] ->
  rsum (fun o => weight (tally (obs_station <$> valid_observations i rs) ∅) (obs_station o))
       (observations i area rs) = 1%R.
Proof.
  intros Hcover Hne. rewrite weights_total.
  assert (observations i area rs = valid_observations i rs) as ->.
  { unfold observations. by apply filter_all. }
  rewrite <- (size_dom (tally _ ∅)), tally_dom, dom_empty_L, (left_id_L ∅ (∪)).
  apply Rinv_r. apply not_0_INR.
  destruct (valid_observations i rs) as [|o l]; [done|].
  rewrite fmap_cons, list_to_set_cons.
  intros Hs. apply size_empty_inv in Hs. set_solver.
Qed.

(** *** Observations and amplifications *)

Lemma station_observations_elem i k Rs o :
  o ∈ station_observations i k Rs ->
  obs_event o = k /\
  exists Rsta, (obs_station o, Rsta) ∈ Rs /\ Rsta !! i = Some (Num (obs_value o)).
Proof.
  induction Rs as [|[sta Rsta] Rs IH]; simpl; [by intros []%elem_of_nil|].
  destruct (Rsta !! i) as [[| |x]|] eqn:Hx.
  - intros [? (l & ? & ?)]%IH. split; [done|]. exists l. split; [by right|done].
  - intros [? (l & ? & ?)]%IH. split; [done|]. exists l. split; [by right|done].
  - intros [->|[? (l & ? & ?)]%IH]%elem_of_cons.
    + split; [done|]. exists Rsta. split; [by left|done].
    + split; [done|]. exists l. split; [by right|done].
  - intros [? (l & ? & ?)]%IH. split; [done|]. exists l. split; [by right|done].
Qed.

Lemma event_observations_elem i k0 evs o :
  o ∈ event_observations i k0 evs ->
  exists n item, evs !! n = Some item /\ obs_event o = k0 + n /\
                 o ∈ station_observations i (k0 + n) (default [] (res_R <$> item.2)).
Proof.
  revert k0; induction evs as [|item evs IH]; intros k0; simpl.
  { by intros []%elem_of_nil. }
  intros [Ho|Ho]%elem_of_app.
  - exists 0, item. rewrite Nat.add_0_r. split; [done|]. split; [|done].
    by apply station_observations_elem in Ho as [? _].
  - destruct (IH _ Ho) as (n & item' & Hn & Hk & Hin).
    exists (S n), item'. rewrite <- Nat.add_succ_comm. by repeat split.
Qed.

Lemma dict_get_NoDup {V} (d : list (string * V)) k v :
  NoDup d.*1 -> (k, v) ∈ d -> dict_get d k = Some v.
Proof.
  induction d as [|[k' v'] d IH]; simpl; [by intros _ []%elem_of_nil|].
  intros [Hk' Hnd]%NoDup_cons [[= -> ->]|Hin]%elem_of_cons.
  - by rewrite decide_True.
  - rewrite decide_False; [by apply IH|]. intros ->. apply Hk'.
    apply list_elem_of_fmap. by exists (k, v).
Qed.

Lemma observation_amplification rs i o :
  unique_stations rs -> o ∈ valid_observations i rs ->
  amplification rs (obs_event o) (obs_station o) i = Some (Num (obs_value o)).
Proof.
  intros Huniq Ho. unfold valid_observations in Ho.
  destruct (event_observations_elem _ _ _ _ Ho) as (n & item & Hn & Hk & Hin).
  simpl in Hk. rewrite Hk. unfold amplification. rewrite Hn. simpl.
  destruct (item.2) as [e|] eqn:He; simpl in *; [|by apply elem_of_nil in Hin].
  apply station_observations_elem in Hin as [_ (Rsta & HR & Hv)].
  unfold unique_stations in Huniq. rewrite Forall_lookup in Huniq.
  rewrite (dict_get_NoDup _ _ _ (Huniq _ _ Hn e He) HR). done.
Qed.

(** *** The normalization of the geometric mean *)

Section Normalized.

Variable lsmr : list R -> list nat -> list nat -> nat * nat -> list R -> result (list R).
Variable lstsq : list (list R) -> list R -> result (list R).
Variable calculate_source_properties : results -> results.
Hypothesis csp_frame : keeps_events calculate_source_properties.


End Normalized.

(** *** Examples *)

Lemma pinned_example_exact_unpinned :
  exact_on no_lsmr rhs_lstsq (existing pinned_example) None 1 true.
Proof.
  rewrite pinned_example_existing. unfold exact_on. intros Nf Nstations i s x HNf HN Hs Hx.
  assert (Nf = 1) as -> by (vm_compute in HNf; congruence).
  assert (Nstations = [ {["S"%string := 1]} ]) as ->.
  { assert (count_events 1 (events pinned_example) = Ok [ {["S"%string := 1]} ]) as HN'
      by (vm_compute; reflexivity).
    congruence. }
  destruct i as [|i]; [|by vm_compute in Hs].
  assert (band_system pinned_example None 1 false 1 [ {["S"%string := 1]} ] 0
          = Ok {| ols_b := [(0 - ln 2 * (1 / INR 1 / INR 1) + ln 1)%R]; ols_row := 1;
                  ols_Arepr := DenseRepr [[(0 + 1 / INR 1 / INR 1)%R]] |}) as Hs'
    by (vm_compute; reflexivity).
  assert (length (events pinned_example) = 1) as Hlen by reflexivity.
  rewrite Hlen in Hs, Hx |- *. rewrite decide_True in Hs, Hx by done.
  rewrite Hs' in Hs. injection Hs as <-.
  cbn in Hx. injection Hx as <-.
  split; [|done]. intros j bj Hj. destruct j as [|j]; [|done].
  injection Hj as <-. simpl. rewrite dot_singleton. lra.
Qed.



(** ** A single event *)

Lemma valid_stations_observations i k Rs area :
  valid_stations i Rs = Ok area ->
  (forall o, o ∈ station_observations i k Rs -> obs_station o ∈ area) /\
  (area <> ∅ -> station_observations i k Rs <> []).
Proof.
  revert area; induction Rs as [|[sta Rsta] Rs IH]; intros area; simpl.
  { intros [= <-]. split; [by intros ? []%elem_of_nil|done]. }
  unfold index. destruct (Rsta !! i) as [v|] eqn:Hv; simpl; [|done].
  destruct (valid_stations i Rs) as [a|] eqn:Ha; simpl; [|done].
  destruct (IH a eq_refl) as [IH1 IH2].
  destruct v; simpl; intros [= <-]; try (split; done).
  split; [|done]. intros o [->|Ho]%elem_of_cons; [set_solver|].
  apply elem_of_union_r. by apply IH1.
Qed.

Lemma existing_Some rs item : item ∈ events (existing rs) -> is_Some item.2.
Proof. unfold existing. simpl. by intros [? _]%list_elem_of_filter. Qed.

Lemma merge_sets_single (a : gset string) : _merge_sets [a] = [a].
Proof. unfold _merge_sets. by simp merge_loop. Qed.

(** With one event, the selected area of a band is the set of the stations
    with a valid observation, and it is not empty. *)
Lemma selected_area_single rs i area :
  length (events rs) = 1 -> (forall item, item ∈ events rs -> is_Some item.2) ->
  selected_area rs i = Ok area ->
  (forall o, o ∈ valid_observations i rs -> obs_event o = 0 /\ obs_station o ∈ area) /\
  valid_observations i rs <> [].
Proof.
  unfold selected_area, _find_unconnected_areas, valid_observations.
  destruct (events rs) as [|[evid oe] [|? ?]]; try done. intros _ Hsome.
  destruct (Hsome (evid, oe)) as [e He]; [by left|]. simpl in He. subst oe. simpl.
  destruct (valid_stations i (res_R e)) as [a|] eqn:Ha; simpl; [|done].
  destruct (valid_stations_observations i 0 _ _ Ha) as [Hin Hne].
  rewrite app_nil_r.
  case_decide as Hsize.
  - rewrite merge_sets_single. unfold name_areas. cbn [foldM].
    destruct (set_first a) as [name|]; simpl; [|done].
    intros [= <-]. split.
    + intros o Ho. split; [|by apply Hin].
      by apply station_observations_elem in Ho as [? _].
    + apply Hne. intros ->. rewrite size_empty in Hsize. lia.
  - unfold _merge_sets. simp merge_loop. done.
Qed.

Section Single.

Variable lsmr : list R -> list nat -> list nat -> nat * nat -> list R -> result (list R).
Variable lstsq : list (list R) -> list R -> result (list R).
Variable calculate_source_properties : results -> results.

(** With one event the sparse solver is never called. *)
Lemma single_event_dense rs station response use_sparse :
  length (events (existing rs)) = 1 ->
  forall lsmr',
    align_site_responses lsmr' lstsq calculate_source_properties rs station response use_sparse
    = align_site_responses lsmr lstsq calculate_source_properties rs station response false.
Proof.
  intros Hlen lsmr'. unfold align_site_responses. fold (existing rs).
  assert (compute_factors lsmr' lstsq (existing rs) station response use_sparse
          = compute_factors lsmr lstsq (existing rs) station response false) as ->; [|done].
  unfold compute_factors. cbn zeta. rewrite Hlen. rewrite decide_True by done.
  reflexivity.
Qed.

(** The factor of one event, when the solver is exact: its logarithm is
    the logarithm of the reference value minus the weighted mean of the
    logarithms of the site responses. *)
Lemma single_event_solution rs r use_sparse F :
  length (events (existing rs)) = 1 ->
  exact_on lsmr lstsq (existing rs) None r use_sparse ->
  compute_factors lsmr lstsq (existing rs) None r use_sparse = Ok F ->
  exists Nf Nstations,
    _get_number_of_freqs (existing rs) = Ok (Some Nf) /\
    count_events Nf (events (existing rs)) = Ok Nstations /\
    forall i, i < Nf ->
      let obs := valid_observations i (existing rs) in
      exists N f,
        Nstations !! i = Some N /\
        factor_at F 0 i = Ok f /\
        rsum (fun o => weight N (obs_station o)) obs = 1%R /\
        ln f = (ln r - rsum (fun o => weight N (obs_station o) * ln (obs_value o)) obs)%R.
Proof.
  intros Hone Hexact HF.
  destruct (compute_factors_spec _ _ _ _ _ _ _ HF)
    as (Nf & Nstations & HNf & HN & Hshape & Hband).
  exists Nf, Nstations. split; [done|]. split; [done|].
  intros i Hi obs.
  destruct (Hband i Hi) as (s & x & Hs & Hx & Hfac).
  destruct (Hexact Nf Nstations i s x HNf HN Hs Hx) as [Hsolves Hlen].
  pose proof (count_events_spec _ _ _ _ HN Hi) as HNi.
  set (N := tally (obs_station <$> valid_observations i (existing rs)) ∅) in *.
  destruct (factor_at_shape _ _ _ 0 i Hshape) as [f Hf]; [lia|done|].
  destruct (Hfac Hlen _ f Hf) as [_ ->].
  exists N, (exp (at_ x 0)). split; [done|]. split; [done|].
  unfold band_system in Hs.
  destruct (selected_area (existing rs) i) as [area|] eqn:Harea; [|done].
  cbn [mbind result_bind] in Hs. unfold index in Hs. rewrite HNi in Hs.
  cbn [of_option mbind result_bind] in Hs.
  destruct (selected_area_single _ _ _ Hone (existing_Some rs) Harea) as [Hobs Hne].
  assert (observations i area (existing rs) = obs) as Hall.
  { unfold observations. apply filter_all. intros o Ho. by apply Hobs. }
  assert (rsum (fun o => weight N (obs_station o)) obs = 1%R) as Htotal.
  { rewrite <- Hall. apply weights_total_covering; [|done]. intros o Ho. by apply Hobs. }
  split; [done|].
  destruct (build_system_rows _ _ _ _ _ _ _ _ _ Hs) as [_ Hnorm].
  destruct (Hnorm eq_refl) as (A & Hrow & Hlin).
  fold (valid_observations i (existing rs)) in Hrow, Hlin.
  fold (observations i area (existing rs)) in Hrow, Hlin. rewrite Hall in Hrow, Hlin.
  destruct Hrow as (j & Hb & Hval).
  pose proof (Hsolves j _ Hb) as Hj. rewrite Hval in Hj. unfold row_sum in Hj.
  rewrite Hlin in Hj. rewrite ln_exp. rewrite <- Hj.
  rewrite (rsum_ext_in _ (fun o => weight N (obs_station o) * at_ x 0)%R).
  - rewrite rsum_scal, Htotal. symmetry. apply Rmult_1_l.
  - intros o Ho. by destruct (Hobs o Ho) as [-> _].
Qed.


End Single.

(** *** Examples *)



(** * Further properties *)

(** ** The number of frequency bands *)

Lemma number_of_freqs_loop_Some evs o n :
  number_of_freqs_loop o evs = Ok (Some n) <->
  (evs = [] /\ o = Some n) \/
  (evs <> [] /\ (forall m, o = Some m -> m = n) /\
   Forall (fun item => exists e, item.2 = Some e /\ length (res_W e) = n) evs).
Proof.
  revert o; induction evs as [|[evid e] evs IH]; intros o; simpl.
  { split; [intros [= ->]; by left|]. intros [[_ ->]|[? _]]; done. }
  destruct e as [e|]; simpl.
  2:{ split; [done|]. intros [[? _]|(_ & _ & H)]; [done|].
      apply Forall_cons in H as [(e & He & _) _]. done. }
  assert (number_of_freqs_loop (Some (length (res_W e))) evs = Ok (Some n) <->
          length (res_W e) = n /\
          Forall (fun item => exists e, item.2 = Some e /\ length (res_W e) = n) evs) as Hrest.
  { rewrite IH. split.
    - intros [[-> [= <-]]|(_ & Hm & Hall)]; [done|]. split; [by apply Hm|done].
    - intros [<- Hall]. destruct evs as [|a evs]; [by left|right].
      split; [done|]. split; [by intros m [= <-]|done]. }
  destruct o as [m|].
  - case_decide as Hm.
    + rewrite Hrest. split.
      * intros [Hn Hall]. right. split; [done|]. split; [intros ? [= <-]; congruence|].
        apply Forall_cons. split; [by exists e|done].
      * intros [[? _]|(_ & _ & Hall)]; [done|].
        apply Forall_cons in Hall as [(e' & [= <-] & Hn) Hall]. done.
    + split; [done|]. intros [[? _]|(_ & Heq & Hall)]; [done|].
      apply Forall_cons in Hall as [(e' & [= <-] & Hn) Hall].
      specialize (Heq m eq_refl). congruence.
  - rewrite Hrest. split.
    + intros [Hn Hall]. right. split; [done|]. split; [done|].
      apply Forall_cons. split; [by exists e|done].
    + intros [[? _]|(_ & _ & Hall)]; [done|].
      apply Forall_cons in Hall as [(e' & [= <-] & Hn) Hall]. done.
Qed.

Lemma number_of_freqs_loop_None evs o :
  number_of_freqs_loop o evs = Ok None <-> evs = [] /\ o = None.
Proof.
  split.
  - destruct evs as [|[evid [e|]] evs]; simpl; [by intros [= ->]| |done].
    assert (forall n l, number_of_freqs_loop (Some n) l <> Ok None) as Hno.
    { intros n l; revert n; induction l as [|[? [e'|]] l IH]; intros n; simpl; [done| |done].
      case_decide; [apply IH|done]. }
    destruct o as [m|]; [case_decide|]; intros Hl; try done; by apply Hno in Hl.
  - by intros [-> ->].
Qed.

(** X1. [_get_number_of_freqs] returns [None] exactly when there is no
    event, and the number [n] exactly when there is an event, no event
    result is [None], and every [W] has [n] entries. *)
Theorem get_number_of_freqs_returns rs :
  (_get_number_of_freqs rs = Ok None <-> events rs = []) /\
  (forall n, _get_number_of_freqs rs = Ok (Some n) <->
     events rs <> [] /\
     Forall (fun item => exists e, item.2 = Some e /\ length (res_W e) = n) (events rs)).
Proof.
  unfold _get_number_of_freqs. split.
  - rewrite number_of_freqs_loop_None. naive_solver.
  - intros n. rewrite number_of_freqs_loop_Some. split.
    + intros [[_ ?]|(? & _ & ?)]; done.
    + intros [? ?]. right. done.
Qed.

Lemma number_of_freqs_loop_raises evs o e :
  Forall (fun item => is_Some item.2) evs ->
  number_of_freqs_loop o evs = Raise e ->
  e = AssertionError /\
  ((exists n b eb, o = Some n /\ b ∈ evs /\ b.2 = Some eb /\ length (res_W eb) <> n) \/
   (exists a b ea eb, a ∈ evs /\ b ∈ evs /\ a.2 = Some ea /\ b.2 = Some eb /\
                      length (res_W ea) <> length (res_W eb))).
Proof.
  revert o; induction evs as [|[evid e0] evs IH]; intros o Hall; simpl; [done|].
  apply Forall_cons in Hall as [[e1 He1] Hall]. simpl in He1. subst e0. simpl.
  assert (number_of_freqs_loop (Some (length (res_W e1))) evs = Raise e ->
          e = AssertionError /\
          exists a b ea eb, a ∈ (evid, Some e1) :: evs /\ b ∈ (evid, Some e1) :: evs /\
                            a.2 = Some ea /\ b.2 = Some eb /\
                            length (res_W ea) <> length (res_W eb)) as Hrest.
  { intros H. destruct (IH _ Hall H) as [-> [(n & b & eb & [= <-] & Hb & Heb & Hne)|
                                               (a & b & ea & eb & Ha & Hb & Hea & Heb & Hne)]].
    - split; [done|]. exists b, (evid, Some e1), eb, e1.
      split; [by right|]. split; [by left|]. done.
    - split; [done|]. exists a, b, ea, eb. split; [by right|]. split; [by right|]. done. }
  destruct o as [m|].
  - case_decide as Hm.
    + intros H. destruct (Hrest H) as [-> ?]. split; [done|]. by right.
    + intros [= <-]. split; [done|]. left. exists m, (evid, Some e1), e1.
      split; [done|]. split; [by left|]. split; [done|]. congruence.
  - intros H. destruct (Hrest H) as [-> ?]. split; [done|]. by right.
Qed.

(** X2. When no event result is [None], [_get_number_of_freqs] raises
    an [AssertionError] exactly when two events have a different number of
    entries in [W]; it raises nothing else. *)
Theorem get_number_of_freqs_assertion rs :
  Forall (fun item => is_Some item.2) (events rs) ->
  (_get_number_of_freqs rs = Raise AssertionError <->
   exists a b ea eb, a ∈ events rs /\ b ∈ events rs /\ a.2 = Some ea /\ b.2 = Some eb /\
                     length (res_W ea) <> length (res_W eb)) /\
  (forall e, _get_number_of_freqs rs = Raise e -> e = AssertionError).
Proof.
  intros Hall. split; [split|].
  - intros H. destruct (number_of_freqs_loop_raises _ _ _ Hall H) as [_ [(n & ? & ? & ? & _)|?]];
      done.
  - intros (a & b & ea & eb & Ha & Hb & Hea & Heb & Hne).
    destruct (_get_number_of_freqs rs) as [[n|]|e] eqn:H.
    + apply number_of_freqs_loop_Some in H as [[Hnil _]|(_ & _ & Hn)].
      { rewrite Hnil in Ha. by apply elem_of_nil in Ha. }
      rewrite Forall_forall in Hn.
      destruct (Hn a Ha) as (ea' & Hea' & Hla), (Hn b Hb) as (eb' & Heb' & Hlb).
      congruence.
    + apply number_of_freqs_loop_None in H as [Hnil _]. rewrite Hnil in Ha.
      by apply elem_of_nil in Ha.
    + by destruct (number_of_freqs_loop_raises _ _ _ Hall H) as [-> _].
  - intros e H. by destruct (number_of_freqs_loop_raises _ _ _ Hall H) as [-> _].
Qed.

Lemma get_number_of_freqs_assertion_witness :
  Forall (fun item => is_Some item.2) (events mismatched_example) /\
  _get_number_of_freqs mismatched_example = Raise AssertionError.
Proof.
  assert (Forall (fun item : string * option eres => is_Some item.2)
                 (events mismatched_example)) as Hall.
  { repeat constructor; by eexists. }
  split; [exact Hall|].
  apply (proj1 (get_number_of_freqs_assertion mismatched_example Hall)).
  eexists (_, _), (_, _), _, _.
  split; [by left|]. split; [right; by left|]. split; [done|]. split; [done|].
  simpl. lia.
Defined.

(** ** The rescaler: layout, composition and round trip *)

Lemma update_each_fmap_inv {A B} (g : A -> B) (step : nat -> A -> A * result unit) k l :
  (forall k a, g (step k a).1 = g a) ->
  g <$> (update_each step k l).1 = g <$> l.
Proof.
  intros Hstep. revert k; induction l as [|a l IH]; intros k; simpl; [done|].
  specialize (Hstep k a). destruct (step k a) as [a' [[]|e]]; cbn [fst] in *.
  - specialize (IH (S k)). destruct (update_each step (S k) l) as [rest' o]; cbn [fst] in *.
    rewrite !fmap_cons. by rewrite Hstep, IH.
  - rewrite !fmap_cons. by rewrite Hstep.
Qed.

Lemma for_range_inv {S B} (g : S -> B) (body : nat -> S -> S * result unit) range s :
  (forall i s, g (body i s).1 = g s) ->
  g (for_range body range s).1 = g s.
Proof.
  intros Hbody. revert s; induction range as [|i range IH]; intros s; simpl; [done|].
  specialize (Hbody i s). destruct (body i s) as [s' [[]|e]]; simpl in *.
  - by rewrite IH.
  - done.
Qed.

Lemma rescale_station_layout i f (st : string * list value) :
  let st' := (rescale_station i f st).1 in
  (st'.1, missing <$> st'.2) = (st.1, missing <$> st.2).
Proof.
  destruct st as [sta Rsta]. unfold rescale_station.
  destruct (Rsta !! i) as [v|] eqn:Hv; [|done].
  destruct (missing v) eqn:Hm; [done|]. simpl. f_equal.
  rewrite list_fmap_insert. apply list_insert_id.
  rewrite list_lookup_fmap, Hv. simpl. f_equal. by destruct v.
Qed.

Lemma rescale_event_layout factors i k (item : string * option eres) :
  let item' := (rescale_event factors i k item).1 in
  (item'.1, layout_eres <$> item'.2) = (item.1, layout_eres <$> item.2).
Proof.
  destruct item as [evid [e|]]; simpl; [|done].
  destruct (res_W e !! i) as [w|] eqn:Hw; [|done].
  destruct (missing w) eqn:Hm; [done|].
  destruct (factor_at factors k i) as [f|]; [|done].
  pose proof (update_each_fmap_inv
                (fun st : string * list value => (st.1, missing <$> st.2))
                (fun _ => rescale_station i f) 0 (res_R e)
                (fun _ st => rescale_station_layout i f st)) as HR.
  destruct (update_each _ 0 (res_R e)) as [R' o]. simpl in *.
  unfold layout_eres. simpl. rewrite HR. do 3 f_equal.
  rewrite list_fmap_insert. apply list_insert_id.
  rewrite list_lookup_fmap, Hw. simpl. f_equal. by destruct w.
Qed.

Lemma rescale_band_layout factors i evs :
  (fun item : string * option eres => (item.1, layout_eres <$> item.2))
    <$> (rescale_band factors i evs).1
  = (fun item : string * option eres => (item.1, layout_eres <$> item.2)) <$> evs.
Proof.
  unfold rescale_band. apply update_each_fmap_inv. intros k item.
  apply rescale_event_layout.
Qed.


Lemma for_range_length factors range evs :
  length (for_range (rescale_band factors) range evs).1 = length evs.
Proof.
  apply (for_range_inv length). intros i evs0.
  pose proof (rescale_band_layout factors i evs0) as H.
  apply (f_equal length) in H. by rewrite !length_fmap in H.
Qed.

Lemma for_range_well_formed factors Nf range evs evs' :
  Forall (well_formed_event Nf) evs ->
  for_range (rescale_band factors) range evs = (evs', Ok tt) ->
  Forall (well_formed_event Nf) evs'.
Proof.
  revert evs; induction range as [|i range IH]; intros evs Hwf; simpl.
  { by intros [= <-]. }
  destruct (rescale_band factors i evs) as [evs1 [[]|e]] eqn:Hb; [|done].
  apply IH. by eapply rescale_band_well_formed.
Qed.

Lemma rescale_results_well_formed rs factors rs' Nf :
  well_formed rs Nf -> _rescale_results rs factors = (rs', Ok tt) ->
  well_formed rs' Nf /\ length (events rs') = length (events rs).
Proof.
  intros Hwf H.
  assert (length (events rs') = length (events rs)) as Hlen.
  { unfold _rescale_results in H.
    destruct (_get_number_of_freqs rs ≫= py_range) as [range|]; [|done].
    pose proof (for_range_length factors range (events rs)) as Hl.
    destruct (for_range _ range (events rs)) as [evs o]. by injection H as <- _. }
  split; [|done]. split.
  { destruct Hwf as [Hne _]. intros Hnil. rewrite Hnil in Hlen.
    by destruct (events rs). }
  unfold _rescale_results in H.
  rewrite (get_number_of_freqs_well_formed _ _ Hwf) in H. simpl in H.
  destruct (for_range _ _ _) as [evs o] eqn:Hfor. injection H as <- ->. simpl.
  eapply for_range_well_formed; [apply Hwf|exact Hfor].
Qed.

(** On a well-formed dictionary every cell is rescaled by its factor. *)
Lemma rescale_results_cells rs factors rs' Nf k sta i :
  well_formed rs Nf -> _rescale_results rs factors = (rs', Ok tt) ->
  cell k sta i (events rs') = rescaled_cell factors k i (cell k sta i (events rs)).
Proof.
  intros Hwf H. unfold _rescale_results in H.
  rewrite (get_number_of_freqs_well_formed _ _ Hwf) in H. simpl in H.
  destruct (for_range _ _ _) as [evs o] eqn:Hfor. injection H as <- ->. simpl.
  rewrite (for_range_cell _ _ _ _ k sta i (NoDup_seq 0 Nf) Hfor).
  case_decide as Hi; [done|].
  assert (energy rs k i = None) as Hnone.
  { unfold energy. destruct (events rs !! k) as [item|] eqn:Hk; [|done]. simpl.
    destruct Hwf as [_ Hwf]. rewrite Forall_lookup in Hwf.
    destruct (Hwf _ _ Hk) as (e & -> & HW & _). simpl.
    apply lookup_ge_None. rewrite HW.
    destruct (decide (i < Nf)) as [Hlt|]; [|lia].
    exfalso. apply Hi. apply elem_of_seq. lia. }
  unfold rescaled_cell, cell. simpl.
  assert ({| events := events rs |} = rs) as -> by (by destruct rs).
  by rewrite Hnone.
Qed.

Lemma factor_at_products F G k i f g :
  factor_at F k i = Ok f -> factor_at G k i = Ok g ->
  factor_at (factor_products F G) k i = Ok (f * g)%R.
Proof.
  unfold factor_at, factor_products, index.
  destruct (F !! k) as [rf|] eqn:HF; simpl; [|done].
  destruct (rf !! i) as [f'|] eqn:Hf; simpl; [|done]. intros [= <-].
  destruct (G !! k) as [rg|] eqn:HG; simpl; [|done].
  destruct (rg !! i) as [g'|] eqn:Hg; simpl; [|done]. intros [= <-].
  rewrite lookup_zip_with, HF, HG. simpl.
  by rewrite lookup_zip_with, Hf, Hg.
Qed.

Lemma factor_products_shape F G Ne Nf :
  has_shape F Ne Nf -> has_shape G Ne Nf -> has_shape (factor_products F G) Ne Nf.
Proof.
  intros [HF HFr] [HG HGr]. unfold factor_products. split.
  - rewrite length_zip_with. lia.
  - apply Forall_lookup. intros k row Hk.
    apply lookup_zip_with_Some in Hk as (rf & rg & -> & Hrf & Hrg).
    rewrite Forall_lookup in HFr, HGr.
    rewrite length_zip_with, (HFr _ _ Hrf), (HGr _ _ Hrg). lia.
Qed.

Lemma factor_at_nonzero F k i f : all_nonzero F -> factor_at F k i = Ok f -> f <> 0%R.
Proof.
  unfold factor_at, index, all_nonzero. intros Hnz.
  destruct (F !! k) as [row|] eqn:Hrow; simpl; [|done].
  destruct (row !! i) as [f'|] eqn:Hf; simpl; [|done]. intros [= <-].
  rewrite Forall_forall in Hnz. specialize (Hnz row (list_elem_of_lookup_2 _ _ _ Hrow)).
  rewrite Forall_forall in Hnz. apply Hnz. by eapply list_elem_of_lookup_2.
Qed.

Lemma rescaled_cell_twice F G Ne Nf k i c :
  has_shape F Ne Nf -> has_shape G Ne Nf -> all_nonzero F -> all_nonzero G ->
  rescaled_cell G k i (rescaled_cell F k i c)
  = rescaled_cell (factor_products F G) k i c.
Proof.
  intros HF HG HnzF HnzG. destruct c as [[[| |w]|] a]; unfold rescaled_cell; simpl;
    try done; try (by destruct (factor_at F k i)); try (by destruct (factor_at G k i)).
  destruct (decide (k < Ne /\ i < Nf)) as [[Hk Hi]|Hout].
  - destruct (factor_at_shape _ _ _ k i HF Hk Hi) as [f Hf].
    destruct (factor_at_shape _ _ _ k i HG Hk Hi) as [g Hg].
    rewrite Hf. simpl. rewrite Hg, (factor_at_products _ _ _ _ _ _ Hf Hg).
    pose proof (factor_at_nonzero _ _ _ _ HnzF Hf).
    pose proof (factor_at_nonzero _ _ _ _ HnzG Hg).
    f_equal.
    + do 2 f_equal. by field.
    + destruct a as [[| |x]|]; simpl; try done. do 2 f_equal. ring.
  - assert (factor_at F k i = Raise IndexError /\ factor_at G k i = Raise IndexError /\
            factor_at (factor_products F G) k i = Raise IndexError) as (-> & HG' & ->).
    { pose proof (factor_products_shape _ _ _ _ HF HG) as HFG.
      assert (forall H, has_shape H Ne Nf -> factor_at H k i = Raise IndexError) as Hraise.
      { intros H [Hlen Hrows]. unfold factor_at, index.
        destruct (H !! k) as [row|] eqn:Hrow; simpl; [|done].
        rewrite Forall_lookup in Hrows. specialize (Hrows _ _ Hrow).
        apply lookup_lt_Some in Hrow.
        destruct (row !! i) as [x|] eqn:Hx; [|done].
        apply lookup_lt_Some in Hx. exfalso. apply Hout. lia. }
      auto. }
    simpl. by rewrite HG'.
Qed.


Lemma two_band_example_well_formed : well_formed two_band_example 2.
Proof.
  split; [done|]. repeat constructor. eexists. split; [done|]. split; [done|].
  by repeat constructor.
Qed.


Lemma factor_at_inverses F k i f :
  factor_at F k i = Ok f -> factor_at (factor_inverses F) k i = Ok (/ f)%R.
Proof.
  unfold factor_at, factor_inverses, index. rewrite list_lookup_fmap.
  destruct (F !! k) as [row|]; simpl; [|done]. rewrite list_lookup_fmap.
  destruct (row !! i) as [f'|]; simpl; [|done]. by intros [= <-].
Qed.

Lemma factor_inverses_shape F Ne Nf : has_shape F Ne Nf -> has_shape (factor_inverses F) Ne Nf.
Proof.
  intros [HF Hrows]. unfold factor_inverses. split; [by rewrite length_fmap|].
  apply Forall_fmap. eapply Forall_impl; [exact Hrows|]. intros row Hrow. simpl.
  by rewrite length_fmap.
Qed.



(** ** Merging of sets *)

Lemma merge_loop_length sets newsets :
  length (merge_loop sets newsets) <= length newsets.
Proof.
  funelim (merge_loop sets newsets).
  - done.
  - etrans; [eassumption|]. apply merge_pass_length.
Qed.

(** X6. For every list of sets, [_merge_sets] returns a partition of
    their union: the sets it returns are pairwise disjoint and have the same
    union, each input set lies within one of them, each of them is held
    together by chains of overlapping input sets, and there are no more of
    them than input sets. *)
Theorem merge_sets_partition sets :
  pairwise_disjoint (_merge_sets sets) /\
  ⋃ (_merge_sets sets) = ⋃ sets /\
  (forall s, s ∈ sets -> covered s (_merge_sets sets)) /\
  Forall (held_together sets) (_merge_sets sets) /\
  length (_merge_sets sets) <= length sets.
Proof.
  split; [apply merge_sets_disjoint|]. split; [apply merge_sets_union|].
  split; [apply merge_sets_covered|]. split; [apply merge_sets_held_together|].
  apply merge_loop_length.
Qed.

Lemma pairwise_disjoint_app_inv l a :
  pairwise_disjoint (l ++ [a]) -> pairwise_disjoint l /\ Forall (fun m => a ## m) l.
Proof.
  intros H. split.
  - intros i j x y Hij Hi Hj. apply (H i j); [done|..].
    + rewrite lookup_app_l; [done|]. by eapply lookup_lt_Some.
    + rewrite lookup_app_l; [done|]. by eapply lookup_lt_Some.
  - apply Forall_lookup. intros i m Hi. symmetry.
    apply (H i (length l)).
    + by eapply lookup_lt_Some.
    + rewrite lookup_app_l; [done|]. by eapply lookup_lt_Some.
    + rewrite lookup_app_r by lia. by rewrite Nat.sub_diag.
Qed.

Lemma foldl_merge_step_disjoint sets acc :
  pairwise_disjoint (acc ++ sets) -> foldl merge_step acc sets = acc ++ sets.
Proof.
  revert acc; induction sets as [|a sets IH]; intros acc Hpd; simpl.
  { by rewrite app_nil_r. }
  assert (pairwise_disjoint ((acc ++ [a]) ++ sets)) as Hpd'.
  { by rewrite <- app_assoc. }
  assert (merge_into a acc = None) as Hnone.
  { apply merge_into_None.
    assert (pairwise_disjoint (acc ++ [a])) as Ha.
    { intros i j x y Hij Hi Hj. apply (Hpd' i j); [done|..].
      - rewrite lookup_app_l; [done|]. by eapply lookup_lt_Some.
      - rewrite lookup_app_l; [done|]. by eapply lookup_lt_Some. }
    by apply pairwise_disjoint_app_inv in Ha as [_ ?]. }
  unfold merge_step at 2. rewrite Hnone. rewrite IH by done. by rewrite <- app_assoc.
Qed.

(** X7. [_merge_sets] leaves a list of pairwise disjoint sets as it is,
    so merging what it returned once more changes nothing. *)
Theorem merge_sets_idempotent sets :
  _merge_sets (_merge_sets sets) = _merge_sets sets.
Proof.
  assert (forall l, pairwise_disjoint l -> _merge_sets l = l) as Hfixed.
  { intros l Hpd. unfold _merge_sets.
    assert (merge_pass l = l) as Hpass.
    { unfold merge_pass. by rewrite foldl_merge_step_disjoint. }
    destruct l as [|a l]; [by simp merge_loop|].
    simp merge_loop. simpl. fold (merge_pass (a :: l)). rewrite Hpass.
    simp merge_loop. by destruct (decide (length (a :: l) = length (a :: l))). }
  apply Hfixed, merge_sets_disjoint.
Qed.

(** ** The unconnected areas *)

Lemma dict_set_fresh {V} (d : list (string * V)) k v :
  k ∉ d.*1 -> dict_set d k v = d ++ [(k, v)].
Proof.
  induction d as [|[k' v'] d IH]; simpl; [done|].
  intros [Hne Hin]%not_elem_of_cons. rewrite decide_False by done. by rewrite IH.
Qed.

Lemma name_areas_fold (d : list (string * gset string)) (l : list (gset string)) :
  pairwise_disjoint (d.*2 ++ l) -> Forall (fun a => a <> ∅) l ->
  Forall (fun p => p.1 ∈ p.2) d ->
  exists d', foldM (fun d a => name ← set_first a; Ok (dict_set d name a)) d l = Ok d' /\
             d'.*2 = d.*2 ++ l /\ Forall (fun p => p.1 ∈ p.2) d'.
Proof.
  revert d; induction l as [|a l IH]; intros d Hpd Hne Hd; simpl.
  { exists d. by rewrite app_nil_r. }
  apply Forall_cons in Hne as [Ha Hne].
  destruct (set_first_elem a Ha) as (name & -> & Hname). simpl.
  assert (name ∉ d.*1) as Hfresh.
  { intros [[n b] [Hn Hin]]%list_elem_of_fmap. simpl in Hn. subst n.
    rewrite Forall_forall in Hd. specialize (Hd _ Hin). simpl in Hd.
    apply list_elem_of_lookup in Hin as [i Hi].
    assert (b ## a) as Hdisj.
    { apply (Hpd i (length d.*2)).
      - rewrite length_fmap. by eapply lookup_lt_Some.
      - rewrite lookup_app_l by (rewrite length_fmap; by eapply lookup_lt_Some).
        by rewrite list_lookup_fmap, Hi.
      - rewrite lookup_app_r by lia. by rewrite Nat.sub_diag. }
    rewrite elem_of_disjoint in Hdisj. eauto. }
  rewrite (dict_set_fresh _ _ _ Hfresh).
  destruct (IH (d ++ [(name, a)])) as (d' & Hd' & Hvals & Hnames).
  - rewrite fmap_app. simpl. by rewrite <- app_assoc.
  - done.
  - apply Forall_app. split; [done|]. by constructor.
  - exists d'. split; [done|]. split; [|done].
    rewrite Hvals, fmap_app. simpl. by rewrite <- app_assoc.
Qed.

Lemma named_disjoint_NoDup (areas : list (string * gset string)) :
  pairwise_disjoint areas.*2 -> Forall (fun p => p.1 ∈ p.2) areas -> NoDup areas.*1.
Proof.
  intros Hpd Hin. apply NoDup_alt. intros i j n Hi Hj.
  rewrite list_lookup_fmap in Hi, Hj.
  destruct (areas !! i) as [[n1 a1]|] eqn:Hai; [|done].
  destruct (areas !! j) as [[n2 a2]|] eqn:Haj; [|done].
  simpl in *. injection Hi as ->. injection Hj as ->.
  rewrite Forall_lookup in Hin.
  pose proof (Hin _ _ Hai) as H1. pose proof (Hin _ _ Haj) as H2. simpl in *.
  destruct (Nat.lt_trichotomy i j) as [Hij|[->|Hij]]; [|done|].
  - assert (a1 ## a2) as Hd.
    { apply (Hpd i j); [done|by rewrite list_lookup_fmap, Hai|by rewrite list_lookup_fmap, Haj]. }
    rewrite elem_of_disjoint in Hd. exfalso. eauto.
  - assert (a2 ## a1) as Hd.
    { apply (Hpd j i); [done|by rewrite list_lookup_fmap, Haj|by rewrite list_lookup_fmap, Hai]. }
    rewrite elem_of_disjoint in Hd. exfalso. eauto.
Qed.

Lemma name_areas_spec (l : list (gset string)) :
  pairwise_disjoint l -> Forall (fun a => a <> ∅) l ->
  exists areas : list (string * gset string),
    name_areas l = Ok areas /\ areas.*2 = l /\
    Forall (fun p => p.1 ∈ p.2) areas /\ NoDup areas.*1.
Proof.
  intros Hpd Hne. destruct (name_areas_fold [] l) as (areas & H & Hvals & Hnames); try done.
  exists areas. split; [done|]. split; [done|]. split; [done|].
  apply named_disjoint_NoDup; [|done]. by rewrite Hvals.
Qed.

(** X8. On a well-formed result dictionary the areas of a band are the
    connected components of its stations: the areas have different names,
    each is named after one of its stations, they are pairwise disjoint, a
    station belongs to an area exactly when it has a valid site response in
    the band, the stations of an area are linked by chains of common events,
    and two stations of one event are never in different areas. *)
Theorem find_unconnected_areas_components rs Nf freqi :
  well_formed rs Nf -> freqi < Nf ->
  exists areas : list (string * gset string),
    _find_unconnected_areas rs freqi = Ok areas /\
    NoDup areas.*1 /\
    Forall (fun p => p.1 ∈ p.2) areas /\
    pairwise_disjoint areas.*2 /\
    (forall s, observed rs freqi s <-> exists a, a ∈ areas.*2 /\ s ∈ a) /\
    (forall a, a ∈ areas.*2 -> connected_group rs freqi a) /\
    (forall a s t, a ∈ areas.*2 -> s ∈ a -> co_observed rs freqi s t -> t ∈ a).
Proof.
  intros [_ Hwf] Hi.
  destruct (event_areas_spec Nf freqi (events rs) Hwf Hi) as (sets & Hsets & Hs).
  unfold _find_unconnected_areas. rewrite Hsets. simpl.
  assert (forall x y, shares sets x y <-> co_observed rs freqi x y) as Hshares.
  { intros x y. split.
    - intros (s & (_ & evid & e & Hin & Hse)%Hs & Hx & Hy).
      exists evid, e. split; [done|]. by rewrite <- !Hse.
    - intros (evid & e & Hin & Hx & Hy).
      destruct (valid_stations_spec freqi (res_R e)) as (area & _ & Harea).
      { rewrite Forall_forall in Hwf.
        destruct (Hwf _ Hin) as (e' & [= <-] & _ & HR).
        eapply Forall_impl; [exact HR|]. simpl. intros ? ->. done. }
      exists area. split; [|split; by apply Harea].
      apply Hs. split; [|by exists evid, e]. intros ->. by apply Harea in Hx. }
  assert (forall x y, linked sets x y <-> rtc (co_observed rs freqi) x y) as Hlinked.
  { intros x y. unfold linked. split; intros H; induction H; try done;
      (eapply rtc_l; [by apply Hshares|done]). }
  assert (Forall (fun s => s <> ∅) sets) as Hne.
  { apply Forall_forall. intros s Hin. by apply Hs in Hin as [? _]. }
  destruct (name_areas_spec (_merge_sets sets)) as (areas & -> & Hvals & Hnames & Hnd).
  { apply merge_sets_disjoint. }
  { by apply merge_sets_nonempty. }
  exists areas. split; [done|]. split; [done|]. split; [done|]. rewrite Hvals.
  split; [apply merge_sets_disjoint|]. split; [|split].
  - intros s. unfold observed. rewrite <- Hshares. split.
    + intros (m & Hm & Hsm & _).
      destruct (merge_sets_covered sets m Hm) as (a & Ha & Hma).
      exists a. split; [done|]. set_solver.
    + intros (a & Ha & Hsa).
      assert (s ∈ ⋃ sets) as Hu.
      { rewrite <- merge_sets_union. apply elem_of_union_list. by exists a. }
      apply elem_of_union_list in Hu as (m & Hm & Hsm). by exists m.
  - intros a Ha s t Hsa Hta. apply Hlinked.
    pose proof (merge_sets_held_together sets) as Hht.
    rewrite Forall_forall in Hht. by apply (Hht a Ha).
  - intros a s t Ha Hsa Hst. apply (merge_sets_linked sets a s t Ha Hsa).
    apply rtc_once. by apply Hshares.
Qed.

Lemma two_groups_example_well_formed : well_formed two_groups_example 1.
Proof.
  split; [done|]. repeat constructor; (eexists; split; [done|]; split; [done|]);
    by repeat constructor.
Qed.

Lemma find_unconnected_areas_components_witness :
  exists areas : list (string * gset string),
    _find_unconnected_areas two_groups_example 0 = Ok areas /\
    NoDup areas.*1 /\
    Forall (fun p => p.1 ∈ p.2) areas /\
    pairwise_disjoint areas.*2 /\
    (forall s, observed two_groups_example 0 s <-> exists a, a ∈ areas.*2 /\ s ∈ a) /\
    (forall a, a ∈ areas.*2 -> connected_group two_groups_example 0 a) /\
    (forall a s t, a ∈ areas.*2 -> s ∈ a -> co_observed two_groups_example 0 s t -> t ∈ a).
Proof.
  apply (find_unconnected_areas_components two_groups_example 1 0).
  - apply two_groups_example_well_formed.
  - lia.
Defined.

(** ** The largest area *)

Lemma max_by_size_spec (pre rest : list (string * gset string)) best i0 :
  pre !! i0 = Some best ->
  (forall j b, pre !! j = Some b -> size b.2 <= size best.2) ->
  (forall j b, j < i0 -> pre !! j = Some b -> size b.2 < size best.2) ->
  exists i, (pre ++ rest) !! i = Some (max_by_size best rest) /\
    (forall j b, (pre ++ rest) !! j = Some b -> size b.2 <= size (max_by_size best rest).2) /\
    (forall j b, j < i -> (pre ++ rest) !! j = Some b ->
                 size b.2 < size (max_by_size best rest).2).
Proof.
  revert pre best i0; induction rest as [|a rest IH]; intros pre best i0 Hbest Hmax Hfirst.
  { simpl. rewrite app_nil_r. by exists i0. }
  simpl.
  assert (forall j b, (pre ++ [a]) !! j = Some b -> j < length pre /\ pre !! j = Some b \/
                                                   j = length pre /\ b = a) as Hsplit.
  { intros j b Hj. destruct (decide (j < length pre)) as [Hlt|Hge].
    - left. by rewrite lookup_app_l in Hj.
    - right. rewrite lookup_app_r in Hj by lia.
      destruct (j - length pre) as [|n] eqn:Hn; simpl in Hj; [|by destruct n].
      injection Hj as <-. split; [lia|done]. }
  pose proof (lookup_lt_Some _ _ _ Hbest) as Hi0.
  rewrite (cons_middle a pre rest), app_assoc.
  case_decide as Hlt.
  - apply (IH (pre ++ [a]) a (length pre)).
    + rewrite lookup_app_r by lia. by rewrite Nat.sub_diag.
    + intros j b [[_ Hj]|[_ ->]]%Hsplit; [|done]. specialize (Hmax _ _ Hj). lia.
    + intros j b Hj [[_ Hb]|[? _]]%Hsplit; [|lia]. specialize (Hmax _ _ Hb). lia.
  - apply (IH (pre ++ [a]) best i0).
    + by rewrite lookup_app_l.
    + intros j b [[_ Hj]|[_ ->]]%Hsplit; [by eapply Hmax|lia].
    + intros j b Hj [[_ Hb]|[? _]]%Hsplit; [by eapply Hfirst|lia].
Qed.

(** X9. [max(areas, key=lambda k: len(areas[k]))] selects the first of
    the areas with the most stations: no area is larger, and every area
    before it is smaller. *)
Theorem largest_is_first_maximum (areas : list (string * gset string)) :
  areas <> [] ->
  exists i name a,
    areas !! i = Some (name, a) /\ largest areas = Ok a /\
    (forall j b, areas !! j = Some b -> size b.2 <= size a) /\
    (forall j b, j < i -> areas !! j = Some b -> size b.2 < size a).
Proof.
  destruct areas as [|first rest]; [done|]. intros _.
  destruct (max_by_size_spec [first] rest first 0) as (i & Hi & Hmax & Hfirst).
  - done.
  - intros [|j] b; [by intros [= <-]|done].
  - intros j b Hj. lia.
  - simpl in *. destruct (max_by_size first rest) as [name a] eqn:Hm.
    exists i, name, a. simpl. done.
Qed.

Lemma largest_is_first_maximum_witness :
  exists i name a,
    three_areas_example !! i = Some (name, a) /\ largest three_areas_example = Ok a /\
    (forall j b, three_areas_example !! j = Some b -> size b.2 <= size a) /\
    (forall j b, j < i -> three_areas_example !! j = Some b -> size b.2 < size a).
Proof. by apply (largest_is_first_maximum three_areas_example). Defined.

(** ** Station coordinates *)

Lemma dict_get_dict_set {K V} `{EqDecision K} (d : list (K * V)) k v k' :
  dict_get (dict_set d k v) k' = if decide (k = k') then Some v else dict_get d k'.
Proof.
  induction d as [|[k0 v0] d IH]; simpl.
  { by case_decide. }
  destruct (decide (k0 = k)) as [->|Hne]; simpl.
  - by case_decide.
  - destruct (decide (k0 = k')) as [->|Hne'].
    + by rewrite decide_False by done.
    + apply IH.
Qed.

Lemma dict_get_is_Some {K V} `{EqDecision K} (d : list (K * V)) k :
  is_Some (dict_get d k) <-> k ∈ d.*1.
Proof.
  induction d as [|[k0 v0] d IH]; simpl.
  { split; [by intros [? ?]|by intros ?%elem_of_nil]. }
  case_decide as Hk.
  - subst. split; [intros; by left|by eexists].
  - rewrite IH. split; [by right|]. by intros [?|?]%elem_of_cons.
Qed.

(** The two loops of [_collect_station_coordinates] are one loop over the
    stations of the inventory. *)
Lemma collect_station_coordinates_flat inv :
  _collect_station_coordinates inv
  = foldM (fun coords p => station_coordinates p.1 coords p.2) [] (inventory_stations inv).
Proof.
  unfold _collect_station_coordinates, inventory_stations. generalize (@nil (string * (R * R))).
  induction (networks inv) as [|net nets IH]; intros coords; [done|].
  cbn [foldM]. rewrite bind_cons, foldM_app.
  assert (forall (l : list station_meta) c,
            foldM (fun coords p => station_coordinates p.1 coords p.2) c
                  ((fun sta => (net, sta)) <$> l)
            = foldM (station_coordinates net) c l) as ->.
  { induction l as [|sta l IHl]; intros c; [done|]. simpl.
    destruct (station_coordinates net c sta); simpl; [apply IHl|done]. }
  destruct (foldM (station_coordinates net) coords (stations net)); simpl; [apply IH|done].
Qed.

Lemma station_coordinates_Ok net coords sta coords' :
  station_coordinates net coords sta = Ok coords' ->
  exists cha, channels sta !! 0 = Some cha /\
    coords' = dict_set coords (station_key net sta)
                (preferred (cha_latitude cha) (sta_latitude sta),
                 preferred (cha_longitude cha) (sta_longitude sta)).
Proof.
  unfold station_coordinates, index.
  destruct (channels sta !! 0) as [cha|]; simpl; [|done].
  intros [= <-]. by exists cha.
Qed.

Lemma station_coordinates_Raise net coords sta e :
  station_coordinates net coords sta = Raise e -> e = IndexError /\ channels sta = [].
Proof.
  unfold station_coordinates, index.
  destruct (channels sta) as [|cha l]; simpl; [by intros [= <-]|done].
Qed.

(** X10. [_collect_station_coordinates] raises exactly when some station
    of the inventory has no channel, and then it raises an [IndexError]. *)
Theorem collect_station_coordinates_raises inv :
  (forall e, _collect_station_coordinates inv = Raise e -> e = IndexError) /\
  (_collect_station_coordinates inv = Raise IndexError <->
   exists p, p ∈ inventory_stations inv /\ channels p.2 = []).
Proof.
  rewrite collect_station_coordinates_flat. generalize (@nil (string * (R * R))).
  induction (inventory_stations inv) as [|p l IH]; intros coords.
  { split; [done|]. split; [done|]. by intros (? & ?%elem_of_nil & _). }
  cbn [foldM].
  destruct (station_coordinates p.1 coords p.2) as [coords'|e0] eqn:Hp; cbn [mbind result_bind].
  - apply station_coordinates_Ok in Hp as (cha & Hcha & _).
    destruct (IH coords') as [IH1 IH2]. split; [done|]. rewrite IH2. split.
    + intros (q & Hq & Hnil). exists q. split; [by right|done].
    + intros (q & [->|Hq]%elem_of_cons & Hnil); [by rewrite Hnil in Hcha|by exists q].
  - apply station_coordinates_Raise in Hp as [-> Hnil]. split; [by intros e [= <-]|].
    split; [|done]. intros _. exists p. split; [by left|done].
Qed.

Lemma collect_fold_keeps (l : list (network * station_meta)) coords coords' k :
  foldM (fun coords p => station_coordinates p.1 coords p.2) coords l = Ok coords' ->
  Forall (fun p => station_key p.1 p.2 <> k) l ->
  dict_get coords' k = dict_get coords k.
Proof.
  revert coords; induction l as [|p l IH]; intros coords; cbn [foldM].
  { by intros [= <-]. }
  destruct (station_coordinates p.1 coords p.2) as [c1|] eqn:Hp; cbn [mbind result_bind]; [|done].
  intros H [Hk Hl]%Forall_cons. rewrite (IH _ H Hl).
  apply station_coordinates_Ok in Hp as (cha & _ & ->).
  rewrite dict_get_dict_set. by rewrite decide_False.
Qed.

Lemma collect_fold_keys (l : list (network * station_meta)) coords coords' k :
  foldM (fun coords p => station_coordinates p.1 coords p.2) coords l = Ok coords' ->
  is_Some (dict_get coords' k) <->
  is_Some (dict_get coords k) \/ exists p, p ∈ l /\ k = station_key p.1 p.2.
Proof.
  revert coords; induction l as [|p l IH]; intros coords; cbn [foldM].
  { intros [= <-]. split; [by left|]. intros [?|(? & ?%elem_of_nil & _)]; done. }
  destruct (station_coordinates p.1 coords p.2) as [c1|] eqn:Hp; cbn [mbind result_bind]; [|done].
  intros H. rewrite (IH _ H).
  apply station_coordinates_Ok in Hp as (cha & _ & ->).
  rewrite dict_get_dict_set. case_decide as Hk.
  - split; [|by intros; left]. intros _. right. exists p. split; [by left|done].
  - split.
    + intros [?|(q & Hq & ->)]; [by left|]. right. exists q. split; [by right|done].
    + intros [?|(q & [->|Hq]%elem_of_cons & ->)]; [by left|done|].
      right. by exists q.
Qed.

(** X11. When [_collect_station_coordinates] returns, the dictionary has
    a key for each station, ['net.sta'], and no other key; the value of a key
    comes from the last station with that key: for the latitude and for the
    longitude, it is the value of the station's first channel, unless that
    value is zero, in which case it is the value of the station itself. *)
Theorem collect_station_coordinates_lookup inv coords :
  _collect_station_coordinates inv = Ok coords ->
  (forall k, is_Some (dict_get coords k) <->
             exists p, p ∈ inventory_stations inv /\ k = station_key p.1 p.2) /\
  (forall n net sta,
     inventory_stations inv !! n = Some (net, sta) ->
     (forall m p, n < m -> inventory_stations inv !! m = Some p ->
                  station_key p.1 p.2 <> station_key net sta) ->
     exists cha, channels sta !! 0 = Some cha /\
       dict_get coords (station_key net sta)
       = Some (preferred (cha_latitude cha) (sta_latitude sta),
               preferred (cha_longitude cha) (sta_longitude sta))).
Proof.
  rewrite collect_station_coordinates_flat. intros H. split.
  - intros k. rewrite (collect_fold_keys _ _ _ k H). simpl. split.
    + by intros [[? ?]|?].
    + by right.
  - revert H. generalize (@nil (string * (R * R))).
    induction (inventory_stations inv) as [|q l IH]; intros c0 H n net sta Hn Hlast.
    { done. }
    cbn [foldM] in H.
    destruct (station_coordinates q.1 c0 q.2) as [c1|] eqn:Hq; cbn [mbind result_bind] in H;
      [|done].
    destruct n as [|n]; simpl in Hn.
    + injection Hn as ->. simpl in Hq.
      apply station_coordinates_Ok in Hq as (cha & Hcha & ->).
      exists cha. split; [done|].
      rewrite (collect_fold_keeps _ _ _ (station_key net sta) H).
      * rewrite dict_get_dict_set. by rewrite decide_True.
      * apply Forall_lookup. intros m p Hm. apply (Hlast (S m) p); [lia|done].
    + apply (IH c1 H n net sta Hn). intros m p Hnm Hm.
      apply (Hlast (S m) p); [lia|done].
Qed.

Lemma collect_station_coordinates_lookup_witness :
  exists coords,
    _collect_station_coordinates inventory_example = Ok coords /\
    dict_get coords "XX.A"%string = Some (3, 4)%R /\
    dict_get coords "XX.B"%string = Some (5, 7)%R.
Proof.
  assert (exists coords, _collect_station_coordinates inventory_example = Ok coords)
    as [coords Hc].
  { eexists. vm_compute. reflexivity. }
  exists coords. split; [done|].
  destruct (collect_station_coordinates_lookup inventory_example coords Hc) as [_ Hlast].
  split.
  - destruct (Hlast 0 _ _ eq_refl) as (cha & [= <-] & Hget).
    + intros [|[|m]] p Hm; [lia| |done]. intros [= <-]. done.
    + etrans; [exact Hget|]. unfold preferred, nonzero. simpl.
      rewrite !decide_False by lra. done.
  - destruct (Hlast 1 _ _ eq_refl) as (cha & [= <-] & Hget).
    + intros [|[|m]] p Hm; [lia|lia|done].
    + etrans; [exact Hget|]. unfold preferred, nonzero. simpl.
      rewrite decide_True by done. rewrite decide_False by lra. done.
Defined.

(** ** Hull reduction *)

Lemma mapM_Ok {A B} (f : A -> result B) (l : list A) (l' : list B) :
  mapM f l = Ok l' -> Forall2 (fun a b => f a = Ok b) l l'.
Proof.
  revert l'; induction l as [|a l IH]; intros l'; simpl.
  { intros [= <-]. constructor. }
  destruct (f a) as [b|] eqn:Hb; simpl; [|done].
  destruct (mapM f l) as [k|]; simpl; [|done].
  intros [= <-]. constructor; [done|]. by apply IH.
Qed.

Lemma mapM_Raise {A B} (f : A -> result B) (l : list A) a e :
  a ∈ l -> f a = Raise e -> exists e', mapM f l = Raise e'.
Proof.
  intros Hin Ha. induction l as [|x l IH]; [by apply elem_of_nil in Hin|].
  simpl. apply elem_of_cons in Hin as [<-|Hin].
  - rewrite Ha. by eexists.
  - destruct (f x); simpl; [|by eexists].
    destruct (IH Hin) as [e' ->]. by eexists.
Qed.

Section Hull_reduction.

Variable ConvexHull : list (R * R) -> result (list nat).

Lemma area_hull_missing coordinates station_by_coordinate (stas : gset string) sta :
  sta ∈ stas -> dict_get coordinates sta = None ->
  area_hull ConvexHull coordinates station_by_coordinate stas = Raise KeyError.
Proof.
  intros Hin Hnone. unfold area_hull.
  assert (forall l, sta ∈ l ->
            mapM (fun sta => of_option KeyError (dict_get coordinates sta)) l = Raise KeyError)
    as Hl.
  { induction l as [|x l IH]; [by intros ?%elem_of_nil|]. simpl.
    intros [<-|Hx]%elem_of_cons.
    - by rewrite Hnone.
    - destruct (dict_get coordinates x); simpl; [|done]. by rewrite IH. }
  rewrite Hl; [done|]. by apply elem_of_elements.
Qed.

(** X12. When a station of some area has no entry in the station
    coordinates, the hull reduction raises an error, a [KeyError] when the
    area is the first one, and [_join_unconnected_areas] raises it too: no
    areas are joined. *)
Theorem hull_reduction_missing_coordinates coordinates
    (areas : list (string * gset string)) n name stas sta :
  areas !! n = Some (name, stas) -> sta ∈ stas -> dict_get coordinates sta = None ->
  exists e, hull_reduction ConvexHull coordinates areas = Raise e /\
    (n = 0 -> e = KeyError) /\
    forall join_by_distance max_distance inv,
      _collect_station_coordinates inv = Ok coordinates ->
      _join_unconnected_areas ConvexHull join_by_distance areas max_distance inv = Raise e.
Proof.
  intros Hn Hsta Hnone.
  assert (exists e, hull_reduction ConvexHull coordinates areas = Raise e /\
                    (n = 0 -> e = KeyError)) as (e & He & H0).
  { unfold hull_reduction. generalize (@nil (string * gset string)).
    revert n Hn. induction areas as [|area areas IH]; intros n Hn hulls; [done|].
    cbn [foldM]. destruct n as [|n]; simpl in Hn.
    - injection Hn as ->. simpl. rewrite (area_hull_missing _ _ _ _ Hsta Hnone).
      by exists KeyError.
    - destruct (area_hull _ _ _ area.2) as [hull|e]; cbn [mbind result_bind].
      + destruct (IH n Hn (dict_set hulls area.1 hull)) as (e & -> & _).
        exists e. split; [done|]. lia.
      + exists e. split; [done|]. lia. }
  exists e. split; [done|]. split; [done|].
  intros join_by_distance max_distance inv Hinv.
  unfold _join_unconnected_areas. rewrite Hinv. simpl. by rewrite He.
Qed.

Lemma dict_get_elem {K V} `{EqDecision K} (d : list (K * V)) k v :
  dict_get d k = Some v -> (k, v) ∈ d.
Proof.
  induction d as [|[k0 v0] d IH]; simpl; [done|].
  case_decide as Hk; [intros [= <-]; subst; by left|]. intros ?%IH. by right.
Qed.

Lemma dict_set_elem {K V} `{EqDecision K} (d : list (K * V)) k v p :
  p ∈ dict_set d k v -> p = (k, v) \/ p ∈ d.
Proof.
  induction d as [|[k0 v0] d IH]; simpl.
  { intros ?%list_elem_of_singleton. by left. }
  case_decide.
  - intros [->|?]%elem_of_cons; [by left|]. right. by right.
  - intros [->|[->|?]%IH]%elem_of_cons; [right; by left|by left|]. right. by right.
Qed.

Lemma invert_coordinates_elem coordinates p sta :
  dict_get (invert_coordinates coordinates) p = Some sta -> (sta, p) ∈ coordinates.
Proof.
  intros H%dict_get_elem. revert H. unfold invert_coordinates.
  assert (forall (l : list (string * (R * R))) d,
            (p, sta) ∈ foldl (fun d item => dict_set d item.2 item.1) d l ->
            (p, sta) ∈ d \/ (sta, p) ∈ l) as Hfold.
  { induction l as [|[s c] l IH]; intros d; simpl; [by left|].
    intros [[[= -> ->]|?]%dict_set_elem|?]%IH.
    - right. by left.
    - by left.
    - right. by right. }
  intros [?%elem_of_nil|?]%Hfold; done.
Qed.

Lemma area_hull_subset coordinates (stas hull : gset string) :
  NoDup coordinates.*2 ->
  area_hull ConvexHull coordinates (invert_coordinates coordinates) stas = Ok hull ->
  hull ⊆ stas /\ forall sta, sta ∈ stas -> is_Some (dict_get coordinates sta).
Proof.
  intros Hinj. unfold area_hull.
  destruct (mapM _ (elements stas)) as [points|] eqn:Hpoints; simpl; [|done].
  destruct (ConvexHull points) as [vertices|]; simpl; [|done].
  destruct (mapM (index points) vertices) as [hull_points|] eqn:Hhp; simpl; [|done].
  destruct (mapM _ hull_points) as [names|] eqn:Hnames; simpl; [|done].
  intros [= <-]. apply mapM_Ok in Hpoints, Hhp, Hnames. split.
  - intros name Hname. apply elem_of_list_to_set in Hname.
    apply list_elem_of_lookup in Hname as [j Hj].
    destruct (Forall2_lookup_r _ _ _ _ _ Hnames Hj) as (p & Hp & Hsbc).
    destruct (Forall2_lookup_r _ _ _ _ _ Hhp Hp) as (v & Hv & Hidx).
    unfold index in Hidx. destruct (points !! v) as [p'|] eqn:Hpv; [|done].
    injection Hidx as ->.
    destruct (Forall2_lookup_r _ _ _ _ _ Hpoints Hpv) as (sta & Hsta & Hc).
    destruct (dict_get coordinates sta) as [c|] eqn:Hget; [|done]. injection Hc as ->.
    destruct (dict_get (invert_coordinates coordinates) p) as [n|] eqn:Hinv; [|done].
    injection Hsbc as ->.
    apply invert_coordinates_elem in Hinv. apply dict_get_elem in Hget.
    assert (name = sta) as ->.
    { apply list_elem_of_lookup in Hinv as [a Ha], Hget as [b Hb].
      assert (a = b) as ->.
      { apply (NoDup_lookup _ _ _ p Hinj); by rewrite list_lookup_fmap, ?Ha, ?Hb. }
      congruence. }
    apply elem_of_elements. by eapply list_elem_of_lookup_2.
  - intros sta Hsta. apply elem_of_elements, list_elem_of_lookup in Hsta as [j Hj].
    destruct (Forall2_lookup_l _ _ _ _ _ Hpoints Hj) as (p & _ & Hp).
    by destruct (dict_get coordinates sta).
Qed.

(** X13. When no two stations share their coordinates and the hull
    reduction returns, every station of every area has coordinates, there is
    a hull set for each area name and for no other name, and the hull set
    of a name holds only stations of an area with that name. *)
Theorem hull_reduction_subset coordinates (areas hulls : list (string * gset string)) :
  NoDup coordinates.*2 ->
  hull_reduction ConvexHull coordinates areas = Ok hulls ->
  (forall name stas sta, (name, stas) ∈ areas -> sta ∈ stas ->
                         is_Some (dict_get coordinates sta)) /\
  (forall name, is_Some (dict_get hulls name) <-> name ∈ areas.*1) /\
  (forall name hull, dict_get hulls name = Some hull ->
                     exists stas, (name, stas) ∈ areas /\ hull ⊆ stas).
Proof.
  intros Hinj. unfold hull_reduction.
  assert (forall (l : list (string * gset string)) h0 h,
    foldM (fun (hulls : list (string * gset string)) (area : string * gset string) =>
             hull ← area_hull ConvexHull coordinates (invert_coordinates coordinates) area.2;
             Ok (dict_set hulls area.1 hull)) h0 l = Ok h ->
    (forall name stas sta, (name, stas) ∈ l -> sta ∈ stas ->
                           is_Some (dict_get coordinates sta)) /\
    (forall name, is_Some (dict_get h name) <-> is_Some (dict_get h0 name) \/ name ∈ l.*1) /\
    (forall name hull, dict_get h name = Some hull ->
       dict_get h0 name = Some hull \/ exists stas, (name, stas) ∈ l /\ hull ⊆ stas)) as Hfold.
  { induction l as [|[name0 stas0] l IH]; intros h0 h; cbn [foldM].
    { intros [= <-]. split; [by intros ? ? ? ?%elem_of_nil|]. split.
      - intros name. split; [by left|]. by intros [?|?%elem_of_nil].
      - intros name hull ?. by left. }
    destruct (area_hull _ _ _ _) as [hull0|] eqn:Hh; cbn [mbind result_bind]; [|done].
    simpl in Hh. destruct (area_hull_subset _ _ _ Hinj Hh) as [Hsub Hcoords].
    intros H. destruct (IH _ _ H) as (IH1 & IH2 & IH3). split; [|split].
    - intros name stas sta [[= -> ->]|Hin]%elem_of_cons Hsta; [by apply Hcoords|].
      by eapply IH1.
    - intros name. rewrite IH2, dict_get_dict_set. simpl. case_decide as Hn.
      + subst. split; [intros _; right; by left|intros _; left; by eexists].
      + split.
        * intros [?|?]; [by left|]. right. by right.
        * intros [?|[?|?]%elem_of_cons]; [by left|done|by right].
    - intros name hull [Hget|(stas & Hin & Hs)]%IH3.
      + rewrite dict_get_dict_set in Hget. case_decide as Hn.
        * injection Hget as <-. subst. right. exists stas0. split; [by left|done].
        * by left.
      + right. exists stas. split; [by right|done]. }
  intros H. destruct (Hfold _ _ _ H) as (H1 & H2 & H3). split; [done|]. split.
  - intros name. rewrite H2. simpl. split; [by intros [[? ?]|?]|by right].
  - intros name hull [?|?]%H3; done.
Qed.

End Hull_reduction.

Lemma hull_reduction_missing_coordinates_witness :
  exists e, hull_reduction every_point one_station_coordinates two_station_area = Raise e /\
    (0 = 0 -> e = KeyError) /\
    forall join_by_distance max_distance inv,
      _collect_station_coordinates inv = Ok one_station_coordinates ->
      _join_unconnected_areas every_point join_by_distance two_station_area max_distance inv
      = Raise e.
Proof.
  apply (hull_reduction_missing_coordinates every_point one_station_coordinates
           two_station_area 0 "A"%string {["A"; "B"]}%string "B"%string).
  - done.
  - set_solver.
  - done.
Defined.

Lemma two_station_coordinates_inverted :
  invert_coordinates two_station_coordinates
  = [((0, 0), "A"); ((1, 1), "B")]%string%R.
Proof.
  unfold invert_coordinates, two_station_coordinates. simpl.
  rewrite decide_False; [done|]. intros [= ?]. lra.
Qed.

Lemma two_station_hull :
  hull_reduction every_point two_station_coordinates two_station_area
  = Ok [("A"%string, list_to_set ["A"; "B"]%string)].
Proof.
  unfold hull_reduction, two_station_area. cbn [foldM fst snd].
  unfold area_hull. rewrite two_station_area_points. cbn [mbind result_bind].
  rewrite two_station_coordinates_inverted. simpl.
  rewrite (decide_True (P := ((0, 0) = (0, 0) :> R * R)%R)) by done.
  rewrite (decide_False (P := ((0, 0) = (1, 1) :> R * R)%R)) by (intros [= ?]; lra).
  rewrite (decide_True (P := ((1, 1) = (1, 1) :> R * R)%R)) by done.
  done.
Qed.

Lemma hull_reduction_subset_witness :
  exists hulls : list (string * gset string),
    hull_reduction every_point two_station_coordinates two_station_area = Ok hulls /\
    (forall name stas sta, (name, stas) ∈ two_station_area -> sta ∈ stas ->
                           is_Some (dict_get two_station_coordinates sta)) /\
    (forall name, is_Some (dict_get hulls name) <-> name ∈ two_station_area.*1) /\
    (forall name hull, dict_get hulls name = Some hull ->
                       exists stas, (name, stas) ∈ two_station_area /\ hull ⊆ stas).
Proof.
  eexists. split; [exact two_station_hull|].
  apply (hull_reduction_subset every_point two_station_coordinates two_station_area).
  - simpl. apply NoDup_cons. split; [|apply NoDup_singleton].
    intros [= ?]%list_elem_of_singleton. lra.
  - exact two_station_hull.
Defined.

(** ** Alignment: what makes it fail *)

Section Failures.

Variable lsmr : list R -> list nat -> list nat -> nat * nat -> list R -> result (list R).
Variable lstsq : list (list R) -> list R -> result (list R).
Variable calculate_source_properties : results -> results.

(** X14. When the result of every event is [None] (or there is no event
    at all), [align_site_responses] raises a [TypeError], from [range(Nf)]
    with [Nf = None], and leaves an empty dictionary of events behind. *)
Theorem align_without_events rs station response use_sparse :
  Forall (fun item => item.2 = None) (events rs) ->
  align_site_responses lsmr lstsq calculate_source_properties rs station response use_sparse
  = ({| events := [] |}, Raise TypeError).
Proof.
  intros Hnone. unfold align_site_responses.
  assert (filter (fun item : string * option eres => is_Some item.2) (events rs) = []) as ->.
  { induction (events rs) as [|item l IH]; [done|].
    apply Forall_cons in Hnone as [Hitem Hl]. rewrite filter_cons.
    rewrite decide_False; [by apply IH|]. rewrite Hitem. by intros [? ?]. }
  reflexivity.
Qed.

Lemma count_stations_total i N Rs :
  Forall (fun st : string * list value => i < length st.2) Rs ->
  exists N', count_stations i N Rs = Ok N'.
Proof.
  revert N; induction Rs as [|[sta Rsta] Rs IH]; intros N HRs; simpl; [by eexists|].
  apply Forall_cons in HRs as [Hlen HRs]. simpl in Hlen.
  destruct (lookup_lt_is_Some_2 Rsta i Hlen) as [v Hv].
  unfold index. rewrite Hv. simpl. by apply IH.
Qed.

Lemma count_event_total Nf Nst item :
  well_formed_event Nf item -> length Nst = Nf ->
  exists Nst', count_event Nf Nst item = Ok Nst' /\ length Nst' = Nf.
Proof.
  intros (e & He & _ & HR) Hlen. unfold count_event.
  set (step := fun (Nst : list (gmap string nat)) (i : nat) => _).
  assert (forall i Nst0, length Nst0 = Nf -> i < Nf ->
            exists N', step Nst0 i = Ok (<[i := N']> Nst0)) as Hstep.
  { intros i Nst0 Hlen0 Hi. unfold step. rewrite He. simpl.
    destruct (lookup_lt_is_Some_2 Nst0 i) as [N HN]; [lia|].
    unfold index. rewrite HN. simpl.
    destruct (count_stations_total i N (res_R e)) as [N' HN'].
    { eapply Forall_impl; [exact HR|]. simpl. intros st ->. done. }
    rewrite HN'. by exists N'. }
  assert (forall range Nst0, length Nst0 = Nf -> Forall (fun i => i < Nf) range ->
            exists Nst', foldM step Nst0 range = Ok Nst' /\ length Nst' = Nf) as Hfold.
  { induction range as [|i range IH]; intros Nst0 Hlen0 Hr; cbn [foldM].
    { by exists Nst0. }
    apply Forall_cons in Hr as [Hi Hr].
    destruct (Hstep i Nst0 Hlen0 Hi) as [N' ->]. cbn [mbind result_bind].
    apply IH; [|done]. by rewrite length_insert. }
  apply Hfold; [done|]. apply Forall_forall. intros i ?%elem_of_seq. lia.
Qed.

Lemma count_events_total Nf evs :
  Forall (well_formed_event Nf) evs -> exists Nst, count_events Nf evs = Ok Nst.
Proof.
  intros Hwf. unfold count_events.
  assert (forall Nst0, length Nst0 = Nf ->
            exists Nst, foldM (count_event Nf) Nst0 evs = Ok Nst) as Hfold.
  { induction evs as [|item evs IH]; intros Nst0 Hlen; cbn [foldM]; [by eexists|].
    apply Forall_cons in Hwf as [Hitem Hwf].
    destruct (count_event_total Nf Nst0 item Hitem Hlen) as (Nst1 & -> & Hlen1).
    simpl. by apply IH. }
  apply Hfold. by rewrite length_replicate.
Qed.

Lemma no_observation_no_area rs Nf i :
  well_formed rs Nf -> i < Nf -> (forall sta, ¬ observed rs i sta) ->
  selected_area rs i = Raise ValueError.
Proof.
  intros [_ Hwf] Hi Hnone. unfold selected_area, _find_unconnected_areas.
  destruct (event_areas_spec Nf i (events rs) Hwf Hi) as (sets & -> & Hs). simpl.
  assert (sets = []) as ->.
  { destruct sets as [|s sets]; [done|]. exfalso.
    destruct (proj1 (Hs s)) as (Hne & evid & e & Hin & Hsta); [by left|].
    destruct (set_choose_L s Hne) as [sta Hin'].
    apply (Hnone sta). exists evid, e. split; [done|]. by split; apply Hsta. }
  unfold _merge_sets. by simp merge_loop.
Qed.

Lemma align_bands_raise rs station response use_sparse Ne Nstations range F0 n i :
  range !! n = Some i -> selected_area rs i = Raise ValueError ->
  exists e,
    foldM (align_band lsmr lstsq rs station response use_sparse Ne Nstations) F0 range
    = Raise e /\ (n = 0 -> e = ValueError).
Proof.
  intros Hn Hsel. revert n Hn F0. induction range as [|j range IH]; intros n Hn F0; [done|].
  cbn [foldM]. destruct n as [|n]; simpl in Hn.
  - injection Hn as Hji. subst j. unfold align_band, band_system. rewrite Hsel.
    by exists ValueError.
  - destruct (align_band _ _ _ _ _ _ _ _ F0 j) as [F1|e]; cbn [mbind result_bind].
    + destruct (IH n Hn F1) as (e & -> & _). exists e. split; [done|]. lia.
    + exists e. split; [done|]. lia.
Qed.

(** X15. A frequency band in which no station has a valid site response
    makes [align_site_responses] fail: on well-formed event results the
    call raises an error and rescales nothing; when the band is the first
    one, the error is the [ValueError] of [max] on an empty dictionary of
    areas. *)
Theorem align_band_without_observation rs station response use_sparse Nf i :
  well_formed (existing rs) Nf -> i < Nf ->
  (forall sta, ¬ observed (existing rs) i sta) ->
  exists e,
    align_site_responses lsmr lstsq calculate_source_properties rs station response use_sparse
    = (existing rs, Raise e) /\
    (i = 0 -> e = ValueError).
Proof.
  intros Hwf Hi Hnone. unfold align_site_responses. fold (existing rs).
  cbn [truthy join_unconnected].
  assert (exists e, compute_factors lsmr lstsq (existing rs) station response use_sparse
                    = Raise e /\ (i = 0 -> e = ValueError)) as (e & -> & He).
  { unfold compute_factors. cbn zeta.
    rewrite (get_number_of_freqs_well_formed _ _ Hwf).
    cbn [mbind result_bind py_range of_option fmap option_fmap option_map].
    rewrite length_seq.
    destruct (count_events_total Nf (events (existing rs))) as [Nst ->]; [apply Hwf|].
    cbn [mbind result_bind].
    apply (align_bands_raise _ _ _ _ _ _ _ _ i i).
    - by apply lookup_seq_lt.
    - by eapply no_observation_no_area. }
  by exists e.
Qed.

End Failures.

Lemma align_without_events_witness :
  align_site_responses no_lsmr no_lstsq (fun rs => rs) no_result_example None 1 true
  = ({| events := [] |}, Raise TypeError).
Proof.
  apply (align_without_events no_lsmr no_lstsq (fun rs => rs) no_result_example None 1 true).
  by repeat constructor.
Defined.

Lemma align_band_without_observation_witness :
  exists e,
    align_site_responses no_lsmr no_lstsq (fun rs => rs) no_observation_example None 1 true
    = (existing no_observation_example, Raise e) /\
    (0 = 0 -> e = ValueError).
Proof.
  apply (align_band_without_observation no_lsmr no_lstsq (fun rs => rs)
           no_observation_example None 1 true 1 0).
  - split; [done|]. repeat constructor. eexists. split; [done|]. split; [done|].
    by repeat constructor.
  - lia.
  - intros sta (evid & e & Hin & (Rsta & x & HR & Hx) & _).
    simpl in Hin. rewrite filter_cons in Hin. simpl in Hin.
    apply list_elem_of_singleton in Hin. injection Hin as ? ?; subst.
    simpl in HR. apply list_elem_of_singleton in HR. injection HR as ? ?; subst. done.
Defined.

(** ** The factors are positive *)

Lemma set_column_positive F i col F' k f :
  set_column F i col = Ok F' -> Forall (fun c => 0 < c)%R col ->
  factor_at F' k i = Ok f -> (0 < f)%R.
Proof.
  unfold set_column, factor_at, index. intros H Hpos. rewrite Forall_forall in Hpos.
  case_decide as Hlen.
  - injection H as <-. rewrite lookup_zip_with.
    destruct (F !! k) as [row|] eqn:Hrow; simpl; [|done].
    destruct (col !! k) as [c|] eqn:Hc; simpl; [|done].
    destruct (decide (i < length row)) as [Hi|Hi].
    + rewrite list_lookup_insert_eq by done. simpl. intros [= <-].
      apply Hpos. by eapply list_elem_of_lookup_2.
    + rewrite list_insert_ge by lia. by rewrite lookup_ge_None_2 by lia.
  - destruct col as [|c [|]]; try done. injection H as <-.
    rewrite list_lookup_fmap. destruct (F !! k) as [row|]; simpl; [|done].
    destruct (decide (i < length row)) as [Hi|Hi].
    + rewrite list_lookup_insert_eq by done. simpl. intros [= <-].
      apply Hpos. by left.
    + rewrite list_insert_ge by lia. by rewrite lookup_ge_None_2 by lia.
Qed.

Section Positive.

Variable lsmr : list R -> list nat -> list nat -> nat * nat -> list R -> result (list R).
Variable lstsq : list (list R) -> list R -> result (list R).

Lemma align_bands_other rs station response use_sparse Ne Nstations range F0 F k i :
  foldM (align_band lsmr lstsq rs station response use_sparse Ne Nstations) F0 range = Ok F ->
  i ∉ range -> factor_at F k i = factor_at F0 k i.
Proof.
  revert F0; induction range as [|j range IH]; intros F0; cbn [foldM].
  { by intros [= <-]. }
  destruct (align_band _ _ _ _ _ _ _ _ F0 j) as [F1|] eqn:H1; [|by simpl].
  cbn [mbind result_bind].
  apply align_band_Ok in H1 as (s & x & _ & _ & Hset).
  intros H [Hne Hi]%not_elem_of_cons. rewrite (IH _ H Hi).
  by apply (set_column_other _ _ _ _ _ _ Hset).
Qed.

Lemma align_bands_positive rs station response use_sparse Ne Nstations range F0 F k i f :
  foldM (align_band lsmr lstsq rs station response use_sparse Ne Nstations) F0 range = Ok F ->
  i ∈ range -> factor_at F k i = Ok f -> (0 < f)%R.
Proof.
  revert F0; induction range as [|j range IH]; intros F0; cbn [foldM].
  { by intros _ ?%elem_of_nil. }
  destruct (align_band _ _ _ _ _ _ _ _ F0 j) as [F1|] eqn:H1; [|by simpl].
  cbn [mbind result_bind].
  apply align_band_Ok in H1 as (s & x & _ & _ & Hset).
  intros H Hin Hf. destruct (decide (i ∈ range)) as [Hr|Hr]; [by eapply IH|].
  apply elem_of_cons in Hin as [->|?]; [|done].
  rewrite (align_bands_other _ _ _ _ _ _ _ _ _ k j H Hr) in Hf.
  apply (set_column_positive _ _ _ _ k _ Hset); [|done].
  apply Forall_fmap, Forall_forall. intros c _. apply exp_pos.
Qed.

Lemma compute_factors_entry_positive rs station response use_sparse F k i f :
  compute_factors lsmr lstsq rs station response use_sparse = Ok F ->
  factor_at F k i = Ok f -> (0 < f)%R.
Proof.
  intros HF Hf.
  destruct (compute_factors_spec _ _ _ _ _ _ _ HF)
    as (Nf & Nstations & HNf & HN & Hshape & _).
  unfold compute_factors in HF. cbn zeta in HF. rewrite HNf in HF.
  cbn [mbind result_bind py_range of_option fmap option_fmap option_map] in HF.
  rewrite length_seq, HN in HF. cbn [mbind result_bind] in HF.
  apply (align_bands_positive _ _ _ _ _ _ _ _ _ k i f HF); [|done].
  apply elem_of_seq. destruct Hshape as [_ Hrows]. rewrite Forall_lookup in Hrows.
  unfold factor_at, index in Hf.
  destruct (F !! k) as [row|] eqn:Hrow; simpl in Hf; [|done].
  destruct (row !! i) as [f'|] eqn:Hi; [|done].
  specialize (Hrows _ _ Hrow). apply lookup_lt_Some in Hi. lia.
Qed.


End Positive.


(** ** [construct_ols] appends one equation *)

Lemma construct_ols_rows use_sparse Ne coldata b_val s s' :
  ols_wf s -> construct_ols use_sparse Ne coldata b_val s = Ok s' ->
  use_sparse = true \/ NoDup coldata.*1 ->
  ols_wf s' /\ ols_b s' = ols_b s ++ [b_val] /\ ols_row s' = S (ols_row s) /\
  (forall j x, j < ols_row s ->
               row_value (ols_Arepr s') j x = row_value (ols_Arepr s) j x) /\
  (forall x, row_value (ols_Arepr s') (ols_row s) x = row_sum coldata x).
Proof.
  intros Hwf H Hcase.
  destruct (construct_ols_spec _ _ _ _ _ _ Hwf H) as (Hwf' & _ & _).
  split; [done|]. destruct Hwf as [Hb Hwf]. revert H. unfold construct_ols.
  destruct use_sparse, (ols_Arepr s) as [data rows cols|Arows] eqn:HA; simpl; try done.
  - intros [= <-]. destruct Hwf as (Hr & Hc & Hlt). simpl.
    assert (zip (data ++ coldata.*2) (zip (rows ++ ((fun _ => ols_row s) <$> coldata))
                                          (cols ++ coldata.*1))
            = zip data (zip rows cols)
              ++ zip (coldata.*2) (zip ((fun _ => ols_row s) <$> coldata) (coldata.*1))) as Hzip.
    { rewrite (zip_app_same rows) by lia. rewrite zip_app_same; [done|].
      rewrite length_zip_with. lia. }
    split; [done|]. split; [done|]. split.
    + intros j x Hj. rewrite Hzip, sparse_row_value_app.
      rewrite (sparse_row_value_other (zip coldata.*2 _)); [lra|].
      clear -Hj. induction coldata as [|[c d] coldata IH]; simpl; constructor; simpl;
        [lia|done].
    + intros x. rewrite Hzip, sparse_row_value_app, sparse_row_value_new.
      rewrite sparse_row_value_other; [lra|].
      clear -Hr Hc Hlt. revert rows cols Hr Hc Hlt.
      induction data as [|d data IH]; intros [|r rows] [|c cols]; simpl; try done.
      intros [= Hr] [= Hc] [Hlt1 Hlt]%Forall_cons. constructor; simpl; [lia|eauto].
  - destruct (dense_row Ne coldata) as [Arow|] eqn:Hrow; simpl; [|done].
    intros [= <-]. simpl. split; [done|]. split; [done|]. split.
    + intros j x Hj. by rewrite lookup_app_l by lia.
    + intros x. rewrite lookup_app_r by lia. rewrite Hwf, Nat.sub_diag. simpl.
      destruct Hcase as [?|Hnd]; [done|]. by apply (dense_row_spec Ne).
Qed.

Lemma construct_ols_solves use_sparse Ne coldata b_val s s' x :
  ols_wf s -> construct_ols use_sparse Ne coldata b_val s = Ok s' ->
  use_sparse = true \/ NoDup coldata.*1 ->
  solves s' x -> ols_wf s' /\ solves s x /\ row_sum coldata x = b_val.
Proof.
  intros Hwf H Hcase Hs.
  destruct (construct_ols_rows _ _ _ _ _ _ Hwf H Hcase) as (Hwf' & Hb & Hrow & Hold & Hnew).
  split; [done|]. destruct Hwf as [Hlen _]. unfold solves in *. rewrite Hb in Hs. split.
  - intros j bj Hj. rewrite <- (Hold j x) by (apply lookup_lt_Some in Hj; lia).
    apply Hs. by apply lookup_app_l_Some.
  - rewrite <- Hnew. apply Hs. rewrite lookup_app_r by lia.
    by rewrite Hlen, Nat.sub_diag.
Qed.

(** X17. [construct_ols] appends the equation [coldata . x = b_val] to
    the system, in the sparse and in the dense representation alike: the
    row counter grows by one, [b_val] ends [b], and a vector solves the new
    system exactly when it solves the old one and the new equation. The
    columns of [coldata] must differ for the dense representation, in which
    a later entry of a column would overwrite an earlier one. *)
Theorem construct_ols_appends use_sparse Ne coldata b_val s s' :
  ols_wf s -> construct_ols use_sparse Ne coldata b_val s = Ok s' ->
  use_sparse = true \/ NoDup coldata.*1 ->
  ols_wf s' /\ ols_b s' = ols_b s ++ [b_val] /\ ols_row s' = S (ols_row s) /\
  forall x, solves s' x <-> solves s x /\ row_sum coldata x = b_val.
Proof.
  intros Hwf H Hcase.
  destruct (construct_ols_rows _ _ _ _ _ _ Hwf H Hcase) as (Hwf' & Hb & Hrow & Hold & Hnew).
  split; [done|]. split; [done|]. split; [done|].
  destruct Hwf as [Hlen _]. intros x. unfold solves. rewrite Hb. split.
  - intros Hs. split.
    + intros j bj Hj. rewrite <- (Hold j x) by (apply lookup_lt_Some in Hj; lia).
      apply Hs. by apply lookup_app_l_Some.
    + rewrite <- Hnew. apply Hs. rewrite lookup_app_r by lia.
      by rewrite Hlen, Nat.sub_diag.
  - intros [Hs Hrowx] j bj Hj.
    destruct (decide (j < length (ols_b s))) as [Hlt|Hge].
    + rewrite lookup_app_l in Hj by done. rewrite Hold by lia. by apply Hs.
    + rewrite lookup_app_r in Hj by lia.
      destruct (j - length (ols_b s)) as [|n] eqn:Hn; simpl in Hj; [|by destruct n].
      injection Hj as <-. assert (j = ols_row s) as -> by lia. by rewrite Hnew.
Qed.

Lemma construct_ols_appends_witness :
  exists s',
    construct_ols false 2 [(1, 1%R); (0, (-1)%R)] 5%R (ols_init false) = Ok s' /\
    ols_wf s' /\ ols_b s' = ols_b (ols_init false) ++ [5%R] /\
    ols_row s' = S (ols_row (ols_init false)) /\
    forall x, solves s' x <->
              solves (ols_init false) x /\ row_sum [(1, 1%R); (0, (-1)%R)] x = 5%R.
Proof.
  eexists. split; [reflexivity|].
  apply (construct_ols_appends false 2 [(1, 1%R); (0, (-1)%R)] 5%R (ols_init false)).
  - apply ols_init_wf.
  - reflexivity.
  - right. simpl. repeat constructor; set_solver.
Defined.

(** ** One station in several events *)

Lemma ordered_observations_app l1 l2 :
  ordered_observations (l1 ++ l2) <->
  ordered_observations l1 /\ ordered_observations l2 /\
  forall o1 o2, o1 ∈ l1 -> o2 ∈ l2 -> before o1 o2.
Proof.
  induction l1 as [|o l1 IH]; simpl.
  { split; [intros ?; split; [done|split; [done|]]; by intros ? ? ?%elem_of_nil|tauto]. }
  rewrite Forall_app, IH. split.
  - intros [[H1 H2] (H3 & H4 & H5)]. split; [done|]. split; [done|].
    intros o1 o2 [->|?]%elem_of_cons Ho2; [|by apply H5].
    rewrite Forall_forall in H2. by apply H2.
  - intros [[H1 H2] [H3 H4]]. split; [split; [done|]|].
    + apply Forall_forall. intros o2 Ho2. apply H4; [by left|done].
    + split; [done|]. split; [done|]. intros o1 o2 Ho1 Ho2. apply H4; [by right|done].
Qed.

Lemma ordered_observations_filter (P : observation -> Prop) `{!forall o, Decision (P o)} l :
  ordered_observations l -> ordered_observations (filter P l).
Proof.
  induction l as [|o l IH]; simpl; [done|]. intros [Ho Hl].
  rewrite filter_cons. case_decide; [|by apply IH]. simpl. split; [|by apply IH].
  apply Forall_forall. intros o' [_ Ho']%list_elem_of_filter.
  rewrite Forall_forall in Ho. by apply Ho.
Qed.

Lemma station_observations_ordered i k Rs :
  NoDup Rs.*1 -> ordered_observations (station_observations i k Rs).
Proof.
  induction Rs as [|[sta Rsta] Rs IH]; simpl; [done|].
  intros [Hsta Hnd]%NoDup_cons.
  destruct (Rsta !! i) as [[| |x]|]; try by apply IH.
  simpl. split; [|by apply IH].
  apply Forall_forall. intros o' Ho' Heq. exfalso. simpl in Heq.
  apply station_observations_elem in Ho' as [_ (l & Hin & _)].
  apply Hsta. apply list_elem_of_fmap. exists (obs_station o', l). by rewrite Heq.
Qed.

Lemma event_observations_ge i k evs o :
  o ∈ event_observations i k evs -> k <= obs_event o.
Proof.
  intros (n & item & _ & -> & _)%event_observations_elem. lia.
Qed.

Lemma event_observations_ordered i k evs :
  Forall (fun item : string * option eres =>
            forall e, item.2 = Some e -> NoDup (res_R e).*1) evs ->
  ordered_observations (event_observations i k evs).
Proof.
  revert k; induction evs as [|item evs IH]; intros k Huniq; simpl; [done|].
  apply Forall_cons in Huniq as [Hitem Huniq].
  apply ordered_observations_app. split; [|split; [by apply IH|]].
  - destruct (item.2) as [e|]; simpl; [|done].
    apply station_observations_ordered. by apply Hitem.
  - intros o1 o2 Ho1 Ho2 _.
    apply station_observations_elem in Ho1 as [-> _].
    apply event_observations_ge in Ho2. lia.
Qed.

Lemma observations_ordered i area rs :
  unique_stations rs -> ordered_observations (observations i area rs).
Proof.
  intros Huniq. unfold observations, valid_observations.
  apply ordered_observations_filter. by apply event_observations_ordered.
Qed.

Section Pairs.

Variable use_sparse : bool.
Variable Ne : nat.
Variable station : option string.
Variable response : R.
Variable Nstations_i : gmap string nat.
Variable largest_area : gset string.

Notation observe_one' := (observe_one use_sparse Ne station response Nstations_i).

Lemma normalize_last k sta x s s' :
  normalize station Nstations_i k sta x s = Ok s' ->
  bs_ols s' = bs_ols s /\ bs_last s' = bs_last s.
Proof.
  unfold normalize. destruct station; [by intros [= <-]|].
  destruct (default 0 (Nstations_i !! sta)); [done|]. by intros [= <-].
Qed.

Lemma observe_one_chained s seen o s' :
  chained station s seen ->
  observe_one' s o = Ok s' ->
  (forall o', o' ∈ seen -> before o' o) ->
  chained station s' (seen ++ [o]).
Proof.
  intros (Hwf & Hlast & Hchain) Hone Hbefore. unfold observe_one in Hone.
  destruct (normalize station Nstations_i _ _ _ s) as [s1|] eqn:Hn; simpl in Hone; [|done].
  apply normalize_last in Hn as [Hols1 Hlast1].
  rewrite <- Hols1 in Hwf, Hchain. rewrite <- Hlast1 in Hlast, Hchain.
  clear Hols1 Hlast1 s. rename s1 into s.
  destruct o as [k sta v]. simpl in *. unfold add_pair in Hone.
  case_decide as Hst.
  - (* the pinned station *)
    destruct (construct_ols _ _ _ _ _) as [o1|] eqn:Ho1; simpl in Hone; [|done].
    injection Hone as <-.
    assert (use_sparse = true \/ NoDup [(k, 1%R)].*1) as Hcase.
    { right. simpl. apply NoDup_singleton. }
    assert (ols_wf o1) as Hwf1.
    { by destruct (construct_ols_rows _ _ _ _ _ _ Hwf Ho1 Hcase) as [? _]. }
    split; [done|]. simpl. split.
    + intros sta' kl xl Hl. destruct (Hlast _ _ _ Hl) as (o & Ho & ?).
      exists o. split; [|done]. apply elem_of_app. by left.
    + intros x Hx' o [Ho|Ho%list_elem_of_singleton]%elem_of_app Hne.
      destruct (construct_ols_solves _ _ _ _ _ _ x Hwf Ho1 Hcase Hx') as (_ & Hx & _).
      * by apply Hchain.
      * subst o. simpl in Hne. done.
  - destruct (bs_last s !! sta) as [[kl xl]|] eqn:Hl.
    + (* a pair with the last observation of the station *)
      destruct (construct_ols _ _ _ _ _) as [o1|] eqn:Ho1; simpl in Hone; [|done].
      injection Hone as <-.
      destruct (Hlast _ _ _ Hl) as (ol & Hol & Hsta & Hkl & Hxl).
      pose proof (Hbefore ol Hol Hsta) as Hlt. simpl in Hlt.
      assert (use_sparse = true \/ NoDup [(k, 1%R); (kl, (-1)%R)].*1) as Hcase.
      { right. simpl. apply NoDup_cons. split; [|apply NoDup_singleton].
        intros ?%list_elem_of_singleton. lia. }
      assert (ols_wf o1) as Hwf1.
      { by destruct (construct_ols_rows _ _ _ _ _ _ Hwf Ho1 Hcase) as [? _]. }
      split; [done|]. simpl. split.
      * intros sta' kl' xl' Hl'. destruct (decide (sta' = sta)) as [->|Hne].
        -- rewrite lookup_insert_eq in Hl'. injection Hl' as <- <-.
           exists {| obs_event := k; obs_station := sta; obs_value := v |}.
           split; [|done]. apply elem_of_app. right. by left.
        -- rewrite lookup_insert_ne in Hl' by done.
           destruct (Hlast _ _ _ Hl') as (o & Ho & ?).
           exists o. split; [|done]. apply elem_of_app. by left.
      * intros x Hx' o [Ho|Ho%list_elem_of_singleton]%elem_of_app Hne.
        -- destruct (construct_ols_solves _ _ _ _ _ _ x Hwf Ho1 Hcase Hx') as (_ & Hx & Hrow).
           destruct (Hchain x Hx o Ho Hne) as (kl' & xl' & Hl' & Heq).
           destruct (decide (obs_station o = sta)) as [Hs|Hs].
           ++ rewrite Hs in Hl' |- *. rewrite lookup_insert_eq.
              rewrite Hl in Hl'. injection Hl' as <- <-.
              exists k, v. split; [done|]. rewrite Heq.
              unfold row_sum, lin in Hrow. simpl in Hrow. lra.
           ++ rewrite lookup_insert_ne by done. by exists kl', xl'.
        -- subst o. simpl. rewrite lookup_insert_eq. by exists k, v.
    + (* the first observation of the station *)
      injection Hone as <-. split; [done|]. simpl. split.
      * intros sta' kl' xl' Hl'. destruct (decide (sta' = sta)) as [->|Hne].
        -- rewrite lookup_insert_eq in Hl'. injection Hl' as <- <-.
           exists {| obs_event := k; obs_station := sta; obs_value := v |}.
           split; [|done]. apply elem_of_app. right. by left.
        -- rewrite lookup_insert_ne in Hl' by done.
           destruct (Hlast _ _ _ Hl') as (o & Ho & ?).
           exists o. split; [|done]. apply elem_of_app. by left.
      * intros x Hx o [Ho|Ho%list_elem_of_singleton]%elem_of_app Hne.
        -- destruct (Hchain x Hx o Ho Hne) as (kl' & xl' & Hl' & Heq).
           destruct (decide (obs_station o = sta)) as [Hs|Hs].
           ++ rewrite Hs, Hl in Hl'. done.
           ++ rewrite lookup_insert_ne by done. by exists kl', xl'.
        -- subst o. simpl. rewrite lookup_insert_eq. by exists k, v.
Qed.

Lemma observations_chained obs s seen s' :
  chained station s seen ->
  foldM observe_one' s obs = Ok s' ->
  ordered_observations (seen ++ obs) ->
  chained station s' (seen ++ obs).
Proof.
  revert s seen; induction obs as [|o obs IH]; intros s seen Hc; cbn [foldM].
  { intros [= <-] _. by rewrite app_nil_r. }
  destruct (observe_one' s o) as [s1|] eqn:H1; cbn [mbind result_bind]; [|done].
  intros H Hord. rewrite (cons_middle o seen obs), app_assoc in Hord |- *.
  apply (IH s1); [|done..].
  apply (observe_one_chained s seen o s1 Hc H1).
  intros o' Ho'. apply ordered_observations_app in Hord as [Hord _].
  apply ordered_observations_app in Hord as (_ & _ & Hord).
  apply Hord; [done|by left].
Qed.

(** Every solution of the system of a band gives the observations of one
    station, other than the pinned one, the same value of
    [ln Rsta + x[k]]. *)
Lemma build_system_pairs i evs sfin x o1 o2 :
  build_system use_sparse Ne station response Nstations_i largest_area i evs = Ok sfin ->
  ordered_observations (filter (fun o => obs_station o ∈ largest_area)
                               (event_observations i 0 evs)) ->
  solves sfin x ->
  o1 ∈ filter (fun o => obs_station o ∈ largest_area) (event_observations i 0 evs) ->
  o2 ∈ filter (fun o => obs_station o ∈ largest_area) (event_observations i 0 evs) ->
  obs_station o1 = obs_station o2 -> Some (obs_station o1) <> station ->
  (at_ x (obs_event o1) + ln (obs_value o1) = at_ x (obs_event o2) + ln (obs_value o2))%R.
Proof.
  unfold build_system.
  destruct (observe_events _ _ _ _ _ _ _ _ _ _) as [s1|] eqn:Hobs; simpl; [|done].
  apply observe_events_flat in Hobs. intros Hnorm Hord Hx Ho1 Ho2 Hsta Hne.
  assert (chained station (build_init use_sparse) []) as Hinit.
  { split; [apply ols_init_wf|]. split.
    - intros sta kl xl Hl. simpl in Hl. by rewrite lookup_empty in Hl.
    - by intros ? ? ? ?%elem_of_nil. }
  destruct (observations_chained _ _ [] _ Hinit Hobs Hord) as (Hwf & _ & Hchain).
  simpl in Hchain.
  assert (solves (bs_ols s1) x) as Hx1.
  { unfold normalization_row in Hnorm. destruct station as [S|] eqn:Hst.
    - by injection Hnorm as <-.
    - destruct (observations_norm use_sparse Ne None response Nstations_i _ _ _ eq_refl Hobs)
        as (Hnd & _ & _); [constructor|].
      by destruct (construct_ols_solves _ _ _ _ _ _ x Hwf Hnorm (or_intror Hnd) Hx)
        as (_ & ? & _). }
  destruct (Hchain x Hx1 o1 Ho1 Hne) as (kl1 & xl1 & Hl1 & Heq1).
  destruct (Hchain x Hx1 o2 Ho2) as (kl2 & xl2 & Hl2 & Heq2); [by rewrite <- Hsta|].
  rewrite <- Hsta, Hl1 in Hl2. injection Hl2 as <- <-. lra.
Qed.

End Pairs.

Section Aligned.

Variable lsmr : list R -> list nat -> list nat -> nat * nat -> list R -> result (list R).
Variable lstsq : list (list R) -> list R -> result (list R).
Variable calculate_source_properties : results -> results.
Hypothesis csp_frame : keeps_events calculate_source_properties.

(** X18. Let the call return, let the solver's solutions satisfy their
    systems exactly, and let no station occur twice in an event. Then a
    station of the selected area of a band, other than the pinned one, has
    the same rescaled site response in all the events in which it has a
    positive site response and the event has a source energy: the site
    responses of the station are aligned. *)
Theorem same_station_aligned rs station r use_sparse rs' i area sta k1 k2 a1 a2 w1 w2 :
  exact_on lsmr lstsq (existing rs) station r use_sparse ->
  unique_stations (existing rs) ->
  align_site_responses lsmr lstsq calculate_source_properties rs station r use_sparse
  = (rs', Ok tt) ->
  selected_area (existing rs) i = Ok area -> sta ∈ area -> Some sta <> station ->
  amplification (existing rs) k1 sta i = Some (Num a1) -> (0 < a1)%R ->
  amplification (existing rs) k2 sta i = Some (Num a2) -> (0 < a2)%R ->
  energy (existing rs) k1 i = Some (Num w1) ->
  energy (existing rs) k2 i = Some (Num w2) ->
  exists v, amplification rs' k1 sta i = Some (Num v) /\
            amplification rs' k2 sta i = Some (Num v).
Proof.
  intros Hexact Huniq Halign Harea Hsta Hne Ha1 Hp1 Ha2 Hp2 Hw1 Hw2.
  destruct (align_site_responses_Ok _ _ _ csp_frame _ _ _ _ _ Halign)
    as (F & rs2 & HF & Hrs2 & Hev).
  rewrite !(amplification_events _ _ _ _ _ Hev).
  destruct (compute_factors_spec _ _ _ _ _ _ _ HF)
    as (Nf & Nstations & HNf & HN & Hshape & Hband).
  destruct (energy_lt _ _ _ _ _ HNf Hw1) as [Hk1 Hi].
  destruct (energy_lt _ _ _ _ _ HNf Hw2) as [Hk2 _].
  destruct (Hband i Hi) as (s & x & Hs & Hx & Hfac).
  destruct (Hexact Nf Nstations i s x HNf HN Hs Hx) as [Hsolves Hlen].
  destruct (factor_at_shape _ _ _ k1 i Hshape Hk1 Hi) as [f1 Hf1].
  destruct (factor_at_shape _ _ _ k2 i Hshape Hk2 Hi) as [f2 Hf2].
  destruct (Hfac Hlen k1 f1 Hf1) as [_ ->]. destruct (Hfac Hlen k2 f2 Hf2) as [_ ->].
  assert (at_ x k1 + ln a1 = at_ x k2 + ln a2)%R as Heq.
  { unfold band_system in Hs. rewrite Harea in Hs. simpl in Hs.
    destruct (index Nstations i) as [N|]; simpl in Hs; [|done].
    apply (build_system_pairs _ _ _ _ _ _ _ _ _ _
             {| obs_event := k1; obs_station := sta; obs_value := a1 |}
             {| obs_event := k2; obs_station := sta; obs_value := a2 |} Hs); try done.
    - by apply (observations_ordered i area (existing rs)).
    - apply list_elem_of_filter. split; [done|].
      exact (amplification_observation (existing rs) k1 sta i a1 Ha1).
    - apply list_elem_of_filter. split; [done|].
      exact (amplification_observation (existing rs) k2 sta i a2 Ha2). }
  pose proof (rescale_results_cell _ _ _ k1 sta i _ Hrs2 Hw1) as Hc1.
  pose proof (rescale_results_cell _ _ _ k2 sta i _ Hrs2 Hw2) as Hc2.
  rewrite !cell_eq in Hc1, Hc2. unfold rescaled_cell in Hc1, Hc2.
  cbn [fst snd] in Hc1, Hc2.
  rewrite Hw1, Hf1, Ha1 in Hc1. rewrite Hw2, Hf2, Ha2 in Hc2. simpl in Hc1, Hc2.
  injection Hc1 as _ ->. injection Hc2 as _ ->.
  exists (a1 * exp (at_ x k1))%R. split; [done|]. do 2 f_equal.
  rewrite <- (exp_ln a1) at 1 by done. rewrite <- (exp_ln a2) at 1 by done.
  rewrite <- !exp_plus. f_equal. lra.
Qed.

End Aligned.

Lemma shared_station_example_existing :
  existing shared_station_example = shared_station_example.
Proof. reflexivity. Qed.

Lemma shared_station_example_exact :
  exact_on no_lsmr shared_station_lstsq (existing shared_station_example) None 1 false.
Proof.
  rewrite shared_station_example_existing. unfold exact_on.
  intros Nf Nstations i s x HNf HN Hs Hx.
  assert (Nf = 1) as -> by (vm_compute in HNf; congruence).
  assert (Nstations = [ {["A"%string := 2]} ]) as ->.
  { assert (count_events 1 (events shared_station_example) = Ok [ {["A"%string := 2]} ])
      as HN' by (vm_compute; reflexivity).
    congruence. }
  destruct i as [|i]; [|by vm_compute in Hs].
  assert (band_system shared_station_example None 1 false 2 [ {["A"%string := 2]} ] 0
          = Ok {| ols_b := [(ln 2 - ln 8)%R;
                            (0 - ln 2 * (1 / INR 2 / INR 1) - ln 8 * (1 / INR 2 / INR 1)
                             + ln 1)%R];
                  ols_row := 2;
                  ols_Arepr := DenseRepr [[(-1)%R; 1%R];
                                          [(0 + 1 / INR 2 / INR 1)%R;
                                           (0 + 1 / INR 2 / INR 1)%R]] |}) as Hs'
    by (vm_compute; reflexivity).
  assert (length (events shared_station_example) = 2) as Hlen by reflexivity.
  rewrite Hlen in Hs, Hx |- *. rewrite decide_False in Hs, Hx by lia.
  rewrite Hs' in Hs. injection Hs as <-.
  cbn in Hx. injection Hx as <-.
  split; [|done]. intros j bj Hj. destruct j as [|[|j]]; [| |done].
  - injection Hj as <-. unfold row_value, dot. simpl. lra.
  - injection Hj as <-. unfold row_value, dot. simpl. rewrite ln_1. lra.
Qed.

Lemma same_station_aligned_witness :
  exists rs' v,
    align_site_responses no_lsmr shared_station_lstsq (fun rs => rs)
      shared_station_example None 1 false = (rs', Ok tt) /\
    amplification rs' 0 "A" 0 = Some (Num v) /\
    amplification rs' 1 "A" 0 = Some (Num v).
Proof.
  assert (exists rs', align_site_responses no_lsmr shared_station_lstsq (fun rs => rs)
                        shared_station_example None 1 false = (rs', Ok tt)) as [rs' Halign].
  { eexists. vm_compute. reflexivity. }
  assert (unique_stations (existing shared_station_example)) as Huniq.
  { repeat constructor; intros e [= <-]; simpl; apply NoDup_singleton. }
  assert (selected_area (existing shared_station_example) 0 = Ok {["A"%string]}) as Harea.
  { vm_compute. reflexivity. }
  assert ("A"%string ∈ ({["A"%string]} : gset string)) as Hsta by set_solver.
  assert (Some "A"%string <> None) as Hne by done.
  assert (0 < 2)%R as Hp1 by lra. assert (0 < 8)%R as Hp2 by lra.
  destruct (same_station_aligned no_lsmr shared_station_lstsq (fun rs => rs)
              (fun rs => eq_refl) shared_station_example None 1 false rs'
              0 {["A"%string]} "A"%string 0 1 2 8 1 1
              shared_station_example_exact Huniq Halign Harea Hsta Hne
              eq_refl Hp1 eq_refl Hp2 eq_refl eq_refl) as [v Hv].
  by exists rs', v.
Defined.

(** ** The sparse and the dense representation *)

Lemma construct_ols_same Ne coldata b_val o1 o2 o1' o2' :
  same_system o1 o2 -> NoDup coldata.*1 ->
  construct_ols true Ne coldata b_val o1 = Ok o1' ->
  construct_ols false Ne coldata b_val o2 = Ok o2' ->
  same_system o1' o2'.
Proof.
  intros (Hwf1 & Hwf2 & Hb & Hrow & Hval) Hnd H1 H2.
  destruct (construct_ols_rows _ _ _ _ _ _ Hwf1 H1) as (Hwf1' & Hb1 & Hr1 & Hold1 & Hnew1);
    [by left|].
  destruct (construct_ols_rows _ _ _ _ _ _ Hwf2 H2) as (Hwf2' & Hb2 & Hr2 & Hold2 & Hnew2);
    [by right|].
  split; [done|]. split; [done|]. split; [by rewrite Hb1, Hb2, Hb|].
  split; [by rewrite Hr1, Hr2, Hrow|].
  intros j x Hj. destruct (decide (j < ols_row o1)) as [Hlt|Hge].
  - rewrite Hold1, Hold2 by lia. by apply Hval.
  - assert (j = ols_row o1) as -> by lia. rewrite Hnew1. rewrite Hrow. by rewrite Hnew2.
Qed.

Lemma row_value_outside o j x :
  ols_wf o -> ols_row o <= j -> row_value (ols_Arepr o) j x = 0%R.
Proof.
  intros [Hb Hwf] Hj. destruct (ols_Arepr o) as [data rows cols|Arows]; simpl.
  - destruct Hwf as (_ & _ & Hlt). apply sparse_row_value_other.
    clear -Hlt Hj. revert rows cols Hlt. induction data as [|d data IH];
      intros [|r rows] [|c cols]; simpl; try constructor.
    + apply Forall_cons in Hlt as [? ?]. simpl. lia.
    + apply Forall_cons in Hlt as [? ?]. by apply IH.
  - rewrite lookup_ge_None_2 by lia. apply dot_nil_l.
Qed.

Section Representations.

Variable Ne : nat.
Variable station : option string.
Variable response : R.
Variable Nstations_i : gmap string nat.
Variable largest_area : gset string.

Lemma normalize_same k sta x s1 s2 s1' s2' :
  same_state s1 s2 ->
  normalize station Nstations_i k sta x s1 = Ok s1' ->
  normalize station Nstations_i k sta x s2 = Ok s2' ->
  same_state s1' s2'.
Proof.
  intros (Hols & HA & Hb & Hf & Hl). unfold normalize.
  destruct station; [by intros [= <-] [= <-]|].
  destruct (default 0 (Nstations_i !! sta)); [done|].
  intros [= <-] [= <-]. unfold same_state. simpl. by rewrite HA, Hb.
Qed.

Lemma observe_one_same s1 s2 seen o s1' s2' :
  same_state s1 s2 -> chained station s2 seen ->
  (forall o', o' ∈ seen -> before o' o) ->
  observe_one true Ne station response Nstations_i s1 o = Ok s1' ->
  observe_one false Ne station response Nstations_i s2 o = Ok s2' ->
  same_state s1' s2'.
Proof.
  intros Hsame Hchained Hbefore H1 H2. unfold observe_one in H1, H2.
  destruct (normalize station Nstations_i _ _ _ s1) as [t1|] eqn:Hn1; simpl in H1; [|done].
  destruct (normalize station Nstations_i _ _ _ s2) as [t2|] eqn:Hn2; simpl in H2; [|done].
  pose proof (normalize_same _ _ _ _ _ _ _ Hsame Hn1 Hn2) as (Hols & HA & Hb & Hf & Hl).
  apply normalize_last in Hn2 as [_ Hlast2].
  destruct Hchained as (_ & Hlast & _). rewrite <- Hlast2 in Hlast.
  destruct o as [k sta v]. simpl in *. unfold add_pair in H1, H2.
  case_decide as Hst.
  - destruct (construct_ols true _ _ _ _) as [o1|] eqn:Ho1; simpl in H1; [|done].
    destruct (construct_ols false _ _ _ _) as [o2|] eqn:Ho2; simpl in H2; [|done].
    injection H1 as <-. injection H2 as <-. unfold same_state. simpl.
    split; [|done]. eapply construct_ols_same; [exact Hols| |exact Ho1|exact Ho2].
    simpl. apply NoDup_singleton.
  - rewrite Hl in H1. destruct (bs_last t2 !! sta) as [[kl xl]|] eqn:Hlk.
    + destruct (construct_ols true _ _ _ _) as [o1|] eqn:Ho1; simpl in H1; [|done].
      destruct (construct_ols false _ _ _ _) as [o2|] eqn:Ho2; simpl in H2; [|done].
      injection H1 as <-. injection H2 as <-. unfold same_state. simpl.
      split; [|done]. eapply construct_ols_same; [exact Hols| |exact Ho1|exact Ho2].
      destruct (Hlast _ _ _ Hlk) as (ol & Hol & Hsta & Hkl & _).
      pose proof (Hbefore ol Hol Hsta) as Hlt. simpl in Hlt.
      simpl. apply NoDup_cons. split; [|apply NoDup_singleton].
      intros ?%list_elem_of_singleton. lia.
    + injection H1 as <-. injection H2 as <-. unfold same_state. simpl.
      by rewrite Hf.
Qed.

Lemma observations_same obs s1 s2 seen s1' s2' :
  same_state s1 s2 -> chained station s2 seen ->
  ordered_observations (seen ++ obs) ->
  foldM (observe_one true Ne station response Nstations_i) s1 obs = Ok s1' ->
  foldM (observe_one false Ne station response Nstations_i) s2 obs = Ok s2' ->
  same_state s1' s2'.
Proof.
  revert s1 s2 seen; induction obs as [|o obs IH]; intros s1 s2 seen Hsame Hc Hord;
    cbn [foldM].
  { by intros [= <-] [= <-]. }
  destruct (observe_one true _ _ _ _ s1 o) as [t1|] eqn:H1; cbn [mbind result_bind]; [|done].
  destruct (observe_one false _ _ _ _ s2 o) as [t2|] eqn:H2; cbn [mbind result_bind]; [|done].
  rewrite (cons_middle o seen obs), app_assoc in Hord.
  assert (forall o', o' ∈ seen -> before o' o) as Hbefore.
  { intros o' Ho'. apply ordered_observations_app in Hord as [Hord _].
    apply ordered_observations_app in Hord as (_ & _ & Hord).
    apply Hord; [done|by left]. }
  apply (IH t1 t2 (seen ++ [o])); [|by eapply observe_one_chained|done].
  by eapply observe_one_same.
Qed.

Lemma build_system_same i evs o1 o2 :
  ordered_observations (filter (fun o => obs_station o ∈ largest_area)
                               (event_observations i 0 evs)) ->
  build_system true Ne station response Nstations_i largest_area i evs = Ok o1 ->
  build_system false Ne station response Nstations_i largest_area i evs = Ok o2 ->
  same_system o1 o2.
Proof.
  intros Hord. unfold build_system.
  destruct (observe_events true _ _ _ _ _ _ _ _ _) as [s1|] eqn:Hobs1; simpl; [|done].
  destruct (observe_events false _ _ _ _ _ _ _ _ _) as [s2|] eqn:Hobs2; simpl; [|done].
  apply observe_events_flat in Hobs1, Hobs2.
  assert (same_state (build_init true) (build_init false)) as Hinit.
  { split; [|done]. split; [apply ols_init_wf|]. split; [apply ols_init_wf|].
    split; [done|]. split; [done|]. intros j x Hj. simpl in Hj. lia. }
  assert (chained station (build_init false) []) as Hc.
  { split; [apply ols_init_wf|]. split.
    - intros sta kl xl Hl. simpl in Hl. by rewrite lookup_empty in Hl.
    - by intros ? ? ? ?%elem_of_nil. }
  pose proof (observations_same _ _ _ [] _ _ Hinit Hc Hord Hobs1 Hobs2)
    as (Hols & HA & Hb & _ & _).
  unfold normalization_row. destruct station as [S|] eqn:Hst.
  - by intros [= <-] [= <-].
  - intros H1 H2. rewrite HA, Hb in H1.
    destruct (observations_norm false Ne None response Nstations_i _ _ _ eq_refl Hobs2)
      as (Hnd & _ & _); [constructor|].
    by eapply construct_ols_same.
Qed.

End Representations.

(** X19. The flag [use_sparse] changes the representation of the system
    of a band and nothing else: when no station occurs twice in an event, the
    sparse and the dense system have the same right-hand sides and the same
    rows, hence the same solutions. *)
Theorem band_system_representations rs station response Ne Nstations i s_sparse s_dense :
  unique_stations rs ->
  band_system rs station response true Ne Nstations i = Ok s_sparse ->
  band_system rs station response false Ne Nstations i = Ok s_dense ->
  ols_b s_sparse = ols_b s_dense /\
  (forall j x, row_value (ols_Arepr s_sparse) j x = row_value (ols_Arepr s_dense) j x) /\
  (forall x, solves s_sparse x <-> solves s_dense x).
Proof.
  intros Huniq. unfold band_system.
  destruct (selected_area rs i) as [area|]; simpl; [|done].
  destruct (index Nstations i) as [N|]; simpl; [|done].
  intros H1 H2.
  destruct (build_system_same _ _ _ _ _ _ _ _ _
              (observations_ordered i area rs Huniq) H1 H2)
    as (Hwf1 & Hwf2 & Hb & Hrow & Hval).
  assert (forall j x, row_value (ols_Arepr s_sparse) j x = row_value (ols_Arepr s_dense) j x)
    as Hall.
  { intros j x. destruct (decide (j < ols_row s_sparse)) as [Hlt|Hge]; [by apply Hval|].
    rewrite !row_value_outside; [done|done|lia|done|lia]. }
  split; [done|]. split; [done|].
  intros x. unfold solves. rewrite Hb. split; intros Hs j bj Hj.
  - rewrite <- Hall. by apply Hs.
  - rewrite Hall. by apply Hs.
Qed.

Lemma band_system_representations_witness :
  exists s_sparse s_dense,
    band_system shared_station_example None 1 true 2 [shared_station_counts] 0 = Ok s_sparse /\
    band_system shared_station_example None 1 false 2 [shared_station_counts] 0 = Ok s_dense /\
    ols_b s_sparse = ols_b s_dense /\
    (forall j x, row_value (ols_Arepr s_sparse) j x = row_value (ols_Arepr s_dense) j x) /\
    (forall x, solves s_sparse x <-> solves s_dense x).
Proof.
  assert (exists s, band_system shared_station_example None 1 true 2
                      [shared_station_counts] 0 = Ok s) as [s1 H1].
  { eexists. vm_compute. reflexivity. }
  assert (exists s, band_system shared_station_example None 1 false 2
                      [shared_station_counts] 0 = Ok s) as [s2 H2].
  { eexists. vm_compute. reflexivity. }
  exists s1, s2. split; [done|]. split; [done|].
  apply (band_system_representations shared_station_example None 1 2
           [shared_station_counts] 0 s1 s2); [|done..].
  repeat constructor; intros e [= <-]; simpl; apply NoDup_singleton.
Defined.

(** ** Alignment keeps the products of energy and site response *)

Section Products.

Variable lsmr : list R -> list nat -> list nat -> nat * nat -> list R -> result (list R).
Variable lstsq : list (list R) -> list R -> result (list R).
Variable calculate_source_properties : results -> results.
Hypothesis csp_frame : keeps_events calculate_source_properties.


End Products.


(** ** Joining of areas *)

Lemma join_loop_eq max_distance st :
  join_loop max_distance st
  = match join_step max_distance st with
    | Raise e => Raise e
    | Ok None => Ok st
    | Ok (Some st') => join_loop max_distance st'
    end.
Proof.
  funelim (join_loop max_distance st);
    match goal with H : join_step _ _ = _ |- _ => by rewrite H end.
Qed.

(** What every round of the loop keeps, the loop keeps. *)
Lemma join_loop_invariant (P : join_state -> Prop) max_distance :
  (forall st st', P st -> join_step max_distance st = Ok (Some st') -> P st') ->
  forall st st', P st -> join_loop max_distance st = Ok st' -> P st'.
Proof.
  intros Hstep st. funelim (join_loop max_distance st); intros st2 HP.
  - match goal with IH : forall _ : _, _ |- _ => apply IH; eauto end.
  - by intros [= <-].
  - done.
Qed.

Lemma Rltb_true x y : (x < y)%R -> Rltb x y = true.
Proof. intros H. unfold Rltb. by destruct (Rlt_dec x y). Qed.

Lemma Rltb_false x y : ¬ (x < y)%R -> Rltb x y = false.
Proof. intros H. unfold Rltb. by destruct (Rlt_dec x y). Qed.

Section Joining.

Variable ConvexHull : list (R * R) -> result (list nat).
Variable gps2dist_azimuth : R -> R -> R -> R -> result R.

Lemma distances_single coordinates (areas hulls : list (string * gset string)) :
  length areas <= 1 -> distances gps2dist_azimuth coordinates areas hulls = Ok [].
Proof.
  destruct areas as [|[a1 v1] [|? ?]]; simpl; [done| |lia]. intros _.
  unfold distances, area_distance. simpl. rewrite decide_True by (by right). done.
Qed.

(** X21. With one area, or none, there is nothing to join: when the
    station coordinates are there and the hull reduction returns,
    [_join_unconnected_areas] returns the areas as they are, no near
    stations, and computes no distance. *)
Theorem join_single_area (areas hulls : list (string * gset string)) max_distance inv
    coordinates :
  length areas <= 1 ->
  _collect_station_coordinates inv = Ok coordinates ->
  hull_reduction ConvexHull coordinates areas = Ok hulls ->
  _join_unconnected_areas ConvexHull (join_by_distance gps2dist_azimuth) areas max_distance inv
  = Ok (areas, []).
Proof.
  intros Hlen Hinv Hhulls. unfold _join_unconnected_areas. rewrite Hinv. simpl.
  rewrite Hhulls. simpl. unfold join_by_distance.
  rewrite (distances_single _ _ _ Hlen). simpl.
  rewrite join_loop_eq. done.
Qed.

(** X22. When the nearest two areas are farther apart than
    [max_distance], the loop stops at once: the areas are returned as they
    are, with no near stations. *)
Theorem join_nothing_near (areas hulls : list (string * gset string)) max_distance
    coordinates distance :
  distances gps2dist_azimuth coordinates areas hulls = Ok distance ->
  Forall (fun entry => max_distance < entry.2.1)%R distance ->
  join_by_distance gps2dist_azimuth areas hulls max_distance coordinates = Ok (areas, []).
Proof.
  intros Hd Hfar. unfold join_by_distance. rewrite Hd. simpl.
  rewrite join_loop_eq. unfold join_step. simpl.
  destruct distance as [|first rest]; [done|].
  rewrite Rltb_true; [done|].
  rewrite Forall_forall in Hfar. apply Hfar. apply min_by_elem.
Qed.

End Joining.

(** *** What a join keeps *)

Lemma dict_del_union (d : list (string * gset string)) k v :
  dict_get d k = Some v -> ⋃ d.*2 = ⋃ (dict_del d k).*2 ∪ v.
Proof.
  induction d as [|[k0 v0] d IH]; [done|]. cbn [dict_get dict_del].
  case_decide as Hk.
  - intros [= ->]. rewrite fmap_cons, union_list_cons. cbn [snd]. set_solver.
  - intros H. rewrite !fmap_cons, !union_list_cons, (IH H). cbn [snd]. set_solver.
Qed.

Lemma dict_set_union (d : list (string * gset string)) k v1 v :
  dict_get d k = Some v1 -> v1 ⊆ v -> ⋃ (dict_set d k v).*2 = ⋃ d.*2 ∪ v.
Proof.
  induction d as [|[k0 v0] d IH]; [done|]. cbn [dict_get dict_set].
  case_decide as Hk.
  - intros [= ->] Hsub. rewrite !fmap_cons, !union_list_cons. cbn [snd]. set_solver.
  - intros H Hsub. rewrite !fmap_cons, !union_list_cons, (IH H Hsub). cbn [snd]. set_solver.
Qed.

Lemma dict_set_present_keys {V} (d : list (string * V)) k v :
  is_Some (dict_get d k) -> (dict_set d k v).*1 = d.*1.
Proof.
  induction d as [|[k0 v0] d IH]; [by intros [? ?]|]. cbn [dict_get dict_set].
  case_decide as Hk; [by subst|]. intros H. by rewrite !fmap_cons, IH.
Qed.

Lemma dict_del_keys {V} (d : list (string * V)) k : sublist (dict_del d k).*1 d.*1.
Proof.
  induction d as [|[k0 v0] d IH]; [done|]. cbn [dict_del].
  case_decide; rewrite !fmap_cons; [by apply sublist_cons|by apply sublist_skip].
Qed.

Lemma dict_set_nonempty {K V} `{EqDecision K} (d : list (K * V)) k v : dict_set d k v <> [].
Proof. destruct d as [|[k0 v0] d]; simpl; [done|]. by case_decide. Qed.

Lemma absorb_keeps (d d' : list (string * gset string)) a1 a2 :
  absorb d a1 a2 = Ok d' -> a1 <> a2 ->
  ⋃ d'.*2 = ⋃ d.*2 /\ sublist d'.*1 d.*1 /\ S (length d') = length d.
Proof.
  unfold absorb. destruct (dict_get d a1) as [v1|] eqn:H1; simpl; [|done].
  destruct (dict_get d a2) as [v2|] eqn:H2; simpl; [|done].
  intros [= <-] Hne.
  assert (dict_get (dict_del d a2) a1 = Some v1) as H1'.
  { by rewrite dict_get_dict_del_ne. }
  split; [|split].
  - rewrite (dict_set_union _ _ v1 _ H1' (union_subseteq_l v1 v2)).
    rewrite (dict_del_union d a2 v2 H2).
    assert (v1 ⊆ ⋃ (dict_del d a2).*2) as Hv1.
    { intros x Hx. apply elem_of_union_list. exists v1. split; [|done].
      apply list_elem_of_fmap. exists (a1, v1). split; [done|]. by apply dict_get_elem. }
    revert Hv1. generalize (⋃ (dict_del d a2).*2). intros U HU. set_solver.
  - rewrite dict_set_present_keys by (by eexists). apply dict_del_keys.
  - pose proof (proj2 (dict_set_length (dict_del d a2) a1 (v1 ∪ v2)) (ex_intro _ _ H1'))
      as Hset.
    pose proof (proj2 (dict_del_length d a2) (ex_intro _ _ H2)) as Hdel. lia.
Qed.

Lemma join_step_keeps max_distance st st' :
  join_step max_distance st = Ok (Some st') ->
  ⋃ (js_areas st').*2 = ⋃ (js_areas st).*2 /\
  sublist (js_areas st').*1 (js_areas st).*1 /\
  S (length (js_areas st')) = length (js_areas st) /\
  js_near st' <> [].
Proof.
  unfold join_step. destruct (js_distance st) as [|first rest]; [done|].
  destruct (Rltb _ _); [done|].
  destruct (elements _) as [|a1 [|a2 [|]]] eqn:Hel; try done.
  assert (a1 <> a2) as Hne.
  { pose proof (NoDup_elements (min_by entry_ltb first rest).1) as Hnd.
    rewrite Hel in Hnd. apply NoDup_cons in Hnd as [Hnot _].
    intros ->. apply Hnot. by left. }
  destruct (absorb (js_areas st) a1 a2) as [areas|] eqn:Hareas; simpl; [|done].
  destruct (absorb (js_hulls st) a1 a2) as [hulls|]; simpl; [|done].
  destruct (foldM _ _ _) as [distance|]; simpl; [|done].
  intros [= <-]. simpl.
  destruct (absorb_keeps _ _ _ _ Hareas Hne) as (? & ? & ?).
  split; [done|]. split; [done|]. split; [done|]. apply dict_set_nonempty.
Qed.

Section Conservation.

Variable gps2dist_azimuth : R -> R -> R -> R -> result R.

(** X23. Joining keeps the stations: when the distances are there and the
    loop returns, the union of the areas is what it was and the names of
    the areas are among the old names, in their order; either nothing was
    joined, and the areas are returned as they are with no near stations,
    or there are near stations and fewer areas. *)
Theorem join_conserves_stations (areas hulls areas' : list (string * gset string))
    max_distance coordinates near :
  join_by_distance gps2dist_azimuth areas hulls max_distance coordinates = Ok (areas', near) ->
  ⋃ areas'.*2 = ⋃ areas.*2 /\
  sublist areas'.*1 areas.*1 /\
  ((near = [] /\ areas' = areas) \/ (near <> [] /\ length areas' < length areas)).
Proof.
  unfold join_by_distance.
  destruct (distances _ _ _ _) as [distance|]; simpl; [|done].
  destruct (join_loop _ _) as [st|] eqn:Hloop; simpl; [|done].
  intros [= <- <-].
  apply (join_loop_invariant
           (fun st => ⋃ (js_areas st).*2 = ⋃ areas.*2 /\
                      sublist (js_areas st).*1 areas.*1 /\
                      ((js_near st = [] /\ js_areas st = areas) \/
                       (js_near st <> [] /\ length (js_areas st) < length areas)))
           max_distance) in Hloop; [done| |].
  - intros st1 st2 (HU & Hsub & Hcase) Hstep.
    destruct (join_step_keeps _ _ _ Hstep) as (HU' & Hsub' & Hlen & Hnear).
    split; [by rewrite HU'|]. split; [by etrans|]. right. split; [done|].
    destruct Hcase as [[_ Heq]|[_ Hlt]]; [rewrite Heq in Hlen|]; lia.
  - simpl. split; [done|]. split; [done|]. by left.
Qed.

End Conservation.

(** *** Examples *)

Ltac decide_points :=
  repeat (first [ progress simpl
                | rewrite decide_True by done
                | rewrite decide_False
                    by (let H := fresh in intros H; injection H; intros; lra) ]).

Lemma three_station_coordinates_collected :
  _collect_station_coordinates three_station_inventory = Ok three_station_coordinates.
Proof.
  unfold _collect_station_coordinates, three_station_inventory. simpl.
  unfold station_coordinates, nonzero. simpl.
  rewrite !decide_False by lra. reflexivity.
Qed.

Lemma join_single_area_witness :
  exists hulls,
    hull_reduction every_point three_station_coordinates three_station_area = Ok hulls /\
    _join_unconnected_areas every_point (join_by_distance half_kilometre)
      three_station_area 1 three_station_inventory
    = Ok (three_station_area, []).
Proof.
  assert (exists hulls, hull_reduction every_point three_station_coordinates
                          three_station_area = Ok hulls) as [hulls Hhulls].
  { unfold hull_reduction, three_station_area. cbn [foldM fst snd].
    unfold area_hull.
    assert (elements ({["N.A"; "N.B"; "N.C"]}%string : gset string)
            = ["N.C"; "N.A"; "N.B"]%string) as -> by (vm_compute; reflexivity).
    simpl.
    assert (invert_coordinates three_station_coordinates
            = [((1, 1), "N.A"); ((2, 1), "N.B"); ((1, 2), "N.C")]%string%R) as ->.
    { unfold invert_coordinates, three_station_coordinates. by decide_points. }
    simpl. decide_points.
    by eexists. }
  exists hulls. split; [done|].
  apply (join_single_area every_point half_kilometre three_station_area hulls 1
           three_station_inventory three_station_coordinates).
  - simpl. lia.
  - apply three_station_coordinates_collected.
  - done.
Defined.

Lemma single_station_distances :
  distances half_kilometre two_station_coordinates single_station_areas single_station_areas
  = Ok [(pair_name "A" "B", ((500 / 1000)%R, ("A", "B")%string))].
Proof. vm_compute. reflexivity. Qed.

Lemma join_nothing_near_witness :
  join_by_distance half_kilometre single_station_areas single_station_areas (1 / 4)
    two_station_coordinates
  = Ok (single_station_areas, []).
Proof.
  apply (join_nothing_near half_kilometre single_station_areas single_station_areas (1 / 4)
           two_station_coordinates _ single_station_distances).
  repeat constructor. simpl. lra.
Defined.

Lemma single_station_join :
  join_by_distance half_kilometre single_station_areas single_station_areas 1
    two_station_coordinates
  = Ok ([("A", {["A"]} ∪ {["B"]})], [("A", "B"); ("B", "A")])%string.
Proof.
  unfold join_by_distance. rewrite single_station_distances. simpl.
  rewrite join_loop_eq.
  assert (join_step 1 {| js_areas := single_station_areas; js_hulls := single_station_areas;
                         js_distance := [(pair_name "A" "B",
                                          ((500 / 1000)%R, ("A", "B")%string))];
                         js_near := [] |}
          = Ok (Some {| js_areas := [("A", {["A"]} ∪ {["B"]})]%string;
                        js_hulls := [("A", {["A"]} ∪ {["B"]})]%string;
                        js_distance := [];
                        js_near := [("A", "B"); ("B", "A")]%string |})) as ->.
  { unfold join_step. simpl. rewrite Rltb_false by lra.
    assert (elements (pair_name "A" "B") = ["A"; "B"]%string) as ->
      by (vm_compute; reflexivity).
    vm_compute. reflexivity. }
  rewrite join_loop_eq. reflexivity.
Qed.

Lemma join_conserves_stations_witness :
  exists areas' near,
    join_by_distance half_kilometre single_station_areas single_station_areas 1
      two_station_coordinates = Ok (areas', near) /\
    ⋃ areas'.*2 = ⋃ single_station_areas.*2 /\
    sublist areas'.*1 single_station_areas.*1 /\
    ((near = [] /\ areas' = single_station_areas) \/
     (near <> [] /\ length areas' < length single_station_areas)).
Proof.
  eexists _, _. split; [exact single_station_join|].
  apply (join_conserves_stations half_kilometre single_station_areas single_station_areas _
           1 two_station_coordinates _ single_station_join).
Defined.

(** ** When the alignment returns *)

Lemma dense_row_total Ne coldata :
  Forall (fun cd : nat * R => cd.1 < Ne) coldata -> exists Arow, dense_row Ne coldata = Ok Arow.
Proof.
  unfold dense_row. generalize (length_replicate Ne 0%R). generalize (replicate Ne 0%R).
  induction coldata as [|cd coldata IH]; intros Arow Hlen Hcols; simpl; [by eexists|].
  apply Forall_cons in Hcols as [Hcd Hcols].
  rewrite decide_True by lia. simpl. apply IH; [|done]. by rewrite length_insert.
Qed.

Lemma construct_ols_total use_sparse Ne coldata b_val o :
  repr_matches use_sparse o -> Forall (fun cd : nat * R => cd.1 < Ne) coldata ->
  exists o', construct_ols use_sparse Ne coldata b_val o = Ok o' /\ repr_matches use_sparse o'.
Proof.
  unfold repr_matches, construct_ols. intros Hrepr Hcols.
  destruct use_sparse, (ols_Arepr o) as [data rows cols|Arows]; try done.
  - eexists. split; [done|]. done.
  - destruct (dense_row_total Ne coldata Hcols) as [Arow ->]. simpl.
    eexists. split; [done|]. done.
Qed.

Lemma dict_set_Forall {K V} `{EqDecision K} (P : K * V -> Prop) (d : list (K * V)) k v :
  Forall P d -> P (k, v) -> Forall P (dict_set d k v).
Proof.
  induction d as [|[k0 v0] d IH]; simpl; intros Hd Hkv.
  { by constructor. }
  apply Forall_cons in Hd as [H0 Hd]. case_decide; constructor; auto.
Qed.

Section Builder_total.

Variable use_sparse : bool.
Variable Ne : nat.
Variable station : option string.
Variable response : R.
Variable Nstations_i : gmap string nat.
Variable largest_area : gset string.

Lemma normalize_total k sta x s :
  builder_ready use_sparse Ne s -> k < Ne -> default 0 (Nstations_i !! sta) <> 0 ->
  exists s', normalize station Nstations_i k sta x s = Ok s' /\
             builder_ready use_sparse Ne s'.
Proof.
  intros (Hrepr & Hlast & Hnorm) Hk Hcount. unfold normalize.
  destruct station; [by exists s|].
  destruct (default 0 (Nstations_i !! sta)) as [|n]; [done|].
  eexists. split; [done|]. split; [done|]. split; [done|]. simpl.
  unfold dict_add. by apply dict_set_Forall.
Qed.

Lemma add_pair_total k sta x s :
  builder_ready use_sparse Ne s -> k < Ne ->
  exists s', add_pair use_sparse Ne station response k sta x s = Ok s' /\
             builder_ready use_sparse Ne s'.
Proof.
  intros (Hrepr & Hlast & Hnorm) Hk. unfold add_pair. case_decide.
  - destruct (construct_ols_total use_sparse Ne [(k, 1%R)] (ln response - ln x)%R (bs_ols s))
      as (o & -> & Ho); [done|by repeat constructor|].
    simpl. eexists. split; [done|]. done.
  - destruct (bs_last s !! sta) as [[kl xl]|] eqn:Hl.
    + destruct (construct_ols_total use_sparse Ne [(k, 1%R); (kl, (-1)%R)]
                  (ln xl - ln x)%R (bs_ols s)) as (o & -> & Ho); [done| |].
      { repeat constructor; simpl; [done|]. by eapply Hlast. }
      simpl. eexists. split; [done|]. split; [done|]. split; [|done]. simpl.
      intros sta' kl' xl'. destruct (decide (sta' = sta)) as [->|Hne].
      * rewrite lookup_insert_eq. by intros [= <- <-].
      * rewrite lookup_insert_ne by done. apply Hlast.
    + eexists. split; [done|]. split; [done|]. split; [|done]. simpl.
      intros sta' kl' xl'. destruct (decide (sta' = sta)) as [->|Hne].
      * rewrite lookup_insert_eq. by intros [= <- <-].
      * rewrite lookup_insert_ne by done. apply Hlast.
Qed.

Lemma observe_stations_total i k Rs s :
  builder_ready use_sparse Ne s -> k < Ne ->
  Forall (fun st : string * list value => i < length st.2) Rs ->
  (forall o, o ∈ station_observations i k Rs ->
             default 0 (Nstations_i !! obs_station o) <> 0) ->
  exists s', foldM (observe use_sparse Ne station response Nstations_i largest_area i k) s Rs
             = Ok s' /\ builder_ready use_sparse Ne s'.
Proof.
  intros Hready Hk. revert s Hready.
  induction Rs as [|[sta Rsta] Rs IH]; intros s Hready HRs Hcount; cbn [foldM].
  { by exists s. }
  apply Forall_cons in HRs as [Hlen HRs]. simpl in Hlen.
  destruct (lookup_lt_is_Some_2 Rsta i Hlen) as [v Hv].
  assert (exists s1, observe use_sparse Ne station response Nstations_i largest_area i k s
                       (sta, Rsta) = Ok s1 /\ builder_ready use_sparse Ne s1) as (s1 & -> & H1).
  { unfold observe, index. simpl. rewrite Hv. simpl.
    destruct v as [| |x]; try by exists s.
    case_decide; [|by exists s].
    destruct (normalize_total k sta x s Hready Hk) as (s0 & -> & H0).
    { apply (Hcount {| obs_event := k; obs_station := sta; obs_value := x |}).
      simpl. rewrite Hv. by left. }
    simpl. by apply add_pair_total. }
  cbn [mbind result_bind]. apply IH; [done..|].
  intros o Ho. apply Hcount. simpl. destruct (Rsta !! i) as [[| |x]|]; try done. by right.
Qed.

Lemma observe_events_total Nf i k evs s :
  builder_ready use_sparse Ne s -> k + length evs <= Ne -> i < Nf ->
  Forall (well_formed_event Nf) evs ->
  (forall o, o ∈ event_observations i k evs ->
             default 0 (Nstations_i !! obs_station o) <> 0) ->
  exists s', observe_events use_sparse Ne station response Nstations_i largest_area i k s evs
             = Ok s' /\ builder_ready use_sparse Ne s'.
Proof.
  intros Hready Hk Hi Hwf. revert k s Hready Hk.
  induction evs as [|[evid e] evs IH]; intros k s Hready Hk Hcount; simpl.
  { by exists s. }
  apply Forall_cons in Hwf as [(e0 & He & _ & HR) Hwf]. simpl in He. subst e. simpl in *.
  destruct (observe_stations_total i k (res_R e0) s Hready) as (s1 & -> & H1).
  - lia.
  - eapply Forall_impl; [exact HR|]. simpl. intros st ->. done.
  - intros o Ho. apply Hcount. apply elem_of_app. by left.
  - simpl. apply IH; [done..|lia|].
    intros o Ho. apply Hcount. apply elem_of_app. by right.
Qed.

Lemma build_system_total Nf i evs :
  length evs <= Ne -> i < Nf -> Forall (well_formed_event Nf) evs ->
  (forall o, o ∈ event_observations i 0 evs ->
             default 0 (Nstations_i !! obs_station o) <> 0) ->
  exists o, build_system use_sparse Ne station response Nstations_i largest_area i evs = Ok o /\
            repr_matches use_sparse o.
Proof.
  intros Hlen Hi Hwf Hcount. unfold build_system.
  destruct (observe_events_total Nf i 0 evs (build_init use_sparse))
    as (s & -> & Hrepr & _ & Hnorm); try done.
  { split; [by destruct use_sparse|]. split; [|by constructor].
    intros sta kl xl Hl. simpl in Hl. by rewrite lookup_empty in Hl. }
  simpl. unfold normalization_row. destruct station; [by exists (bs_ols s)|].
  by apply construct_ols_total.
Qed.

End Builder_total.

Lemma selected_area_total rs Nf i :
  well_formed rs Nf -> i < Nf -> (exists sta, observed rs i sta) ->
  exists area, selected_area rs i = Ok area.
Proof.
  intros [_ Hwf] Hi (sta & evid & e & Hin & Hsta & _).
  unfold selected_area, _find_unconnected_areas.
  destruct (event_areas_spec Nf i (events rs) Hwf Hi) as (sets & -> & Hs). simpl.
  assert (exists m, m ∈ sets) as [m Hm].
  { destruct (valid_stations_spec i (res_R e)) as (area & _ & Harea).
    { rewrite Forall_forall in Hwf.
      destruct (Hwf _ Hin) as (e' & [= <-] & _ & HR).
      eapply Forall_impl; [exact HR|]. simpl. intros ? ->. done. }
    exists area. apply Hs. split; [|by exists evid, e].
    intros ->. by apply Harea in Hsta. }
  destruct (name_areas_spec (_merge_sets sets)) as (areas & -> & Hvals & _).
  { apply merge_sets_disjoint. }
  { apply merge_sets_nonempty. apply Forall_forall. intros s Hin'.
    by apply Hs in Hin' as [? _]. }
  simpl. destruct (merge_sets_covered sets m Hm) as (a & Ha & _).
  rewrite <- Hvals in Ha. destruct areas as [|first rest]; [by apply elem_of_nil in Ha|].
  by eexists.
Qed.

Section Returns.

Variable lsmr : list R -> list nat -> list nat -> nat * nat -> list R -> result (list R).
Variable lstsq : list (list R) -> list R -> result (list R).
Variable calculate_source_properties : results -> results.

Lemma band_system_total rs station response use_sparse Nf Nstations i :
  well_formed rs Nf -> i < Nf -> (exists sta, observed rs i sta) ->
  count_events Nf (events rs) = Ok Nstations ->
  exists o, band_system rs station response use_sparse (length (events rs)) Nstations i = Ok o /\
            repr_matches use_sparse o.
Proof.
  intros Hwf Hi Hobs HN. unfold band_system.
  destruct (selected_area_total rs Nf i Hwf Hi Hobs) as [area ->]. simpl.
  unfold index. rewrite (count_events_spec _ _ _ _ HN Hi). simpl.
  apply (build_system_total _ _ _ _ _ _ Nf); [done|done|apply Hwf|].
  intros o Ho. rewrite tally_lookup, lookup_empty. simpl.
  assert (obs_station o ∈ filter (fun s => s = obs_station o)
                                 (obs_station <$> valid_observations i rs)) as Hin.
  { apply list_elem_of_filter. split; [done|]. apply list_elem_of_fmap. by exists o. }
  destruct (filter _ _); [by apply elem_of_nil in Hin|]. simpl. lia.
Qed.


End Returns.

Lemma shared_station_example_well_formed : well_formed (existing shared_station_example) 1.
Proof.
  split; [done|]. repeat constructor; (eexists; split; [done|]; split; [done|]);
    by repeat constructor.
Qed.

